(** * The SSE streaming clients of CourseNavigator

    A shallow embedding of

    - [src/utils/fetch-sse.ts], class [FetchSSEClient]: POST streaming with a
      hand-written Server-Sent-Events parser, heartbeat monitor and
      reconnection with backoff;
    - [src/utils/fetch-sse.ts] (second unit), class [ResilientSSE]: the
      wrapper around the platform's [EventSource];
    - [src/hooks/useCourseAdvisorChat.ts], function [processSSEStream]: the
      frame-at-a-time parser used by the chat hook.

    JavaScript strings are sequences of UTF-16 code units; the counters and
    times that the code computes with are integers ([Z], [nat]); the
    jittered delay is a double, a rational ([Q]) that every multiplication
    and addition rounds as IEEE 754 does; and the callbacks a client
    invokes are recorded in order in a trace. *)

From Stdlib Require Import String Ascii ZArith List Bool QArith Qminmax Qround
  Qpower Lia Lqa.
From Stdlib Require PrimFloat FloatOps SpecFloat.
Import ListNotations.

Local Open Scope Z_scope.
Local Open Scope list_scope.

(* ===================================================================== *)
(** * JavaScript strings *)
(* ===================================================================== *)

Module JS.

(** A string is its list of UTF-16 code units. *)
Definition jsstring := list Z.

Definition LF : Z := 10.
Definition COLON : Z := 58.

(** [lit] reads a literal of this file as a JavaScript string: each
    character is its code unit, and the two-character sequences
    backslash-n, backslash-r, backslash-t and backslash-q stand for line
    feed, carriage return, tab and the double quote. *)
Definition unit_of_ascii (c : ascii) : Z := Z.of_N (N_of_ascii c).

Definition escape (c : ascii) : option Z :=
  if Ascii.eqb c "n"%char then Some 10
  else if Ascii.eqb c "r"%char then Some 13
  else if Ascii.eqb c "t"%char then Some 9
  else if Ascii.eqb c "q"%char then Some 34
  else None.

Fixpoint lit (s : string) : jsstring :=
  match s with
  | EmptyString => []
  | String c rest =>
      if Ascii.eqb c "\"%char then
        match rest with
        | String d rest' =>
            match escape d with
            | Some u => u :: lit rest'
            | None => unit_of_ascii c :: lit rest
            end
        | EmptyString => [unit_of_ascii c]
        end
      else unit_of_ascii c :: lit rest
  end.

Arguments lit s%_string.

(** [a === b] on strings *)
Fixpoint eqb (a b : jsstring) : bool :=
  match a, b with
  | [], [] => true
  | x :: a', y :: b' => (x =? y) && eqb a' b'
  | _, _ => false
  end.

(** [s.startsWith(p)] *)
Fixpoint startsWith (s p : jsstring) {struct p} : bool :=
  match p, s with
  | [], _ => true
  | _ :: _, [] => false
  | x :: p', y :: s' => (x =? y) && startsWith s' p'
  end.

(** [s.indexOf(p)]: the least index at which [p] occurs in [s], or -1. *)
Fixpoint indexOf (s p : jsstring) : Z :=
  if startsWith s p then 0
  else match s with
       | [] => -1
       | _ :: s' => let i := indexOf s' p in if i <? 0 then -1 else i + 1
       end.

(** [s.slice(start)] and [s.slice(start, end)]: a negative index counts
    from the end of the string, and both are clamped to the string. *)
Definition clampIndex (len i : Z) : Z :=
  if i <? 0 then Z.max (len + i) 0 else Z.min i len.

Definition slice (s : jsstring) (start : Z) (stop : option Z) : jsstring :=
  let len := Z.of_nat (length s) in
  let from := clampIndex len start in
  let to := match stop with Some e => clampIndex len e | None => len end in
  firstn (Z.to_nat (to - from)) (skipn (Z.to_nat from) s).

(** [s.split(sep)] for a separator of one code unit. The result is never
    empty: a string without the separator is its own single piece. *)
Fixpoint split (sep : Z) (s : jsstring) : list jsstring :=
  match s with
  | [] => [[]]
  | c :: s' =>
      if c =? sep then [] :: split sep s'
      else match split sep s' with
           | piece :: pieces => (c :: piece) :: pieces
           | [] => [[c]]
           end
  end.

(** The code units that [String.prototype.trim] removes: ECMAScript's
    WhiteSpace (TAB, VT, FF, ZWNBSP and the space separators of Unicode)
    and LineTerminator (LF, CR, LS, PS). *)
Definition isWhiteSpace (c : Z) : bool :=
  (c =? 9) || (c =? 10) || (c =? 11) || (c =? 12) || (c =? 13) || (c =? 32)
  || (c =? 160) || (c =? 5760) || ((8192 <=? c) && (c <=? 8202))
  || (c =? 8232) || (c =? 8233) || (c =? 8239) || (c =? 8287)
  || (c =? 12288) || (c =? 65279).

Fixpoint trimStart (s : jsstring) : jsstring :=
  match s with
  | [] => []
  | c :: s' => if isWhiteSpace c then trimStart s' else s
  end.

Definition trimEnd (s : jsstring) : jsstring := rev (trimStart (rev s)).

Definition trim (s : jsstring) : jsstring := trimEnd (trimStart s).

(** [s.replace(/\n$/, '')]: one line feed at the very end is removed. *)
Fixpoint stripFinalLF (s : jsstring) : jsstring :=
  match s with
  | [] => []
  | [c] => if c =? LF then [] else [c]
  | c :: s' => c :: stripFinalLF s'
  end.

(** The result of [parseInt]: an integer, or NaN. The integer is the
    mathematical value of the digits read (the language rounds it to the
    nearest double). *)
Inductive number : Type :=
| NaN
| Int (z : Z).

Definition isDigit (c : Z) : bool := (48 <=? c) && (c <=? 57).

Fixpoint digitsValue (acc : Z) (s : jsstring) : Z :=
  match s with
  | c :: s' => if isDigit c then digitsValue (10 * acc + (c - 48)) s' else acc
  | [] => acc
  end.

(** [parseInt(s, 10)]: leading white space is skipped, one sign is read,
    then the longest run of decimal digits; no digit gives NaN. *)
Definition parseInt10 (s : jsstring) : number :=
  let s1 := trimStart s in
  let '(sign, s2) :=
    match s1 with
    | 45 :: r => (-1, r)
    | 43 :: r => (1, r)
    | _ => (1, s1)
    end in
  match s2 with
  | c :: _ => if isDigit c then Int (sign * digitsValue 0 s2) else NaN
  | [] => NaN
  end.

End JS.

Import JS.

(* ===================================================================== *)
(** * The platform's streaming text decoder *)
(* ===================================================================== *)

(** [new TextDecoder()] followed by [decoder.decode(value, { stream: true })]
    on each chunk: the UTF-8 decoder of the Encoding standard, whose state
    survives from one call to the next. A malformed sequence yields U+FFFD,
    a byte order mark that opens the stream is dropped, and a code point
    outside the basic plane becomes a surrogate pair. Neither client ever
    flushes the decoder. *)
Module TextDecoder.

Record t : Type := mk {
  codePoint : Z;
  bytesSeen : Z;
  bytesNeeded : Z;
  lowerBoundary : Z;
  upperBoundary : Z;
  bomSeen : bool
}.

Definition fresh : t :=
  {| codePoint := 0; bytesSeen := 0; bytesNeeded := 0;
     lowerBoundary := 0x80; upperBoundary := 0xBF; bomSeen := false |}.

Definition between (lo hi b : Z) : bool := (lo <=? b) && (b <=? hi).

Definition expect (d : t) (needed cp lo hi : Z) : t :=
  {| codePoint := cp; bytesSeen := 0; bytesNeeded := needed;
     lowerBoundary := lo; upperBoundary := hi; bomSeen := bomSeen d |}.

Definition reset (d : t) : t := expect d 0 0 0x80 0xBF.

(** A byte read while no sequence is open. The second component lists the
    code points produced. *)
Definition leadByte (d : t) (b : Z) : t * list Z :=
  if between 0x00 0x7F b then (d, [b])
  else if between 0xC2 0xDF b then (expect d 1 (Z.land b 0x1F) 0x80 0xBF, [])
  else if between 0xE0 0xEF b then
    (expect d 2 (Z.land b 0xF)
       (if b =? 0xE0 then 0xA0 else 0x80) (if b =? 0xED then 0x9F else 0xBF), [])
  else if between 0xF0 0xF4 b then
    (expect d 3 (Z.land b 0x7)
       (if b =? 0xF0 then 0x90 else 0x80) (if b =? 0xF4 then 0x8F else 0xBF), [])
  else (d, [0xFFFD]).

Definition handler (d : t) (b : Z) : t * list Z :=
  if bytesNeeded d =? 0 then leadByte d b
  else if negb (between (lowerBoundary d) (upperBoundary d) b) then
    (* the open sequence is abandoned and the byte is read again *)
    let '(d', out) := leadByte (reset d) b in (d', 0xFFFD :: out)
  else
    let cp := Z.lor (Z.shiftl (codePoint d) 6) (Z.land b 0x3F) in
    let seen := bytesSeen d + 1 in
    if seen =? bytesNeeded d then (reset d, [cp])
    else ({| codePoint := cp; bytesSeen := seen; bytesNeeded := bytesNeeded d;
             lowerBoundary := 0x80; upperBoundary := 0xBF;
             bomSeen := bomSeen d |}, []).

Definition codeUnits (cp : Z) : jsstring :=
  if cp <? 0x10000 then [cp]
  else [0xD800 + Z.shiftr (cp - 0x10000) 10; 0xDC00 + Z.land (cp - 0x10000) 0x3FF].

Definition sawScalar (d : t) : t :=
  {| codePoint := codePoint d; bytesSeen := bytesSeen d;
     bytesNeeded := bytesNeeded d; lowerBoundary := lowerBoundary d;
     upperBoundary := upperBoundary d; bomSeen := true |}.

(** The code points of one byte, written to the output string. *)
Fixpoint serialize (d : t) (cps : list Z) : t * jsstring :=
  match cps with
  | [] => (d, [])
  | cp :: rest =>
      let '(d', out) := serialize (sawScalar d) rest in
      if negb (bomSeen d) && (cp =? 0xFEFF) then (d', out)
      else (d', codeUnits cp ++ out)
  end.

Definition decodeByte (d : t) (b : Z) : t * jsstring :=
  let '(d1, cps) := handler d b in serialize d1 cps.

Fixpoint decode (d : t) (bytes : list Z) : t * jsstring :=
  match bytes with
  | [] => (d, [])
  | b :: rest =>
      let '(d1, s1) := decodeByte d b in
      let '(d2, s2) := decode d1 rest in
      (d2, s1 ++ s2)
  end.

End TextDecoder.

(** The UTF-8 bytes of a literal of this file (its characters are ASCII). *)
Definition utf8 (s : string) : list Z := lit s.
Arguments utf8 s%_string.

(* ===================================================================== *)
(** * JavaScript numbers *)
(* ===================================================================== *)

(** The Number type, as far as the clients compute with it: the finite
    doubles of IEEE 754 (binary64), each the rational it denotes. [x * y]
    and [x + y] are the exact product and sum rounded to the nearest
    double, ties to the even significand. Doubles have 53 significant bits;
    below [2 ^ -1022] they are the multiples of [2 ^ -1074]. The numbers
    of the clients are far below the largest double, so that no operation
    overflows. *)
Module Double.

Definition pow2 (e : Z) : Q := (2 ^ e)%Q.

(** The integer part of the binary logarithm of [x > 0]. *)
Definition exponent (x : Q) : Z :=
  let e := Z.log2 (Qnum x) - Z.log2 (Zpos (Qden x)) in
  if Qle_bool (pow2 e) x then e else e - 1.

(** The distance between the doubles next to [x > 0]. *)
Definition ulp (x : Q) : Q := pow2 (Z.max (exponent x) (-1022) - 52).

(** The nearest integer, the even one of two that are equally near. *)
Definition nearestEven (q : Q) : Z :=
  let f := Qfloor q in
  match Qcompare (q - inject_Z f) (1 # 2) with
  | Lt => f
  | Gt => f + 1
  | Eq => if Z.even f then f else f + 1
  end.

Definition roundPositive (x : Q) : Q :=
  Qred (inject_Z (nearestEven (x / ulp x)) * ulp x).

(** The double nearest to [x]. *)
Definition round (x : Q) : Q :=
  match Qnum x with
  | Z0 => 0%Q
  | Zpos _ => roundPositive x
  | Zneg _ => (- roundPositive (- x))%Q
  end.

(** [x + y] and [x * y] *)
Definition add (x y : Q) : Q := round (x + y).
Definition mul (x y : Q) : Q := round (x * y).

(** [Math.min(x, y)] *)
Definition min (x y : Q) : Q := Qmin x y.

(** The rational that a double of the kernel denotes; [None] for the
    infinities and NaN. *)
Definition ofFloat (f : PrimFloat.float) : option Q :=
  match FloatOps.Prim2SF f with
  | SpecFloat.S754_zero _ => Some 0%Q
  | SpecFloat.S754_finite s m e =>
      Some (Qred ((if s then -1 else 1) * inject_Z (Zpos m) * pow2 e))
  | _ => None
  end.

End Double.

Arguments Double.add : simpl never.
Arguments Double.mul : simpl never.

(* ===================================================================== *)
(** * Callbacks, errors and the browser *)
(* ===================================================================== *)

Inductive ConnectionStatus : Type :=
| connecting
| connected
| reconnecting
| disconnected.

Module Error.
Record t : Type := mk { name : jsstring; message : jsstring }.
End Error.

(** [new Error(message)] *)
Definition newError (message : jsstring) : Error.t :=
  {| Error.name := lit "Error"; Error.message := message |}.

(** What a pending [fetch] or [read] rejects with once its signal is
    aborted. *)
Definition AbortError : Error.t :=
  {| Error.name := lit "AbortError";
     Error.message := lit "The operation was aborted." |}.

(** [interface SSEMessage] of the POST client. *)
Module SSEMessage.
Record t : Type := mk {
  data : jsstring;
  event : option jsstring;
  id : option jsstring;
  retry : option number
}.
End SSEMessage.

(** One invocation of a callback of the options. *)
Inductive Callback : Type :=
| onMessage (message : SSEMessage.t)
| onError (error : Error.t)
| onConnectionStatus (status : ConnectionStatus)
| onHeartbeat.

(** The part of the browser the clients talk to: the clock, the timers of
    [window], the abort signals, and [Math.random]. Handles are positive,
    as the platform's timer identifiers are, so every handle is truthy. *)
Module Browser.

Record t : Type := mk {
  now : Z;                          (* Date.now() *)
  nextHandle : positive;
  timeouts : list (positive * Q);   (* pending setTimeout: handle, delay *)
  intervals : list (positive * Z);  (* running setInterval: handle, period *)
  aborted : list positive;          (* signals whose abort() was called *)
  random : nat -> Q;                (* the results of Math.random(), in order *)
  randomCalls : nat
}.

Definition fresh (b : t) : positive * t :=
  (nextHandle b,
   mk (now b) (Pos.succ (nextHandle b)) (timeouts b) (intervals b) (aborted b)
      (random b) (randomCalls b)).

Definition setTimeout (delay : Q) (b : t) : positive * t :=
  let '(h, b) := fresh b in
  (h, mk (now b) (nextHandle b) (timeouts b ++ [(h, delay)]) (intervals b)
         (aborted b) (random b) (randomCalls b)).

Definition removeHandle {A : Type} (h : positive) (l : list (positive * A))
  : list (positive * A) :=
  filter (fun e => negb (Pos.eqb (fst e) h)) l.

Definition hasHandle {A : Type} (h : positive) (l : list (positive * A)) : bool :=
  existsb (fun e => Pos.eqb (fst e) h) l.

Definition clearTimeout (h : positive) (b : t) : t :=
  mk (now b) (nextHandle b) (removeHandle h (timeouts b)) (intervals b)
     (aborted b) (random b) (randomCalls b).

Definition setInterval (period : Z) (b : t) : positive * t :=
  let '(h, b) := fresh b in
  (h, mk (now b) (nextHandle b) (timeouts b) (intervals b ++ [(h, period)])
         (aborted b) (random b) (randomCalls b)).

Definition clearInterval (h : positive) (b : t) : t :=
  mk (now b) (nextHandle b) (timeouts b) (removeHandle h (intervals b))
     (aborted b) (random b) (randomCalls b).

Definition abort (signal : positive) (b : t) : t :=
  mk (now b) (nextHandle b) (timeouts b) (intervals b) (signal :: aborted b)
     (random b) (randomCalls b).

Definition isAborted (signal : positive) (b : t) : bool :=
  existsb (Pos.eqb signal) (aborted b).

Definition Math_random (b : t) : Q * t :=
  (random b (randomCalls b),
   mk (now b) (nextHandle b) (timeouts b) (intervals b) (aborted b)
      (random b) (S (randomCalls b))).

Definition elapse (ms : Z) (b : t) : t :=
  mk (now b + ms) (nextHandle b) (timeouts b) (intervals b) (aborted b)
     (random b) (randomCalls b).

(** A browser in which nothing has happened yet. *)
Definition initial (clock : Z) (rnd : nat -> Q) : t :=
  mk clock 1%positive [] [] [] rnd 0%nat.

End Browser.

(** ** Methods: a state over the object and the browser, and the trace of
    the callbacks invoked

    The callbacks of the consumer are taken to return normally and not to
    call back into the client. *)

Definition M (S A : Type) : Type := S -> A * S * list Callback.

Definition ret {S A : Type} (a : A) : M S A := fun s => (a, s, []).

Definition bind {S A B : Type} (m : M S A) (k : A -> M S B) : M S B :=
  fun s =>
    let '(a, s1, t1) := m s in
    let '(b, s2, t2) := k a s1 in
    (b, s2, t1 ++ t2).

Definition gets {S A : Type} (f : S -> A) : M S A := fun s => (f s, s, []).

Definition modify {S : Type} (f : S -> S) : M S unit := fun s => (tt, f s, []).

Definition invoke {S : Type} (c : Callback) : M S unit := fun s => (tt, s, [c]).

Declare Scope method_scope.
Delimit Scope method_scope with method.
Notation "x <- m ;; k" := (bind m (fun x => k))
  (at level 61, m at next level, right associativity) : method_scope.
Notation "m ;; k" := (bind m (fun _ => k))
  (at level 61, right associativity) : method_scope.
Local Open Scope method_scope.

(** [for (const x of xs) body(x)] *)
Fixpoint forEach {S A : Type} (xs : list A) (body : A -> M S unit) : M S unit :=
  match xs with
  | [] => ret tt
  | x :: rest => body x ;; forEach rest body
  end.

Definition state {S A : Type} (r : A * S * list Callback) : S := snd (fst r).
Definition trace {S A : Type} (r : A * S * list Callback) : list Callback := snd r.

(* ===================================================================== *)
(** * [FetchSSEClient]: POST streaming with manual SSE parsing *)
(* ===================================================================== *)

Module FetchSSE.

Definition BACKOFF_SCHEDULE : list Z := [1000; 2000; 4000; 8000; 16000; 30000].

(** [interface ParsedSSEEvent]: every field is optional. *)
Module ParsedSSEEvent.
Record t : Type := mk {
  event : option jsstring;
  data : option jsstring;
  id : option jsstring;
  retry : option number
}.
(** The object literal [{}]. *)
Definition empty : t := mk None None None None.
End ParsedSSEEvent.

(** [interface FetchSSEOptions], as the caller gives it. The callbacks are
    not fields here: their invocations are what the trace records. *)
Module FetchSSEOptions.
Record t : Type := mk {
  headers : list (jsstring * jsstring);
  body : option jsstring;
  maxReconnectAttempts : option Z;
  heartbeatTimeoutMs : option Z;
  initialBackoffMs : option Z;
  maxBackoffMs : option Z
}.
End FetchSSEOptions.

(** [Required<FetchSSEOptions>], as the constructor stores it. *)
Module Options.
Record t : Type := mk {
  headers : list (jsstring * jsstring);
  body : option jsstring;
  maxReconnectAttempts : Z;
  heartbeatTimeoutMs : Z;
  initialBackoffMs : Z;
  maxBackoffMs : Z
}.
End Options.

(** [given || fallback] on an optional number: [undefined] and [0] are
    falsy. *)
Definition orNumber (given : option Z) (fallback : Z) : Z :=
  match given with
  | Some n => if n =? 0 then fallback else n
  | None => fallback
  end.

(** The private fields of the class. *)
Record t : Type := mk {
  url : jsstring;
  options : Options.t;
  abortController : option positive;
  reconnectAttempts : nat;
  isConnected : bool;
  lastHeartbeat : Z;
  heartbeatTimer : option positive;
  reconnectTimer : option positive;
  currentEvent : ParsedSSEEvent.t
}.

Definition constructor (url : jsstring) (o : FetchSSEOptions.t) : t :=
  {| url := url;
     options :=
       {| Options.headers := FetchSSEOptions.headers o;
          Options.body := FetchSSEOptions.body o;
          Options.maxReconnectAttempts :=
            orNumber (FetchSSEOptions.maxReconnectAttempts o) 5;
          Options.heartbeatTimeoutMs :=
            orNumber (FetchSSEOptions.heartbeatTimeoutMs o) 15000;
          Options.initialBackoffMs :=
            orNumber (FetchSSEOptions.initialBackoffMs o) 1000;
          Options.maxBackoffMs := orNumber (FetchSSEOptions.maxBackoffMs o) 30000 |};
     abortController := None;
     reconnectAttempts := 0%nat;
     isConnected := false;
     lastHeartbeat := 0;
     heartbeatTimer := None;
     reconnectTimer := None;
     currentEvent := ParsedSSEEvent.empty |}.

(** Assignments to the fields. *)
Definition set_abortController (v : option positive) (c : t) : t :=
  mk (url c) (options c) v (reconnectAttempts c) (isConnected c)
     (lastHeartbeat c) (heartbeatTimer c) (reconnectTimer c) (currentEvent c).
Definition set_reconnectAttempts (v : nat) (c : t) : t :=
  mk (url c) (options c) (abortController c) v (isConnected c)
     (lastHeartbeat c) (heartbeatTimer c) (reconnectTimer c) (currentEvent c).
Definition set_isConnected (v : bool) (c : t) : t :=
  mk (url c) (options c) (abortController c) (reconnectAttempts c) v
     (lastHeartbeat c) (heartbeatTimer c) (reconnectTimer c) (currentEvent c).
Definition set_lastHeartbeat (v : Z) (c : t) : t :=
  mk (url c) (options c) (abortController c) (reconnectAttempts c)
     (isConnected c) v (heartbeatTimer c) (reconnectTimer c) (currentEvent c).
Definition set_heartbeatTimer (v : option positive) (c : t) : t :=
  mk (url c) (options c) (abortController c) (reconnectAttempts c)
     (isConnected c) (lastHeartbeat c) v (reconnectTimer c) (currentEvent c).
Definition set_reconnectTimer (v : option positive) (c : t) : t :=
  mk (url c) (options c) (abortController c) (reconnectAttempts c)
     (isConnected c) (lastHeartbeat c) (heartbeatTimer c) v (currentEvent c).
Definition set_currentEvent (v : ParsedSSEEvent.t) (c : t) : t :=
  mk (url c) (options c) (abortController c) (reconnectAttempts c)
     (isConnected c) (lastHeartbeat c) (heartbeatTimer c) (reconnectTimer c) v.

(** ** The running program: the object, the browser, and the calls of
    [connect] that are suspended at an [await] *)

(** Where a call of [connect] is suspended: at [await fetch(...)], or in
    [processStream] at [await reader.read()] with its local [decoder] and
    [buffer]. *)
Inductive Suspended : Type :=
| awaitingFetch
| awaitingRead (decoder : TextDecoder.t) (buffer : jsstring).

Record World : Type := mkWorld {
  this : t;
  browser : Browser.t;
  calls : list (positive * Suspended)   (* keyed by the call's abort signal *)
}.

Definition Method (A : Type) : Type := M World A.

Definition assign (f : t -> t) : Method unit :=
  modify (fun w => mkWorld (f (this w)) (browser w) (calls w)).

Definition window (f : Browser.t -> Browser.t) : Method unit :=
  modify (fun w => mkWorld (this w) (f (browser w)) (calls w)).

Definition windowCall {A : Type} (f : Browser.t -> A * Browser.t) : Method A :=
  fun w => let '(a, b) := f (browser w) in (a, mkWorld (this w) b (calls w), []).

Definition Date_now : Method Z := gets (fun w => Browser.now (browser w)).

(** ** The parser *)

(** [parseSSEEvent]: the line is cut at its first colon and the value is
    trimmed. *)
Definition parseSSEEvent (line : jsstring) : Method unit :=
  let colonIndex := indexOf line (lit ":") in
  if colonIndex =? -1 then ret tt
  else
    let field := slice line 0 (Some colonIndex) in
    let value := trim (slice line (colonIndex + 1) None) in
    ev <- gets (fun w => currentEvent (this w)) ;;
    if eqb field (lit "data") then
      let sofar := match ParsedSSEEvent.data ev with Some d => d | None => [] end in
      assign (set_currentEvent
                (ParsedSSEEvent.mk (ParsedSSEEvent.event ev)
                   (Some (sofar ++ value ++ lit "\n"))
                   (ParsedSSEEvent.id ev) (ParsedSSEEvent.retry ev)))
    else if eqb field (lit "event") then
      assign (set_currentEvent
                (ParsedSSEEvent.mk (Some value) (ParsedSSEEvent.data ev)
                   (ParsedSSEEvent.id ev) (ParsedSSEEvent.retry ev)))
    else if eqb field (lit "id") then
      assign (set_currentEvent
                (ParsedSSEEvent.mk (ParsedSSEEvent.event ev)
                   (ParsedSSEEvent.data ev) (Some value) (ParsedSSEEvent.retry ev)))
    else if eqb field (lit "retry") then
      assign (set_currentEvent
                (ParsedSSEEvent.mk (ParsedSSEEvent.event ev)
                   (ParsedSSEEvent.data ev) (ParsedSSEEvent.id ev)
                   (Some (parseInt10 value))))
    else ret tt.

(** [dispatchEvent]: a pending event with a [data] field is handed to
    [onMessage], its fields copied as they are; the pending event is then
    emptied. *)
Definition dispatchEvent : Method unit :=
  ev <- gets (fun w => currentEvent (this w)) ;;
  match ParsedSSEEvent.data ev with
  | Some d =>
      invoke (onMessage
                {| SSEMessage.data := stripFinalLF d;
                   SSEMessage.event := ParsedSSEEvent.event ev;
                   SSEMessage.id := ParsedSSEEvent.id ev;
                   SSEMessage.retry := ParsedSSEEvent.retry ev |})
  | None => ret tt
  end ;;
  assign (set_currentEvent ParsedSSEEvent.empty).

Definition processSSELine (line : jsstring) : Method unit :=
  now <- Date_now ;;
  assign (set_lastHeartbeat now) ;;
  if startsWith line (lit ":") then invoke onHeartbeat
  else if eqb (trim line) [] then dispatchEvent
  else if startsWith line (lit "data:") || startsWith line (lit "event:")
          || startsWith line (lit "id:") || startsWith line (lit "retry:")
  then parseSSEEvent line
  else ret tt.

(** One turn of the loop of [processStream], for a chunk [value] that
    [reader.read()] delivered: the new [decoder] and [buffer] are
    returned. [lines.pop() || ''] is the last piece either way. *)
Definition processChunk (decoder : TextDecoder.t) (buffer : jsstring)
    (value : list Z) : Method (TextDecoder.t * jsstring) :=
  let '(decoder, text) := TextDecoder.decode decoder value in
  let buffer := buffer ++ text in
  let lines := split LF buffer in
  let buffer := last lines [] in
  forEach (removelast lines) processSSELine ;;
  ret (decoder, buffer).

(** [processStream] over the chunks that [reader.read()] delivers before
    the body is done; each comes with the time the [await] took. *)
Fixpoint processStream (decoder : TextDecoder.t) (buffer : jsstring)
    (reads : list (Z * list Z)) : Method (TextDecoder.t * jsstring) :=
  match reads with
  | [] => ret (decoder, buffer)
  | (waited, value) :: rest =>
      window (Browser.elapse waited) ;;
      r <- processChunk decoder buffer value ;;
      processStream (fst r) (snd r) rest
  end.

(** ** Heartbeat monitor and reconnection *)

Definition stopHeartbeatMonitor : Method unit :=
  timer <- gets (fun w => heartbeatTimer (this w)) ;;
  match timer with
  | Some h => window (Browser.clearInterval h) ;; assign (set_heartbeatTimer None)
  | None => ret tt
  end.

Definition startHeartbeatMonitor : Method unit :=
  stopHeartbeatMonitor ;;
  h <- windowCall (Browser.setInterval 5000) ;;
  assign (set_heartbeatTimer (Some h)).

(** [BACKOFF_SCHEDULE[i]]; the index computed below is always in range. *)
Definition scheduleAt (i : nat) : Z := nth i BACKOFF_SCHEDULE 0.

Definition scheduleReconnect : Method unit :=
  invoke (onConnectionStatus reconnecting) ;;
  attempts <- gets (fun w => reconnectAttempts (this w)) ;;
  maxBackoffMs <- gets (fun w => Options.maxBackoffMs (options (this w))) ;;
  let backoffIndex := Nat.min attempts (length BACKOFF_SCHEDULE - 1) in
  let baseDelay := scheduleAt backoffIndex in
  r <- windowCall Browser.Math_random ;;
  let jitter := Double.mul r 500 in
  let delay :=
    Double.min (Double.add (inject_Z baseDelay) jitter) (inject_Z maxBackoffMs) in
  h <- windowCall (Browser.setTimeout delay) ;;
  assign (set_reconnectTimer (Some h)).

Definition handleConnectionError (error : Error.t) : Method unit :=
  assign (set_isConnected false) ;;
  stopHeartbeatMonitor ;;
  invoke (onError error) ;;
  attempts <- gets (fun w => reconnectAttempts (this w)) ;;
  maxAttempts <- gets (fun w => Options.maxReconnectAttempts (options (this w))) ;;
  if Z.of_nat attempts <? maxAttempts then scheduleReconnect
  else invoke (onConnectionStatus disconnected).

Definition cleanup : Method unit :=
  controller <- gets (fun w => abortController (this w)) ;;
  match controller with
  | Some signal =>
      window (Browser.abort signal) ;; assign (set_abortController None)
  | None => ret tt
  end ;;
  timer <- gets (fun w => reconnectTimer (this w)) ;;
  match timer with
  | Some h => window (Browser.clearTimeout h) ;; assign (set_reconnectTimer None)
  | None => ret tt
  end ;;
  stopHeartbeatMonitor ;;
  assign (set_isConnected false).

Definition close : Method unit :=
  cleanup ;;
  invoke (onConnectionStatus disconnected).

(** ** [connect], one piece per [await] *)

Definition suspend (signal : positive) (at_ : Suspended) : Method unit :=
  modify (fun w => mkWorld (this w) (browser w)
                     (Browser.removeHandle signal (calls w) ++ [(signal, at_)])).

Definition finish (signal : positive) : Method unit :=
  modify (fun w => mkWorld (this w) (browser w)
                     (Browser.removeHandle signal (calls w))).

(** From the call to [await fetch(this.url, { ..., signal })]. *)
Definition connect : Method unit :=
  cleanup ;;
  signal <- windowCall Browser.fresh ;;
  assign (set_abortController (Some signal)) ;;
  invoke (onConnectionStatus connecting) ;;
  suspend signal awaitingFetch.

(** The [catch] clause of [connect]. *)
Definition connect_catch (error : Error.t) : Method unit :=
  if eqb (Error.name error) (lit "AbortError") then ret tt
  else handleConnectionError error.

(** What the code reads of a [Response]. *)
Record Response : Type := mkResponse {
  ok : bool;
  status : jsstring;       (* the status code, as the template prints it *)
  statusText : jsstring;
  hasBody : bool
}.

(** From the resolution of [fetch] to the first [await reader.read()]. *)
Definition connect_onResponse (signal : positive) (response : Response)
  : Method unit :=
  if negb (ok response) then
    finish signal ;;
    connect_catch
      (newError (lit "HTTP " ++ status response ++ lit ": " ++ statusText response))
  else if negb (hasBody response) then
    finish signal ;;
    connect_catch (newError (lit "Response body is null"))
  else
    assign (set_isConnected true) ;;
    assign (set_reconnectAttempts 0%nat) ;;
    now <- Date_now ;;
    assign (set_lastHeartbeat now) ;;
    invoke (onConnectionStatus connected) ;;
    startHeartbeatMonitor ;;
    suspend signal (awaitingRead TextDecoder.fresh []).

(** The callbacks handed to [window.setInterval] and [window.setTimeout]. *)
Definition heartbeatCheck : Method unit :=
  now <- Date_now ;;
  last <- gets (fun w => lastHeartbeat (this w)) ;;
  timeout <- gets (fun w => Options.heartbeatTimeoutMs (options (this w))) ;;
  let timeSinceLastHeartbeat := now - last in
  if timeout <? timeSinceLastHeartbeat then
    handleConnectionError (newError (lit "Heartbeat timeout"))
  else ret tt.

Definition reconnectNow : Method unit :=
  attempts <- gets (fun w => reconnectAttempts (this w)) ;;
  assign (set_reconnectAttempts (S attempts)) ;;
  connect.

(** ** The event loop

    What the consumer and the browser can do to a client, one task at a
    time. A task that the platform cannot run in the present state (a timer
    that is not pending, a response for a call that is not waiting for one,
    data on an aborted signal) is refused with [None]. *)
Inductive Task : Type :=
| callConnect                                        (* client.connect() *)
| callClose                                          (* client.close() *)
| timePasses (ms : Z)
| fetchResolves (signal : positive) (response : Response)
| fetchRejects (signal : positive) (error : Error.t)  (* network failure *)
| readResolves (signal : positive) (value : list Z)
| readDone (signal : positive)
| readRejects (signal : positive) (error : Error.t)   (* network failure *)
| abortSettles (signal : positive)   (* the await of an aborted call rejects *)
| intervalFires (handle : positive)
| timeoutFires (handle : positive).

Definition suspendedAt (signal : positive) (w : World) : option Suspended :=
  match filter (fun e => Pos.eqb (fst e) signal) (calls w) with
  | (_, at_) :: _ => Some at_
  | [] => None
  end.

Definition live (signal : positive) (w : World) : bool :=
  negb (Browser.isAborted signal (browser w)).

Definition run (task : Task) (w : World) : option (World * list Callback) :=
  let done (m : Method unit) := Some (state (m w), trace (m w)) in
  match task with
  | callConnect => done connect
  | callClose => done close
  | timePasses ms =>
      if 0 <=? ms then done (window (Browser.elapse ms)) else None
  | fetchResolves signal response =>
      match suspendedAt signal w with
      | Some awaitingFetch =>
          if live signal w then done (connect_onResponse signal response) else None
      | _ => None
      end
  | fetchRejects signal error =>
      match suspendedAt signal w with
      | Some awaitingFetch =>
          if live signal w && negb (eqb (Error.name error) (lit "AbortError"))
          then done (finish signal ;; connect_catch error) else None
      | _ => None
      end
  | readResolves signal value =>
      match suspendedAt signal w with
      | Some (awaitingRead decoder buffer) =>
          if live signal w then
            done (r <- processChunk decoder buffer value ;;
                  suspend signal (awaitingRead (fst r) (snd r)))
          else None
      | _ => None
      end
  | readDone signal =>
      match suspendedAt signal w with
      | Some (awaitingRead _ _) =>
          if live signal w then done (finish signal) else None
      | _ => None
      end
  | readRejects signal error =>
      match suspendedAt signal w with
      | Some (awaitingRead _ _) =>
          if live signal w && negb (eqb (Error.name error) (lit "AbortError"))
          then done (finish signal ;; connect_catch error) else None
      | _ => None
      end
  | abortSettles signal =>
      match suspendedAt signal w with
      | Some _ =>
          if live signal w then None
          else done (finish signal ;; connect_catch AbortError)
      | None => None
      end
  | intervalFires h =>
      if Browser.hasHandle h (Browser.intervals (browser w))
      then done heartbeatCheck else None
  | timeoutFires h =>
      if Browser.hasHandle h (Browser.timeouts (browser w))
      then done (window (Browser.clearTimeout h) ;; reconnectNow) else None
  end.

(** A sequence of tasks, with the callbacks of all of them. *)
Fixpoint runAll (tasks : list Task) (w : World) : option (World * list Callback) :=
  match tasks with
  | [] => Some (w, [])
  | task :: rest =>
      match run task w with
      | Some (w1, t1) =>
          match runAll rest w1 with
          | Some (w2, t2) => Some (w2, t1 ++ t2)
          | None => None
          end
      | None => None
      end
  end.

(** A client just constructed, in a browser where nothing has happened. *)
Definition start (url : jsstring) (o : FetchSSEOptions.t) (clock : Z)
    (rnd : nat -> Q) : World :=
  mkWorld (constructor url o) (Browser.initial clock rnd) [].

End FetchSSE.

(* ===================================================================== *)
(** * [ResilientSSE]: the wrapper around [EventSource] *)
(* ===================================================================== *)

Module ResilientSSE.

Definition BACKOFF_SCHEDULE : list Z := [1000; 2000; 4000; 8000; 16000; 30000].

(** [interface ResilientSSEOptions], as the caller gives it. *)
Module ResilientSSEOptions.
Record t : Type := mk {
  url : jsstring;
  maxReconnectAttempts : option Z;
  initialBackoffMs : option Z;
  maxBackoffMs : option Z;
  heartbeatTimeoutMs : option Z
}.
End ResilientSSEOptions.

(** [Required<ResilientSSEOptions>] *)
Module Options.
Record t : Type := mk {
  url : jsstring;
  maxReconnectAttempts : Z;
  initialBackoffMs : Z;
  maxBackoffMs : Z;
  heartbeatTimeoutMs : Z
}.
End Options.

(** The private fields of the class; [es] and [heartbeatTimer] are
    [undefined] until set. *)
Record t : Type := mk {
  es : option positive;
  url : jsstring;
  options : Options.t;
  lastHeartbeat : Z;
  heartbeatTimer : option positive;
  reconnectAttempts : nat;
  currentBackoffMs : Z;
  isDestroyed : bool;
  abortController : positive;
  lastEventId : option jsstring
}.

Definition set_es (v : option positive) (c : t) : t :=
  mk v (url c) (options c) (lastHeartbeat c) (heartbeatTimer c)
     (reconnectAttempts c) (currentBackoffMs c) (isDestroyed c)
     (abortController c) (lastEventId c).
Definition set_lastHeartbeat (v : Z) (c : t) : t :=
  mk (es c) (url c) (options c) v (heartbeatTimer c)
     (reconnectAttempts c) (currentBackoffMs c) (isDestroyed c)
     (abortController c) (lastEventId c).
Definition set_heartbeatTimer (v : option positive) (c : t) : t :=
  mk (es c) (url c) (options c) (lastHeartbeat c) v
     (reconnectAttempts c) (currentBackoffMs c) (isDestroyed c)
     (abortController c) (lastEventId c).
Definition set_reconnectAttempts (v : nat) (c : t) : t :=
  mk (es c) (url c) (options c) (lastHeartbeat c) (heartbeatTimer c)
     v (currentBackoffMs c) (isDestroyed c)
     (abortController c) (lastEventId c).
Definition set_currentBackoffMs (v : Z) (c : t) : t :=
  mk (es c) (url c) (options c) (lastHeartbeat c) (heartbeatTimer c)
     (reconnectAttempts c) v (isDestroyed c)
     (abortController c) (lastEventId c).
Definition set_isDestroyed (v : bool) (c : t) : t :=
  mk (es c) (url c) (options c) (lastHeartbeat c) (heartbeatTimer c)
     (reconnectAttempts c) (currentBackoffMs c) v
     (abortController c) (lastEventId c).
Definition set_lastEventId (v : option jsstring) (c : t) : t :=
  mk (es c) (url c) (options c) (lastHeartbeat c) (heartbeatTimer c)
     (reconnectAttempts c) (currentBackoffMs c) (isDestroyed c)
     (abortController c) v.

(** What the code reads of a [MessageEvent]. *)
Record MessageEvent : Type := mkMessageEvent {
  data : jsstring;
  type : jsstring;
  eventLastEventId : jsstring      (* event.lastEventId *)
}.

(** The object, the browser, and the [EventSource]s that are open. *)
Record World : Type := mkWorld {
  this : t;
  browser : Browser.t;
  sources : list (positive * jsstring)   (* handle, url *)
}.

Definition Method (A : Type) : Type := M World A.

Definition assign (f : t -> t) : Method unit :=
  modify (fun w => mkWorld (f (this w)) (browser w) (sources w)).

Definition window (f : Browser.t -> Browser.t) : Method unit :=
  modify (fun w => mkWorld (this w) (f (browser w)) (sources w)).

Definition windowCall {A : Type} (f : Browser.t -> A * Browser.t) : Method A :=
  fun w => let '(a, b) := f (browser w) in (a, mkWorld (this w) b (sources w), []).

Definition Date_now : Method Z := gets (fun w => Browser.now (browser w)).

(** [new ResilientSSE(options)] in browser [b]. *)
Definition constructor (o : ResilientSSEOptions.t) (b : Browser.t) : World :=
  let '(controller, b) := Browser.fresh b in
  let initialBackoffMs :=
    FetchSSE.orNumber (ResilientSSEOptions.initialBackoffMs o) 1000 in
  mkWorld
    {| es := None;
       url := ResilientSSEOptions.url o;
       options :=
         {| Options.url := ResilientSSEOptions.url o;
            Options.maxReconnectAttempts :=
              FetchSSE.orNumber (ResilientSSEOptions.maxReconnectAttempts o) 10;
            Options.initialBackoffMs := initialBackoffMs;
            Options.maxBackoffMs :=
              FetchSSE.orNumber (ResilientSSEOptions.maxBackoffMs o) 30000;
            Options.heartbeatTimeoutMs :=
              FetchSSE.orNumber (ResilientSSEOptions.heartbeatTimeoutMs o) 15000 |};
       lastHeartbeat := 0;
       heartbeatTimer := None;
       reconnectAttempts := 0%nat;
       currentBackoffMs := initialBackoffMs;
       isDestroyed := false;
       abortController := controller;
       lastEventId := None |}
    b [].

Definition stopHeartbeatMonitoring : Method unit :=
  timer <- gets (fun w => heartbeatTimer (this w)) ;;
  match timer with
  | Some h => window (Browser.clearInterval h) ;; assign (set_heartbeatTimer None)
  | None => ret tt
  end.

Definition startHeartbeatMonitoring : Method unit :=
  stopHeartbeatMonitoring ;;
  let checkInterval := 5000 in
  h <- windowCall (Browser.setInterval checkInterval) ;;
  assign (set_heartbeatTimer (Some h)).

(** [cleanup]: its parameter is not read. *)
Definition cleanup (triggerReconnect : bool) : Method unit :=
  stopHeartbeatMonitoring ;;
  source <- gets (fun w => es (this w)) ;;
  match source with
  | Some h =>
      modify (fun w => mkWorld (this w) (browser w)
                         (Browser.removeHandle h (sources w))) ;;
      assign (set_es None)
  | None => ret tt
  end.

Definition close (final : bool) : Method unit :=
  cleanup false ;;
  if final then
    assign (set_isDestroyed true) ;;
    controller <- gets (fun w => abortController (this w)) ;;
    window (Browser.abort controller) ;;
    invoke (onConnectionStatus disconnected)
  else ret tt.

(** [handleMessage], the [onmessage] handler; the consumer's [onMessage]
    is taken to return normally. The message passed on has the event type
    of the event, or ["message"] when that is empty. *)
Definition handleMessage (event : MessageEvent) : Method unit :=
  now <- Date_now ;;
  assign (set_lastHeartbeat now) ;;
  match eventLastEventId event with
  | _ :: _ => assign (set_lastEventId (Some (eventLastEventId event)))
  | [] => ret tt
  end ;;
  if eqb (data event) (lit "[DONE]") || eqb (data event) (lit "stream_complete")
  then close false
  else if eqb (data event) (lit "heartbeat") || eqb (data event) (lit "connected")
  then ret tt
  else
    invoke (onMessage
              {| SSEMessage.data := data event;
                 SSEMessage.event :=
                   Some (match type event with
                         | _ :: _ => type event
                         | [] => lit "message"
                         end);
                 SSEMessage.id := Some (eventLastEventId event);
                 SSEMessage.retry := None |}).

(** The listeners for the events named [ping], [error], [done] and
    [cancelled]. *)
Definition onPingEvent : Method unit :=
  now <- Date_now ;;
  assign (set_lastHeartbeat now) ;;
  invoke onHeartbeat.

Definition handleError (error : Error.t) : Method unit :=
  invoke (onError error) ;;
  close false.

Definition onDoneEvent : Method unit := close false.

Definition onCancelledEvent : Method unit := close false.

(** [connect]: the handlers it installs are the definitions of this
    module. *)
Definition connect : Method unit :=
  destroyed <- gets (fun w => isDestroyed (this w)) ;;
  if destroyed then ret tt
  else
    invoke (onConnectionStatus connecting) ;;
    base <- gets (fun w => url (this w)) ;;
    last <- gets (fun w => lastEventId (this w)) ;;
    let url :=
      match last with
      | Some ((_ :: _) as i) =>
          base ++ (if 0 <=? indexOf base (lit "?") then lit "&" else lit "?")
               ++ lit "lastEventId=" ++ i
      | _ => base
      end in
    h <- windowCall Browser.fresh ;;
    modify (fun w => mkWorld (this w) (browser w) (sources w ++ [(h, url)])) ;;
    assign (set_es (Some h)).

(** [this.es.onopen] *)
Definition onopen : Method unit :=
  invoke (onConnectionStatus connected) ;;
  assign (set_reconnectAttempts 0%nat) ;;
  initial <- gets (fun w => Options.initialBackoffMs (options (this w))) ;;
  assign (set_currentBackoffMs initial) ;;
  now <- Date_now ;;
  assign (set_lastHeartbeat now) ;;
  startHeartbeatMonitoring.

Definition scheduleAt (i : nat) : Z := nth i BACKOFF_SCHEDULE 0.

(** [handleConnectionError], called by [this.es.onerror] and by the
    heartbeat check. The handle of its timer is not kept. *)
Definition handleConnectionError : Method unit :=
  destroyed <- gets (fun w => isDestroyed (this w)) ;;
  source <- gets (fun w => es (this w)) ;;
  match destroyed, source with
  | false, Some _ =>
      cleanup false ;;
      attempts <- gets (fun w => reconnectAttempts (this w)) ;;
      maxAttempts <- gets (fun w => Options.maxReconnectAttempts (options (this w))) ;;
      if maxAttempts <=? Z.of_nat attempts then
        invoke (onConnectionStatus disconnected) ;;
        invoke (onError (newError (lit "Max reconnection attempts reached")))
      else
        maxBackoffMs <- gets (fun w => Options.maxBackoffMs (options (this w))) ;;
        let backoffIndex := Nat.min attempts (length BACKOFF_SCHEDULE - 1) in
        let baseBackoff := scheduleAt backoffIndex in
        r <- windowCall Browser.Math_random ;;
        let jitter := Double.mul r 500 in
        let delay :=
          Double.min (Double.add (inject_Z baseBackoff) jitter)
            (inject_Z maxBackoffMs) in
        invoke (onConnectionStatus reconnecting) ;;
        assign (set_reconnectAttempts (S attempts)) ;;
        _ <- windowCall (Browser.setTimeout delay) ;;
        ret tt
  | _, _ => ret tt
  end.

(** The callbacks handed to [setTimeout] and [window.setInterval]. *)
Definition reconnectNow : Method unit :=
  destroyed <- gets (fun w => isDestroyed (this w)) ;;
  if destroyed then ret tt else connect.

Definition heartbeatCheck : Method unit :=
  now <- Date_now ;;
  last <- gets (fun w => lastHeartbeat (this w)) ;;
  timeout <- gets (fun w => Options.heartbeatTimeoutMs (options (this w))) ;;
  let timeSinceLastHeartbeat := now - last in
  if timeout <? timeSinceLastHeartbeat then handleConnectionError else ret tt.

End ResilientSSE.

(* ===================================================================== *)
(** * [processSSEStream]: the parser of the chat hook *)
(* ===================================================================== *)

Module Hook.

(** One invocation of a handler. *)
Inductive HandlerCall (Chunk : Type) : Type :=
| onChunk (chunk : Chunk)
| onStreamError (error : Error.t)     (* handlers.onError *)
| onPing.                             (* handlers.onHeartbeat *)
Arguments onChunk {Chunk}.
Arguments onStreamError {Chunk}.
Arguments onPing {Chunk}.

(** What [await reader.read()] gives before the body is done: a chunk,
    with what [handlers.signal?.aborted] reads at that moment, or a
    rejection. *)
Inductive ReadResult : Type :=
| value (aborted : bool) (bytes : list Z)
| rejected (error : Error.t).

(** How the inner [while] loop is left: by running out of frames or by
    [break] (the outer loop reads on), or by [return]. *)
Inductive Flow : Type :=
| readOn
| returned.

(** The fields of one frame: [event] starts as ["message"] and [data] as
    the empty string; each [data:] line appends its trimmed value. *)
Definition parseLine (fields : jsstring * jsstring) (line : jsstring)
  : jsstring * jsstring :=
  let '(event, data) := fields in
  if startsWith line (lit "event:") then (trim (slice line 6 None), data)
  else if startsWith line (lit "data:") then (event, data ++ trim (slice line 5 None))
  else (event, data).

Definition parseFrame (frame : jsstring) : jsstring * jsstring :=
  fold_left parseLine (split LF frame) (lit "message", []).

Section ProcessSSEStream.

(** The chunk objects and the platform's [JSON.parse] ([None]: it throws);
    [chunk_type] reads the property of that name. The handlers are taken
    to return normally. *)
Variable ChatStreamChunk : Type.
Variable JSON_parse : jsstring -> option ChatStreamChunk.
Variable chunk_type : ChatStreamChunk -> jsstring.

(** [while ((idx = buf.indexOf("\n\n")) >= 0) { ... }]. Every turn
    shortens [buf], so the loop is run with more turns than [buf] has code
    units. *)
Fixpoint frames (turns : nat) (buf : jsstring)
  : jsstring * list (HandlerCall ChatStreamChunk) * Flow :=
  match turns with
  | O => (buf, [], readOn)
  | S turns =>
      let idx := indexOf buf (lit "\n\n") in
      if 0 <=? idx then
        let frame := slice buf 0 (Some idx) in
        let buf := slice buf (idx + 2) None in
        let '(event, data) := parseFrame frame in
        if eqb event (lit "ping") then
          let '(buf', calls, flow) := frames turns buf in
          (buf', onPing :: calls, flow)
        else if eqb data (lit "[DONE]") then (buf, [], returned)
        else if eqb data [] || eqb data (lit "{}") then frames turns buf
        else
          match JSON_parse data with
          | Some chunk =>
              if eqb (chunk_type chunk) (lit "done")
              then (buf, [onChunk chunk], readOn)          (* break *)
              else
                let '(buf', calls, flow) := frames turns buf in
                (buf', onChunk chunk :: calls, flow)
          | None => frames turns buf                      (* logged *)
          end
      else (buf, [], readOn)
  end.

(** [for (;;) { ... }] over the results of [reader.read()]; the body is
    done when they are used up. *)
Fixpoint readLoop (decoder : TextDecoder.t) (buf : jsstring)
    (reads : list ReadResult) : list (HandlerCall ChatStreamChunk) :=
  match reads with
  | [] => []
  | rejected error :: _ =>
      if eqb (Error.name error) (lit "AbortError") then []
      else [onStreamError error]
  | value aborted bytes :: rest =>
      if aborted then []
      else
        let '(decoder, text) := TextDecoder.decode decoder bytes in
        let buf := buf ++ text in
        let '(buf, calls, flow) := frames (S (length buf)) buf in
        match flow with
        | returned => calls
        | readOn => calls ++ readLoop decoder buf rest
        end
  end.

Definition processSSEStream (reads : list ReadResult)
  : list (HandlerCall ChatStreamChunk) :=
  readLoop TextDecoder.fresh [] reads.

End ProcessSSEStream.

End Hook.

(* ===================================================================== *)
(** * Properties of the string operations *)
(* ===================================================================== *)

Lemma eqb_eq (a b : jsstring) : eqb a b = true <-> a = b.
Proof.
  revert b. induction a as [|x a IH]; intros [|y b]; cbn [eqb];
    try (split; [discriminate | discriminate]); [tauto|].
  rewrite andb_true_iff, Z.eqb_eq, IH. split; [intros [-> ->]; reflexivity|].
  intro E. injection E as -> ->. auto.
Qed.


Lemma eqb_neq (a b : jsstring) : a <> b -> eqb a b = false.
Proof.
  intro H. destruct (eqb a b) eqn:E; [apply eqb_eq in E; contradiction | reflexivity].
Qed.

(** ** [split] *)

Lemma split_nonempty (sep : Z) (s : jsstring) : split sep s <> [].
Proof.
  destruct s as [|c s]; simpl; [discriminate|].
  destruct (c =? sep); [discriminate|].
  destruct (split sep s); discriminate.
Qed.

Lemma split_cons_sep (sep : Z) (s : jsstring) :
  split sep (sep :: s) = [] :: split sep s.
Proof. simpl. now rewrite Z.eqb_refl. Qed.

Lemma split_cons_other (sep c : Z) (s : jsstring) :
  c <> sep ->
  split sep (c :: s) =
  (c :: hd [] (split sep s)) :: tl (split sep s).
Proof.
  intro H. simpl. apply Z.eqb_neq in H. rewrite H.
  pose proof (split_nonempty sep s).
  destruct (split sep s); [contradiction | reflexivity].
Qed.

Lemma split_no_sep (sep : Z) (s : jsstring) :
  ~ In sep s -> split sep s = [s].
Proof.
  induction s as [|c s IH]; intro H; [reflexivity|].
  rewrite split_cons_other by (intro E; apply H; left; exact E).
  rewrite IH by (intro E; apply H; right; exact E). reflexivity.
Qed.

Lemma last_split_no_sep (sep : Z) (s : jsstring) :
  ~ In sep (last (split sep s) []).
Proof.
  induction s as [|c s IH]; [intros []|].
  pose proof (split_nonempty sep s) as Hs.
  destruct (Z.eq_dec c sep) as [->|Hc].
  - rewrite split_cons_sep.
    destruct (split sep s) as [|q qs]; [contradiction | exact IH].
  - rewrite split_cons_other by assumption.
    destruct (split sep s) as [|q [|q' qs]]; [contradiction | |exact IH].
    cbn [hd tl last] in *. intros [E|E]; [congruence | contradiction].
Qed.

(** A text that arrives in two parts: the last piece of the first part is
    continued by the first piece of the second. *)
Definition glue (open : jsstring) (pieces : list jsstring) : list jsstring :=
  match pieces with
  | u :: us => (open ++ u) :: us
  | [] => []
  end.

Lemma split_app (sep : Z) (s t : jsstring) :
  split sep (s ++ t) =
  removelast (split sep s) ++ glue (last (split sep s) []) (split sep t).
Proof.
  induction s as [|c s IH].
  - cbn. destruct (split sep t); reflexivity.
  - pose proof (split_nonempty sep s) as Hs.
    pose proof (split_nonempty sep t) as Ht.
    change ((c :: s) ++ t) with (c :: (s ++ t)).
    destruct (Z.eq_dec c sep) as [->|Hc].
    + rewrite !split_cons_sep, IH.
      destruct (split sep s) as [|q qs]; [contradiction | reflexivity].
    + rewrite !split_cons_other by assumption. rewrite IH.
      destruct (split sep s) as [|q [|q' qs]]; [contradiction | |reflexivity].
      destruct (split sep t) as [|u us]; [contradiction | reflexivity].
Qed.

Lemma last_app_nonempty {A : Type} (l l' : list A) (d : A) :
  l' <> [] -> last (l ++ l') d = last l' d.
Proof.
  intro H. induction l as [|x l IH]; [reflexivity|].
  cbn [app last]. destruct (l ++ l') eqn:E; [|exact IH].
  apply app_eq_nil in E. destruct E; contradiction.
Qed.

Lemma removelast_app_glue (open : jsstring) (ls pieces : list jsstring) :
  pieces <> [] ->
  removelast (ls ++ glue open pieces) = ls ++ removelast (glue open pieces)
  /\ last (ls ++ glue open pieces) [] = last (glue open pieces) [].
Proof.
  intro H. destruct pieces as [|u us]; [contradiction|].
  split; [apply removelast_app; discriminate|].
  apply last_app_nonempty; discriminate.
Qed.

(** The complete pieces, and the piece left open, of a text that arrives
    in two parts. *)
Lemma split_app_complete (sep : Z) (s t : jsstring) :
  removelast (split sep (s ++ t)) =
  removelast (split sep s) ++ removelast (split sep (last (split sep s) [] ++ t))
  /\ last (split sep (s ++ t)) [] = last (split sep (last (split sep s) [] ++ t)) [].
Proof.
  pose proof (split_nonempty sep t) as Ht.
  rewrite (split_app sep s t).
  rewrite (split_app sep (last (split sep s) []) t).
  rewrite (split_no_sep sep (last (split sep s) [])) by apply last_split_no_sep.
  cbn [removelast last app].
  destruct (removelast_app_glue (last (split sep s) []) (removelast (split sep s))
              (split sep t) Ht) as [H1 H2].
  split; assumption.
Qed.

(** ** The streaming decoder *)

Lemma decode_app (d : TextDecoder.t) (b1 b2 : list Z) :
  TextDecoder.decode d (b1 ++ b2) =
  let '(d1, s1) := TextDecoder.decode d b1 in
  let '(d2, s2) := TextDecoder.decode d1 b2 in
  (d2, s1 ++ s2).
Proof.
  revert d. induction b1 as [|b b1 IH]; intro d.
  - cbn. destruct (TextDecoder.decode d b2); reflexivity.
  - cbn [app TextDecoder.decode].
    destruct (TextDecoder.decodeByte d b) as [d1 s1].
    rewrite IH.
    destruct (TextDecoder.decode d1 b1) as [d2 s2].
    destruct (TextDecoder.decode d2 b2) as [d3 s3].
    now rewrite app_assoc.
Qed.

(* ===================================================================== *)
(** * The parser of [FetchSSEClient] *)
(* ===================================================================== *)

Module FetchSSEFacts.
Import FetchSSE.

Ltac step_method :=
  unfold Date_now, assign, window, windowCall;
  unfold bind, ret, gets, modify, invoke, state, trace; cbn [fst snd].

(** The world with another pending event, and with the heartbeat
    refreshed. *)
Definition withEvent (ev : ParsedSSEEvent.t) (w : World) : World :=
  mkWorld (set_currentEvent ev (this w)) (browser w) (calls w).

Definition touched (w : World) : World :=
  mkWorld (set_lastHeartbeat (Browser.now (browser w)) (this w))
          (browser w) (calls w).

(** What a line does to the pending event and which callbacks it invokes,
    read off [processSSELine] in a world that holds this pending event. *)
Definition probe (ev : ParsedSSEEvent.t) : World :=
  withEvent ev (start [] (FetchSSEOptions.mk [] None None None None None) 0
                  (fun _ => 0%Q)).

Definition lineEffect (line : jsstring) (ev : ParsedSSEEvent.t)
  : ParsedSSEEvent.t * list Callback :=
  let r := processSSELine line (probe ev) in
  (currentEvent (this (state r)), trace r).

Lemma withEvent_current (w : World) : withEvent (currentEvent (this w)) w = w.
Proof. destruct w as [[] ? ?]; reflexivity. Qed.

Lemma processSSELine_effect (line : jsstring) (w : World) :
  processSSELine line w =
  (tt, withEvent (fst (lineEffect line (currentEvent (this w)))) (touched w),
   snd (lineEffect line (currentEvent (this w)))).
Proof.
  unfold lineEffect, processSSELine.
  destruct w as [c b k]. destruct c as [u o a n i l h r ev].
  destruct (startsWith line (lit ":")); [reflexivity|].
  destruct (eqb (trim line) []).
  { unfold dispatchEvent. step_method. cbn.
    destruct (ParsedSSEEvent.data ev); reflexivity. }
  destruct (startsWith line (lit "data:") || startsWith line (lit "event:")
            || startsWith line (lit "id:") || startsWith line (lit "retry:"));
    [|reflexivity].
  unfold parseSSEEvent.
  destruct (indexOf line (lit ":") =? -1); [reflexivity|].
  set (field := slice line 0 (Some (indexOf line (lit ":")))).
  set (v := trim (slice line (indexOf line (lit ":") + 1) None)).
  destruct (eqb field (lit "data")); [reflexivity|].
  destruct (eqb field (lit "event")); [reflexivity|].
  destruct (eqb field (lit "id")); [reflexivity|].
  destruct (eqb field (lit "retry")); reflexivity.
Qed.

(** The same for a run of lines, and for the chunks of a stream. *)
Fixpoint linesEffect (lines : list jsstring) (ev : ParsedSSEEvent.t)
  : ParsedSSEEvent.t * list Callback :=
  match lines with
  | [] => (ev, [])
  | line :: rest =>
      let '(ev1, t1) := lineEffect line ev in
      let '(ev2, t2) := linesEffect rest ev1 in
      (ev2, t1 ++ t2)
  end.

Fixpoint streamEffect (decoder : TextDecoder.t) (buffer : jsstring)
    (ev : ParsedSSEEvent.t) (values : list (list Z))
  : TextDecoder.t * jsstring * ParsedSSEEvent.t * list Callback :=
  match values with
  | [] => (decoder, buffer, ev, [])
  | value :: rest =>
      let '(decoder1, text) := TextDecoder.decode decoder value in
      let lines := split LF (buffer ++ text) in
      let '(ev1, t1) := linesEffect (removelast lines) ev in
      let '(decoder2, buffer2, ev2, t2) :=
        streamEffect decoder1 (last lines []) ev1 rest in
      (decoder2, buffer2, ev2, t1 ++ t2)
  end.

(** What is observed of a run of [processStream]: the decoder and buffer
    it ends with, the pending event, and the callbacks invoked. *)
Definition observed (r : TextDecoder.t * jsstring * World * list Callback)
  : TextDecoder.t * jsstring * ParsedSSEEvent.t * list Callback :=
  (fst (fst (fst r)), snd (fst (fst r)), currentEvent (this (state r)), trace r).

Lemma linesEffect_app (l1 l2 : list jsstring) (ev : ParsedSSEEvent.t) :
  linesEffect (l1 ++ l2) ev =
  let '(ev1, t1) := linesEffect l1 ev in
  let '(ev2, t2) := linesEffect l2 ev1 in
  (ev2, t1 ++ t2).
Proof.
  revert ev. induction l1 as [|line l1 IH]; intro ev.
  - cbn. destruct (linesEffect l2 ev); reflexivity.
  - cbn [app linesEffect]. destruct (lineEffect line ev) as [ev1 t1].
    rewrite IH. destruct (linesEffect l1 ev1) as [ev2 t2].
    destruct (linesEffect l2 ev2) as [ev3 t3]. now rewrite app_assoc.
Qed.

Lemma forEach_processSSELine (lines : list jsstring) (w : World) :
  let r := forEach lines processSSELine w in
  currentEvent (this (state r)) = fst (linesEffect lines (currentEvent (this w)))
  /\ trace r = snd (linesEffect lines (currentEvent (this w)))
  /\ browser (state r) = browser w.
Proof.
  revert w. induction lines as [|line lines IH]; intro w; [cbn; auto|].
  cbn [forEach linesEffect]. unfold bind.
  rewrite processSSELine_effect.
  destruct (lineEffect line (currentEvent (this w))) as [ev1 t1]. cbn [fst snd].
  specialize (IH (withEvent ev1 (touched w))). cbn zeta in IH.
  destruct (forEach lines processSSELine (withEvent ev1 (touched w)))
    as [[u w2] t2].
  unfold state, trace in *. cbn [fst snd] in *.
  change (currentEvent (this (withEvent ev1 (touched w)))) with ev1 in IH.
  destruct (linesEffect lines ev1) as [ev2 t2'].
  cbn [fst snd] in *. destruct IH as (-> & -> & ->). auto.
Qed.

Lemma processChunk_effect (decoder : TextDecoder.t) (buffer : jsstring)
    (value : list Z) (w : World) :
  let r := processChunk decoder buffer value w in
  let lines := split LF (buffer ++ snd (TextDecoder.decode decoder value)) in
  fst (fst r) = (fst (TextDecoder.decode decoder value), last lines [])
  /\ currentEvent (this (state r)) =
     fst (linesEffect (removelast lines) (currentEvent (this w)))
  /\ trace r = snd (linesEffect (removelast lines) (currentEvent (this w)))
  /\ browser (state r) = browser w.
Proof.
  unfold processChunk.
  destruct (TextDecoder.decode decoder value) as [d1 text]. cbn [fst snd].
  set (lines := split LF (buffer ++ text)).
  pose proof (forEach_processSSELine (removelast lines) w) as H. cbn zeta in H.
  unfold bind, ret.
  destruct (forEach (removelast lines) processSSELine w) as [[u w1] t1].
  unfold state, trace in *. cbn [fst snd] in *.
  destruct H as (H1 & H2 & H3). rewrite app_nil_r. auto.
Qed.

Lemma processStream_effect (reads : list (Z * list Z)) :
  forall decoder buffer w,
    observed (processStream decoder buffer reads w) =
    streamEffect decoder buffer (currentEvent (this w)) (map snd reads).
Proof.
  induction reads as [|[waited value] reads IH]; intros decoder buffer w;
    [reflexivity|].
  cbn [processStream map snd streamEffect].
  unfold bind at 1. unfold window at 1, modify at 1.
  set (w0 := mkWorld (this w) (Browser.elapse waited (browser w)) (calls w)).
  unfold bind.
  pose proof (processChunk_effect decoder buffer value w0) as H. cbn zeta in H.
  destruct (processChunk decoder buffer value w0) as [[[d1 b1] w1] t1].
  unfold state, trace in H. cbn [fst snd] in H.
  destruct H as (H1 & H2 & H3 & _).
  change (currentEvent (this w0)) with (currentEvent (this w)) in *.
  destruct (TextDecoder.decode decoder value) as [d1' text].
  cbn [fst snd] in *. injection H1 as -> ->.
  destruct (linesEffect (removelast (split LF (buffer ++ text)))
              (currentEvent (this w))) as [ev1 t1'].
  cbn [fst snd] in *. subst t1.
  specialize (IH d1' (last (split LF (buffer ++ text)) []) w1).
  rewrite H2 in IH. unfold observed, state, trace in *.
  destruct (processStream d1' (last (split LF (buffer ++ text)) []) reads w1)
    as [[[d2 b2] w2] t2].
  cbn [fst snd] in *.
  destruct (streamEffect d1' (last (split LF (buffer ++ text)) []) ev1
              (map snd reads)) as [[[d3 b3] ev3] t3].
  injection IH as -> -> -> ->. reflexivity.
Qed.

(** Two chunks in a row do what their concatenation does. *)
Lemma streamEffect_merge (decoder : TextDecoder.t) (buffer : jsstring)
    (ev : ParsedSSEEvent.t) (v1 v2 : list Z) (rest : list (list Z)) :
  streamEffect decoder buffer ev (v1 :: v2 :: rest) =
  streamEffect decoder buffer ev ((v1 ++ v2) :: rest).
Proof.
  cbn [streamEffect]. rewrite decode_app.
  destruct (TextDecoder.decode decoder v1) as [d1 s1].
  destruct (TextDecoder.decode d1 v2) as [d2 s2].
  rewrite (app_assoc buffer s1 s2).
  destruct (split_app_complete LF (buffer ++ s1) s2) as [Hc Hl].
  rewrite Hc, Hl, linesEffect_app.
  destruct (linesEffect (removelast (split LF (buffer ++ s1))) ev) as [ev1 t1].
  destruct (linesEffect
              (removelast (split LF (last (split LF (buffer ++ s1)) [] ++ s2)))
              ev1) as [ev2 t2].
  destruct (streamEffect d2
              (last (split LF (last (split LF (buffer ++ s1)) [] ++ s2)) [])
              ev2 rest) as [[[d3 b3] ev3] t3].
  now rewrite app_assoc.
Qed.

Lemma streamEffect_concat (values : list (list Z)) :
  forall decoder buffer ev v,
    streamEffect decoder buffer ev (v :: values) =
    streamEffect decoder buffer ev [v ++ concat values].
Proof.
  induction values as [|v' values IH]; intros decoder buffer ev v.
  - cbn [concat]. now rewrite app_nil_r.
  - rewrite streamEffect_merge, IH. cbn [concat]. now rewrite app_assoc.
Qed.

End FetchSSEFacts.

(* ===================================================================== *)
(** * White space *)
(* ===================================================================== *)

Lemma trimStart_blank (s : jsstring) :
  forallb isWhiteSpace s = true -> trimStart s = [].
Proof.
  induction s as [|c s IH]; [reflexivity|].
  cbn [forallb trimStart]. intro H. apply andb_prop in H as [Hc Hs].
  rewrite Hc. auto.
Qed.

Lemma trim_blank (s : jsstring) :
  forallb isWhiteSpace s = true -> trim s = [].
Proof.
  intro H. unfold trim, trimEnd. now rewrite (trimStart_blank s H).
Qed.

Lemma trimStart_suffix (s : jsstring) :
  exists pre, s = pre ++ trimStart s /\ forallb isWhiteSpace pre = true.
Proof.
  induction s as [|c s (pre & E & W)]; [exists []; auto|].
  cbn [trimStart]. destruct (isWhiteSpace c) eqn:Hc.
  - exists (c :: pre). cbn [app forallb]. rewrite Hc, W. split; [congruence | reflexivity].
  - exists []. auto.
Qed.

Lemma trimStart_head (s : jsstring) :
  match trimStart s with
  | c :: _ => isWhiteSpace c = false
  | [] => True
  end.
Proof.
  induction s as [|c s IH]; [exact I|].
  cbn [trimStart]. destruct (isWhiteSpace c) eqn:Hc; [exact IH | exact Hc].
Qed.


Lemma forallb_rev {A : Type} (f : A -> bool) (l : list A) :
  forallb f (rev l) = forallb f l.
Proof.
  induction l as [|x l IH]; [reflexivity|].
  cbn [rev forallb]. rewrite forallb_app, IH. cbn. rewrite andb_true_r.
  apply andb_comm.
Qed.

(** [trim] cuts white space off both ends and nothing else: the value is
    a run of white space, the trimmed value, and a run of white space, and
    the trimmed value neither starts nor ends with white space. *)
Lemma trim_spec (s : jsstring) :
  exists pre post,
    s = pre ++ trim s ++ post
    /\ forallb isWhiteSpace pre = true
    /\ forallb isWhiteSpace post = true
    /\ match trim s with c :: _ => isWhiteSpace c = false | [] => True end
    /\ match rev (trim s) with c :: _ => isWhiteSpace c = false | [] => True end.
Proof.
  destruct (trimStart_suffix s) as (pre & E1 & W1).
  destruct (trimStart_suffix (rev (trimStart s))) as (q & E2 & W2).
  pose proof (trimStart_head s) as Hh.
  pose proof (trimStart_head (rev (trimStart s))) as Ht.
  unfold trim, trimEnd.
  set (a := trimStart s) in *.
  set (b := trimStart (rev a)) in *.
  assert (Ea : a = rev b ++ rev q).
  { rewrite <- (rev_involutive a). rewrite E2. apply rev_app_distr. }
  exists pre, (rev q). repeat split.
  - now rewrite <- Ea.
  - exact W1.
  - now rewrite forallb_rev.
  - destruct (rev b) as [|x xs]; [exact I|].
    rewrite Ea in Hh. exact Hh.
  - now rewrite rev_involutive.
Qed.

Lemma trim_nil_blank (s : jsstring) :
  trim s = [] -> forallb isWhiteSpace s = true.
Proof.
  intro H. destruct (trim_spec s) as (pre & post & E & W1 & W2 & _).
  rewrite H in E. cbn [app] in E. rewrite E, forallb_app, W1, W2. reflexivity.
Qed.

(** ** [startsWith], [indexOf] and [slice] at the first colon *)

Lemma startsWith_app (p r : jsstring) : startsWith (p ++ r) p = true.
Proof.
  induction p as [|x p IH]; [reflexivity|].
  cbn. now rewrite Z.eqb_refl, IH.
Qed.

Lemma startsWith_prefix (s p : jsstring) :
  startsWith s p = true -> exists r, s = p ++ r.
Proof.
  revert s. induction p as [|x p IH]; intros s H; [exists s; reflexivity|].
  destruct s as [|y s]; [discriminate|].
  cbn in H. apply andb_prop in H as [Hxy Hp]. apply Z.eqb_eq in Hxy. subst y.
  destruct (IH s Hp) as [r ->]. now exists r.
Qed.

Lemma startsWith_colon_free (s p : jsstring) :
  ~ In COLON s -> In COLON p -> startsWith s p = false.
Proof.
  intros Hs Hp. destruct (startsWith s p) eqn:E; [|reflexivity].
  destruct (startsWith_prefix s p E) as [r ->].
  exfalso. apply Hs, in_or_app. now left.
Qed.


Lemma indexOf_colon_absent (s : jsstring) :
  ~ In COLON s -> indexOf s (lit ":") = -1.
Proof.
  induction s as [|c s IH]; intro H; [reflexivity|].
  cbn [indexOf].
  rewrite (startsWith_colon_free (c :: s) (lit ":") H) by (now left).
  rewrite IH by (intro E; apply H; now right). reflexivity.
Qed.

Lemma indexOf_first_colon (p v : jsstring) :
  ~ In COLON p -> indexOf (p ++ COLON :: v) (lit ":") = Z.of_nat (length p).
Proof.
  induction p as [|c p IH]; intro H.
  - reflexivity.
  - cbn [app indexOf].
    assert (Hc : c <> COLON) by (intro E; apply H; now left).
    replace (startsWith (c :: p ++ COLON :: v) (lit ":")) with false.
    2:{ unfold COLON in Hc. cbn [lit Ascii.eqb Bool.eqb unit_of_ascii N_of_ascii
                                   N_of_digits Z.of_N N.add N.mul Pos.add Pos.mul
                                   Pos.succ startsWith].
        destruct (58 =? c) eqn:E; [apply Z.eqb_eq in E; congruence | reflexivity]. }
    rewrite IH by (intro E; apply H; now right).
    destruct (Z.of_nat (length p) <? 0) eqn:E; [apply Z.ltb_lt in E; lia|].
    cbn [length]. lia.
Qed.

Lemma slice_upto (s r : jsstring) :
  slice (s ++ r) 0 (Some (Z.of_nat (length s))) = s.
Proof.
  unfold slice, clampIndex. cbn [Z.ltb Z.compare].
  rewrite length_app, Nat2Z.inj_add.
  destruct (Z.of_nat (length s) <? 0) eqn:E; [apply Z.ltb_lt in E; lia|].
  rewrite Z.min_l by lia. rewrite Z.min_l by lia.
  rewrite Z.sub_0_r, Nat2Z.id. cbn [Z.to_nat skipn].
  rewrite firstn_app, firstn_all, Nat.sub_diag. cbn. apply app_nil_r.
Qed.

Lemma slice_from (s r : jsstring) :
  slice (s ++ r) (Z.of_nat (length s)) None = r.
Proof.
  unfold slice, clampIndex.
  rewrite length_app, Nat2Z.inj_add.
  destruct (Z.of_nat (length s) <? 0) eqn:E; [apply Z.ltb_lt in E; lia|].
  rewrite Z.min_l by lia.
  replace (Z.of_nat (length s) + Z.of_nat (length r) - Z.of_nat (length s))
    with (Z.of_nat (length r)) by lia.
  rewrite !Nat2Z.id, skipn_app, skipn_all, Nat.sub_diag. cbn [app skipn].
  apply firstn_all.
Qed.

(** A line cut at its first colon. *)
Lemma cut_at_colon (p v : jsstring) :
  ~ In COLON p ->
  let line := p ++ COLON :: v in
  indexOf line (lit ":") = Z.of_nat (length p)
  /\ slice line 0 (Some (indexOf line (lit ":"))) = p
  /\ slice line (indexOf line (lit ":") + 1) None = v.
Proof.
  intros H line. subst line. rewrite (indexOf_first_colon p v H).
  split; [reflexivity|]. split; [apply slice_upto|].
  replace (Z.of_nat (length p) + 1) with (Z.of_nat (length (p ++ [COLON])))
    by (rewrite length_app; cbn; lia).
  change (p ++ COLON :: v) with (p ++ [COLON] ++ v). rewrite app_assoc.
  apply slice_from.
Qed.

Lemma stripFinalLF_app (s : jsstring) : stripFinalLF (s ++ lit "\n") = s.
Proof.
  induction s as [|c s IH]; [reflexivity|].
  cbn [app]. destruct (s ++ lit "\n") eqn:E.
  - destruct s; discriminate.
  - change (stripFinalLF (c :: z :: l)) with (c :: stripFinalLF (z :: l)).
    now rewrite IH.
Qed.

(* ===================================================================== *)
(** * Lines of the POST client, one kind at a time *)
(* ===================================================================== *)

Module Lines.
Import FetchSSE FetchSSEFacts.

Lemma trim_nonblank (c : Z) (s : jsstring) :
  isWhiteSpace c = false -> eqb (trim (c :: s)) [] = false.
Proof.
  intro H. apply eqb_neq. intro E. apply trim_nil_blank in E.
  cbn [forallb] in E. rewrite H in E. discriminate.
Qed.

(** The pending event after a field line. *)
Definition withField (field value : jsstring) (ev : ParsedSSEEvent.t)
  : ParsedSSEEvent.t :=
  if eqb field (lit "data") then
    ParsedSSEEvent.mk (ParsedSSEEvent.event ev)
      (Some (match ParsedSSEEvent.data ev with Some d => d | None => [] end
             ++ value ++ lit "\n"))
      (ParsedSSEEvent.id ev) (ParsedSSEEvent.retry ev)
  else if eqb field (lit "event") then
    ParsedSSEEvent.mk (Some value) (ParsedSSEEvent.data ev)
      (ParsedSSEEvent.id ev) (ParsedSSEEvent.retry ev)
  else if eqb field (lit "id") then
    ParsedSSEEvent.mk (ParsedSSEEvent.event ev) (ParsedSSEEvent.data ev)
      (Some value) (ParsedSSEEvent.retry ev)
  else if eqb field (lit "retry") then
    ParsedSSEEvent.mk (ParsedSSEEvent.event ev) (ParsedSSEEvent.data ev)
      (ParsedSSEEvent.id ev) (Some (parseInt10 value))
  else ev.

Lemma parseSSEEvent_cut (p v : jsstring) (w : World) :
  ~ In COLON p ->
  parseSSEEvent (p ++ COLON :: v) w =
  (tt, withEvent (withField p (trim v) (currentEvent (this w))) w, []).
Proof.
  intro H. unfold parseSSEEvent.
  destruct (cut_at_colon p v H) as (Hi & Hf & Hv).
  rewrite Hf, Hv, Hi.
  destruct (Z.of_nat (length p) =? -1) eqn:E; [apply Z.eqb_eq in E; lia|].
  unfold withField.
  destruct (eqb p (lit "data")); [reflexivity|].
  destruct (eqb p (lit "event")); [reflexivity|].
  destruct (eqb p (lit "id")); [reflexivity|].
  destruct (eqb p (lit "retry")); [reflexivity|].
  step_method. now rewrite withEvent_current.
Qed.

(** A line that starts with one of the four field names and a colon. *)
Lemma processSSELine_field (p v : jsstring) (w : World) :
  In p [lit "data"; lit "event"; lit "id"; lit "retry"] ->
  processSSELine (p ++ COLON :: v) w =
  (tt, withEvent (withField p (trim v) (currentEvent (this w))) (touched w), []).
Proof.
  intro Hp.
  assert (Hc : ~ In COLON p).
  { cbn in Hp. intuition (subst p; cbn in *; intuition discriminate). }
  pose proof (parseSSEEvent_cut p v (touched w) Hc) as Hparse.
  assert (H1 : startsWith (p ++ COLON :: v) (lit ":") = false).
  { cbn in Hp. intuition (subst p; reflexivity). }
  assert (H2 : eqb (trim (p ++ COLON :: v)) [] = false).
  { cbn in Hp.
    destruct Hp as [<-|[<-|[<-|[<-|[]]]]];
      refine (trim_nonblank _ _ _); reflexivity. }
  assert (H3 : startsWith (p ++ COLON :: v) (lit "data:")
               || startsWith (p ++ COLON :: v) (lit "event:")
               || startsWith (p ++ COLON :: v) (lit "id:")
               || startsWith (p ++ COLON :: v) (lit "retry:") = true).
  { cbn in Hp. intuition (subst p; reflexivity). }
  unfold processSSELine. rewrite H1, H2, H3.
  unfold bind, Date_now, gets, assign, modify. fold (touched w).
  rewrite Hparse. reflexivity.
Qed.

(** A comment line. *)
Lemma processSSELine_comment (rest : jsstring) (w : World) :
  processSSELine (COLON :: rest) w = (tt, touched w, [onHeartbeat]).
Proof. reflexivity. Qed.

(** A line of white space only. *)
Lemma processSSELine_blank (line : jsstring) (w : World) :
  forallb isWhiteSpace line = true ->
  processSSELine line w = dispatchEvent (touched w).
Proof.
  intro H. unfold processSSELine. step_method.
  replace (startsWith line (lit ":")) with false.
  2:{ destruct line as [|c line]; [reflexivity|].
      cbn [forallb] in H. apply andb_prop in H as [Hc _].
      change (startsWith (c :: line) (lit ":")) with ((58 =? c) && true).
      destruct (58 =? c) eqn:E; [|reflexivity].
      apply Z.eqb_eq in E. subst c. discriminate. }
  rewrite (trim_blank line H). fold (touched w).
  change (eqb [] []) with true. cbn iota.
  destruct (dispatchEvent (touched w)) as [[[] w'] t]. reflexivity.
Qed.

(** A line without a colon that is not white space only. *)
Lemma processSSELine_no_colon (line : jsstring) (w : World) :
  ~ In COLON line ->
  forallb isWhiteSpace line = false ->
  processSSELine line w = (tt, touched w, []).
Proof.
  intros Hc Hb. unfold processSSELine. step_method.
  rewrite (startsWith_colon_free line (lit ":") Hc) by (cbn; auto).
  replace (eqb (trim line) []) with false.
  2:{ symmetry. apply eqb_neq. intro E. apply trim_nil_blank in E. congruence. }
  rewrite !startsWith_colon_free by (assumption || (cbn; unfold COLON; auto 10)).
  reflexivity.
Qed.

End Lines.

(* ===================================================================== *)
(** * Scenarios *)
(* ===================================================================== *)

Module Scenario.

(** Options that leave every number to its default. *)
Definition defaults : FetchSSE.FetchSSEOptions.t :=
  FetchSSE.FetchSSEOptions.mk [] None None None None None.

(** A POST client just constructed; [Math.random] gives one half. *)
Definition client : FetchSSE.World :=
  FetchSSE.start (lit "/api/chat") defaults 0 (fun _ => 1 # 2).

Definition http200 : FetchSSE.Response :=
  FetchSSE.mkResponse true (lit "200") (lit "OK") true.

Definition networkError : Error.t :=
  {| Error.name := lit "TypeError"; Error.message := lit "Failed to fetch" |}.

End Scenario.

(* ===================================================================== *)
(** * The parser of the POST client: what holds of it *)
(* ===================================================================== *)

Import FetchSSE FetchSSEFacts.

(** C9. A line that begins with a colon produces no message, fires
    [onHeartbeat] and refreshes [lastHeartbeat], and leaves the pending
    event alone; the stream [": ping\n\n"] fed to a new client invokes
    [onHeartbeat] and never [onMessage], and [lastHeartbeat] is the time of
    its arrival. *)
Theorem comment_line_is_heartbeat_only :
  (forall (rest : jsstring) (w : World),
      let r := processSSELine (COLON :: rest) w in
      trace r = [onHeartbeat]
      /\ lastHeartbeat (this (state r)) = Browser.now (browser w)
      /\ currentEvent (this (state r)) = currentEvent (this w))
  /\ (forall (url : jsstring) (o : FetchSSEOptions.t) (clock : Z)
             (rnd : nat -> Q) (waited : Z),
      let r := processStream TextDecoder.fresh []
                 [(waited, utf8 ": ping\n\n")] (start url o clock rnd) in
      trace r = [onHeartbeat]
      /\ lastHeartbeat (this (state r)) = clock + waited).
Proof.
  split.
  - intros rest w r. subst r. rewrite Lines.processSSELine_comment.
    destruct w as [[] ? ?]. repeat split.
  - intros url o clock rnd waited. cbv zeta. split; reflexivity.
Qed.

(** C10. In the POST client a line of white space only is handled as the
    empty line is: the pending event is dispatched when it has a [data]
    field, and the pending event is emptied; the line is not parsed as a
    field. *)
Theorem whitespace_only_line_dispatches :
  forall (line : jsstring) (w : World),
    forallb isWhiteSpace line = true ->
    let ev := currentEvent (this w) in
    let r := processSSELine line w in
    r = processSSELine [] w
    /\ trace r =
       match ParsedSSEEvent.data ev with
       | Some d =>
           [onMessage {| SSEMessage.data := stripFinalLF d;
                         SSEMessage.event := ParsedSSEEvent.event ev;
                         SSEMessage.id := ParsedSSEEvent.id ev;
                         SSEMessage.retry := ParsedSSEEvent.retry ev |}]
       | None => []
       end
    /\ currentEvent (this (state r)) = ParsedSSEEvent.empty.
Proof.
  intros line w H ev r. subst r ev.
  rewrite (Lines.processSSELine_blank line w H).
  rewrite (Lines.processSSELine_blank [] w eq_refl).
  split; [reflexivity|].
  destruct w as [[u o a n i l h t ev] b k]. unfold dispatchEvent. step_method.
  cbn. destruct (ParsedSSEEvent.data ev); split; reflexivity.
Qed.

Lemma whitespace_only_line_dispatches_witness :
  let w := withEvent (ParsedSSEEvent.mk None (Some (lit "x\n")) None None)
             Scenario.client in
  forallb isWhiteSpace (lit " \t") = true
  /\ trace (processSSELine (lit " \t") w)
     = [onMessage {| SSEMessage.data := lit "x"; SSEMessage.event := None;
                     SSEMessage.id := None; SSEMessage.retry := None |}].
Proof.
  split; [reflexivity|].
  apply (whitespace_only_line_dispatches (lit " \t")
           (withEvent (ParsedSSEEvent.mk None (Some (lit "x\n")) None None)
              Scenario.client) eq_refl).
Defined.

(** C8, as the code has it. A line without a colon that is not white space
    only is ignored by the POST client: no callback is invoked and the
    pending event stays as it was; only [lastHeartbeat] is refreshed. The
    line does not reach [parseSSEEvent], which would ignore it as well. *)
Theorem line_without_colon_is_ignored :
  forall (line : jsstring) (w : World),
    ~ In COLON line ->
    forallb isWhiteSpace line = false ->
    let r := processSSELine line w in
    trace r = []
    /\ currentEvent (this (state r)) = currentEvent (this w)
    /\ state r = touched w
    /\ parseSSEEvent line w = (tt, w, []).
Proof.
  intros line w Hc Hb r. subst r.
  rewrite (Lines.processSSELine_no_colon line w Hc Hb).
  unfold parseSSEEvent. rewrite (indexOf_colon_absent line Hc).
  destruct w as [[] ? ?]. repeat split.
Qed.

Lemma line_without_colon_is_ignored_witness :
  trace (processSSELine (lit "data") Scenario.client) = []
  /\ currentEvent (this (state (processSSELine (lit "data") Scenario.client)))
     = ParsedSSEEvent.empty.
Proof.
  assert (Hc : ~ In COLON (lit "data")).
  { cbn. intuition discriminate. }
  destruct (line_without_colon_is_ignored (lit "data") Scenario.client Hc eq_refl)
    as (H1 & H2 & _).
  split; [exact H1 | exact H2].
Defined.

(** C8 as the specification states it fails: the stream ["data\n\n"] dispatches
    nothing, while a [data] field with an empty value (["data:\n\n"])
    dispatches a message with empty data. *)
Lemma line_data_without_colon_is_no_data_field :
  trace (processStream TextDecoder.fresh [] [(0, utf8 "data\n\n")] Scenario.client)
  = []
  /\ trace (processStream TextDecoder.fresh [] [(0, utf8 "data:\n\n")]
              Scenario.client)
     = [onMessage {| SSEMessage.data := []; SSEMessage.event := None;
                     SSEMessage.id := None; SSEMessage.retry := None |}].
Proof. split; reflexivity. Qed.

(** C7, as the code has it. The value of a field line is what follows the
    first colon with all white space cut off both ends
    ([String.prototype.trim]) and nothing else removed: in the POST client
    for the four fields, in the hook's parser for [data:] and [event:]
    lines. *)
Theorem field_value_is_trimmed :
  forall (v : jsstring),
    (forall (w : World),
        let ev := currentEvent (this w) in
        let after line := currentEvent (this (state (processSSELine line w))) in
        after (lit "data:" ++ v)
        = ParsedSSEEvent.mk (ParsedSSEEvent.event ev)
            (Some (match ParsedSSEEvent.data ev with Some d => d | None => [] end
                   ++ trim v ++ lit "\n"))
            (ParsedSSEEvent.id ev) (ParsedSSEEvent.retry ev)
        /\ after (lit "event:" ++ v)
           = ParsedSSEEvent.mk (Some (trim v)) (ParsedSSEEvent.data ev)
               (ParsedSSEEvent.id ev) (ParsedSSEEvent.retry ev)
        /\ after (lit "id:" ++ v)
           = ParsedSSEEvent.mk (ParsedSSEEvent.event ev) (ParsedSSEEvent.data ev)
               (Some (trim v)) (ParsedSSEEvent.retry ev)
        /\ after (lit "retry:" ++ v)
           = ParsedSSEEvent.mk (ParsedSSEEvent.event ev) (ParsedSSEEvent.data ev)
               (ParsedSSEEvent.id ev) (Some (parseInt10 (trim v))))
    /\ (forall (event data : jsstring),
           Hook.parseLine (event, data) (lit "data:" ++ v) = (event, data ++ trim v)
           /\ Hook.parseLine (event, data) (lit "event:" ++ v) = (trim v, data))
    /\ (exists pre post : jsstring,
           v = pre ++ trim v ++ post
           /\ forallb isWhiteSpace pre = true
           /\ forallb isWhiteSpace post = true
           /\ match trim v with c :: _ => isWhiteSpace c = false | [] => True end
           /\ match rev (trim v) with c :: _ => isWhiteSpace c = false | [] => True end).
Proof.
  intro v. split; [|split].
  - intros w ev after. subst after ev. cbv beta.
    change (lit "data:" ++ v) with (lit "data" ++ COLON :: v).
    change (lit "event:" ++ v) with (lit "event" ++ COLON :: v).
    change (lit "id:" ++ v) with (lit "id" ++ COLON :: v).
    change (lit "retry:" ++ v) with (lit "retry" ++ COLON :: v).
    rewrite !Lines.processSSELine_field by (cbn; auto).
    destruct w as [[] ? ?]. repeat split.
  - intros event data. unfold Hook.parseLine.
    rewrite !startsWith_app.
    replace (startsWith (lit "event:" ++ v) (lit "data:")) with false by reflexivity.
    replace (startsWith (lit "data:" ++ v) (lit "event:")) with false by reflexivity.
    change 5 with (Z.of_nat (length (lit "data:"))).
    change 6 with (Z.of_nat (length (lit "event:"))).
    rewrite !slice_from. split; reflexivity.
  - apply trim_spec.
Qed.

(** C7 as the specification states it fails: the line ["data:  x "] gives the value
    ["x"] in both parsers, not [" x "]. *)
Lemma value_loses_all_outer_white_space :
  trace (processStream TextDecoder.fresh [] [(0, utf8 "data:  x \n\n")]
           Scenario.client)
  = [onMessage {| SSEMessage.data := lit "x"; SSEMessage.event := None;
                  SSEMessage.id := None; SSEMessage.retry := None |}]
  /\ Hook.parseFrame (lit "data:  x ") = (lit "message", lit "x")
  /\ lit "x" <> lit " x ".
Proof. split; [reflexivity | split; [reflexivity | discriminate]]. Qed.

(** ** Several [data:] lines in one frame *)

(** [pieces.join(sep)] *)
Fixpoint join (sep : jsstring) (pieces : list jsstring) : jsstring :=
  match pieces with
  | [] => []
  | [p] => p
  | p :: rest => p ++ sep ++ join sep rest
  end.

Lemma concat_lines_join (v : jsstring) (vs : list jsstring) :
  concat (map (fun x => x ++ lit "\n") (v :: vs)) = join (lit "\n") (v :: vs) ++ lit "\n".
Proof.
  revert v. induction vs as [|v' vs IH]; intro v.
  - cbn [map concat join]. now rewrite app_nil_r.
  - change (concat (map (fun x => x ++ lit "\n") (v :: v' :: vs)))
      with ((v ++ lit "\n") ++ concat (map (fun x => x ++ lit "\n") (v' :: vs))).
    rewrite IH.
    change (join (lit "\n") (v :: v' :: vs))
      with (v ++ lit "\n" ++ join (lit "\n") (v' :: vs)).
    now rewrite <- !app_assoc.
Qed.

Lemma forEach_app {S A : Type} (l1 l2 : list A) (body : A -> M S unit) (s : S) :
  forEach (l1 ++ l2) body s = bind (forEach l1 body) (fun _ => forEach l2 body) s.
Proof.
  revert s. induction l1 as [|x l1 IH]; intro s.
  - cbn [app forEach]. unfold bind, ret.
    destruct (forEach l2 body s) as [[u s'] t]. reflexivity.
  - cbn [app forEach]. unfold bind in *.
    destruct (body x s) as [[u1 s1] t1]. rewrite IH.
    destruct (forEach l1 body s1) as [[u2 s2] t2].
    destruct (forEach l2 body s2) as [[u3 s3] t3].
    now rewrite app_assoc.
Qed.


(** A run of [data:] lines appends every trimmed value and a line feed to
    the pending data, and invokes nothing. *)
Lemma forEach_data_lines (values : list jsstring) :
  forall (v : jsstring) (w : World),
    let ev := currentEvent (this w) in
    forEach (map (fun x => lit "data:" ++ x) (v :: values)) processSSELine w =
    (tt,
     withEvent
       (ParsedSSEEvent.mk (ParsedSSEEvent.event ev)
          (Some (match ParsedSSEEvent.data ev with Some d => d | None => [] end
                 ++ concat (map (fun x => x ++ lit "\n") (map trim (v :: values)))))
          (ParsedSSEEvent.id ev) (ParsedSSEEvent.retry ev))
       (touched w),
     []).
Proof.
  induction values as [|v' values IH]; intros v w ev; subst ev.
  - cbn [map forEach concat]. unfold bind, ret.
    change (lit "data:" ++ v) with (lit "data" ++ COLON :: v).
    rewrite Lines.processSSELine_field by (cbn; auto).
    destruct w as [[] ? ?]. cbn. now rewrite !app_nil_r.
  - change (map (fun x => lit "data:" ++ x) (v :: v' :: values))
      with ((lit "data:" ++ v) :: map (fun x => lit "data:" ++ x) (v' :: values)).
    cbn [forEach]. unfold bind.
    change (lit "data:" ++ v) with (lit "data" ++ COLON :: v).
    rewrite Lines.processSSELine_field by (cbn; auto).
    rewrite IH. destruct w as [[u o a n i l h t ev] b k].
    destruct ev as [e d i' r]. cbn. unfold withEvent, touched. cbn.
    unfold set_currentEvent, set_lastHeartbeat. cbn.
    rewrite <- !app_assoc. reflexivity.
Qed.

(** The POST client joins the values of the [data:] lines of a frame with
    line feeds: a frame of one or more [data:] lines, read while no data is
    pending, dispatches one message whose data is the trimmed values
    joined by ["\n"]. *)
Theorem data_lines_are_joined_by_newline :
  forall (v : jsstring) (values : list jsstring) (w : World)
         (e i : option jsstring) (r : option number),
    let w0 := withEvent (ParsedSSEEvent.mk e None i r) w in
    let lines := map (fun x => lit "data:" ++ x) (v :: values) ++ [[]] in
    trace (forEach lines processSSELine w0) =
    [onMessage {| SSEMessage.data := join (lit "\n") (map trim (v :: values));
                  SSEMessage.event := e;
                  SSEMessage.id := i;
                  SSEMessage.retry := r |}].
Proof.
  intros v values w e i r w0 lines. subst lines.
  rewrite forEach_app. unfold bind at 1.
  rewrite forEach_data_lines. cbn [forEach]. unfold bind, ret.
  rewrite (Lines.processSSELine_blank [] _ eq_refl).
  subst w0. destruct w as [[] ? ?]. unfold dispatchEvent. step_method.
  cbn [withEvent touched this currentEvent set_currentEvent set_lastHeartbeat
       ParsedSSEEvent.data ParsedSSEEvent.event ParsedSSEEvent.id
       ParsedSSEEvent.retry app].
  change (map trim (v :: values)) with (trim v :: map trim values).
  rewrite concat_lines_join, stripFinalLF_app. reflexivity.
Qed.

(** ** Chunk boundaries *)

(** The POST client does not depend on how the body is cut into chunks:
    whatever the chunks and the times between them, [processStream] invokes
    the same callbacks in the same order, and ends with the same pending
    event, decoder and buffer, as when the whole body arrives as one
    chunk. *)
Theorem processStream_chunk_size_invariant :
  forall (reads : list (Z * list Z)) (waited : Z) (w : World),
    let in_chunks := processStream TextDecoder.fresh [] reads w in
    let at_once :=
      processStream TextDecoder.fresh [] [(waited, concat (map snd reads))] w in
    trace in_chunks = trace at_once
    /\ currentEvent (this (state in_chunks)) = currentEvent (this (state at_once))
    /\ fst (fst in_chunks) = fst (fst at_once).
Proof.
  intros reads waited w in_chunks at_once.
  assert (H : observed in_chunks = observed at_once).
  { subst in_chunks at_once. rewrite !processStream_effect.
    destruct reads as [|[t v] reads]; [reflexivity|].
    cbn [map snd concat]. apply streamEffect_concat. }
  unfold observed in H.
  destruct in_chunks as [[[d1 b1] w1] t1], at_once as [[[d2 b2] w2] t2].
  unfold state, trace in *. cbn [fst snd] in *.
  injection H as -> -> -> ->. auto.
Qed.

(** C3 on the POST client. The chunks ["data: hel"] and ["lo\n\n"]
    dispatch one message with data ["hello"] whose event type is
    undefined: [dispatchEvent] copies the pending event type as it is. The
    hook's parser starts a frame with the event type ["message"]. *)
Theorem unset_event_type_stays_undefined :
  (forall (url : jsstring) (o : FetchSSEOptions.t) (clock : Z) (rnd : nat -> Q)
          (t1 t2 : Z),
      trace (processStream TextDecoder.fresh []
               [(t1, utf8 "data: hel"); (t2, utf8 "lo\n\n")]
               (start url o clock rnd))
      = [onMessage {| SSEMessage.data := lit "hello"; SSEMessage.event := None;
                      SSEMessage.id := None; SSEMessage.retry := None |}])
  /\ (forall (w : World) (d : jsstring) (i : option jsstring) (r : option number),
      trace (dispatchEvent (withEvent (ParsedSSEEvent.mk None (Some d) i r) w))
      = [onMessage {| SSEMessage.data := stripFinalLF d; SSEMessage.event := None;
                      SSEMessage.id := i; SSEMessage.retry := r |}])
  /\ Hook.parseFrame (lit "data: hello") = (lit "message", lit "hello").
Proof.
  split; [|split].
  - intros url o clock rnd t1 t2.
    set (r := processStream _ _ _ _).
    change (trace r) with (snd (observed r)). subst r.
    rewrite processStream_effect. reflexivity.
  - intros w d i r. destruct w as [[] ? ?]. reflexivity.
  - reflexivity.
Qed.

(* ===================================================================== *)
(** * The parser of the hook: what holds of it *)
(* ===================================================================== *)

Section HookSteps.

Variable Chunk : Type.
Variable JSON_parse : jsstring -> option Chunk.
Variable chunk_type : Chunk -> jsstring.

Let frames := Hook.frames Chunk JSON_parse chunk_type.
Let readLoop := Hook.readLoop Chunk JSON_parse chunk_type.

(** One turn of the inner loop on a frame whose data is handed to
    [JSON.parse]. *)
Lemma frames_data_frame (turns : nat) (buf event data : jsstring) (idx : Z) :
  indexOf buf (lit "\n\n") = idx ->
  (0 <=? idx) = true ->
  Hook.parseFrame (slice buf 0 (Some idx)) = (event, data) ->
  eqb event (lit "ping") = false ->
  eqb data (lit "[DONE]") = false ->
  eqb data [] || eqb data (lit "{}") = false ->
  frames (S turns) buf =
  match JSON_parse data with
  | Some chunk =>
      if eqb (chunk_type chunk) (lit "done")
      then (slice buf (idx + 2) None, [Hook.onChunk chunk], Hook.readOn)
      else
        let '(buf', calls, flow) := frames turns (slice buf (idx + 2) None) in
        (buf', Hook.onChunk chunk :: calls, flow)
  | None => frames turns (slice buf (idx + 2) None)
  end.
Proof.
  intros Hi Hpos Hf Hping Hdone Hempty. unfold frames. cbn [Hook.frames].
  rewrite Hi, Hpos, Hf, Hping, Hdone, Hempty. reflexivity.
Qed.

(** The inner loop on a buffer without a complete frame. *)
Lemma frames_no_frame (turns : nat) (buf : jsstring) :
  (0 <=? indexOf buf (lit "\n\n")) = false ->
  frames turns buf = (buf, [], Hook.readOn).
Proof.
  intro H. unfold frames. destruct turns; [reflexivity|].
  cbn [Hook.frames]. now rewrite H.
Qed.

(** One turn of the outer loop on a chunk. *)
Lemma readLoop_value (decoder decoder' : TextDecoder.t)
    (buf text buf' : jsstring) (bytes : list Z)
    (calls : list (Hook.HandlerCall Chunk)) (flow : Hook.Flow)
    (rest : list Hook.ReadResult) :
  TextDecoder.decode decoder bytes = (decoder', text) ->
  frames (S (length (buf ++ text))) (buf ++ text) = (buf', calls, flow) ->
  readLoop decoder buf (Hook.value false bytes :: rest) =
  match flow with
  | Hook.returned => calls
  | Hook.readOn => calls ++ readLoop decoder' buf' rest
  end.
Proof.
  intros Hd Hf. unfold readLoop, frames in *. cbn [Hook.readLoop].
  rewrite Hd, Hf. reflexivity.
Qed.

End HookSteps.

(** C2 on the hook. [processSSEStream] appends the trimmed values of the
    [data:] lines with nothing between them: the frame
    ["data: hel\ndata: lo\n\n"] has the data ["hello"], not ["hel\nlo"],
    and that is the string handed to [JSON.parse]. *)
Theorem hook_data_lines_are_not_joined_by_newline :
  Hook.parseFrame (lit "data: hel\ndata: lo") = (lit "message", lit "hello")
  /\ lit "hello" <> lit "hel\nlo"
  /\ (forall (Chunk : Type) (JSON_parse : jsstring -> option Chunk)
             (chunk_type : Chunk -> jsstring),
      Hook.processSSEStream Chunk JSON_parse chunk_type
        [Hook.value false (utf8 "data: hel\ndata: lo\n\n")]
      = match JSON_parse (lit "hello") with
        | Some chunk => [Hook.onChunk chunk]
        | None => []
        end).
Proof.
  split; [reflexivity | split; [discriminate|]].
  intros Chunk JSON_parse chunk_type. unfold Hook.processSSEStream.
  erewrite readLoop_value; [|vm_compute; reflexivity|].
  2:{ erewrite frames_data_frame with (event := lit "message") (data := lit "hello");
        [|vm_compute; reflexivity ..].
      rewrite !frames_no_frame by (vm_compute; reflexivity).
      instantiate (1 := Hook.readOn).
      instantiate (1 := match JSON_parse (lit "hello") with
                        | Some chunk => [Hook.onChunk chunk]
                        | None => []
                        end).
      instantiate (1 := []).
      destruct (JSON_parse (lit "hello")) as [chunk|]; [|reflexivity].
      destruct (eqb (chunk_type chunk) (lit "done")); reflexivity. }
  cbn [Hook.readLoop]. apply app_nil_r.
Qed.


(** A [JSON.parse] that knows the two chunks of the scenario. *)
Definition parseTwoChunks (s : jsstring) : option bool :=
  if eqb s (lit "{\qchunk_type\q:\qdone\q}") then Some true
  else if eqb s (lit "{\qchunk_type\q:\qtoken\q}") then Some false
  else None.

Definition typeOfTwoChunks (chunk : bool) : jsstring :=
  if chunk then lit "done" else lit "token".


(* ===================================================================== *)
(** * Reconnection: the delay *)
(* ===================================================================== *)

(** ** Rounding to the nearest double *)

Section DoubleFacts.
Local Open Scope Q_scope.
Import Double.

Lemma pow2_pos (e : Z) : 0 < pow2 e.
Proof. apply Qpower_0_lt. reflexivity. Qed.

Lemma pow2_add (e f : Z) : pow2 (e + f) == pow2 e * pow2 f.
Proof. apply Qpower_plus. discriminate. Qed.

Lemma pow2_succ (e : Z) : pow2 (e + 1) == 2 * pow2 e.
Proof. rewrite pow2_add. change (pow2 1) with 2. ring. Qed.

Lemma pow2_le (e f : Z) : (e <= f)%Z -> pow2 e <= pow2 f.
Proof. intro H. apply Qpower_le_compat_l; [exact H|discriminate]. Qed.

Lemma pow2_lt_inv (e f : Z) : pow2 e < pow2 f -> (e < f)%Z.
Proof. intro H. apply (Qpower_lt_compat_l_inv 2); [exact H|reflexivity]. Qed.

Lemma pow2_Z (a : Z) : (0 <= a)%Z -> inject_Z (2 ^ a) == pow2 a.
Proof. intro H. apply Zpower_Qpower. exact H. Qed.

(** [exponent x] is the integer part of the binary logarithm. *)
Lemma exponent_spec (x : Q) :
  0 < x -> pow2 (exponent x) <= x /\ x < pow2 (exponent x + 1).
Proof.
  intro Hx. destruct x as [n d]. unfold exponent. cbn [Qnum Qden].
  assert (Hn : (0 < n)%Z) by (unfold Qlt in Hx; cbn in Hx; lia).
  set (a := Z.log2 n). set (b := Z.log2 (Zpos d)).
  assert (Ha0 : (0 <= a)%Z) by apply Z.log2_nonneg.
  assert (Hb0 : (0 <= b)%Z) by apply Z.log2_nonneg.
  destruct (Z.log2_spec n Hn) as [Ha1 Ha2]. fold a in Ha1, Ha2.
  destruct (Z.log2_spec (Zpos d) (Pos2Z.is_pos d)) as [Hb1 Hb2].
  fold b in Hb1, Hb2.
  assert (Qa1 : pow2 a <= inject_Z n).
  { rewrite <- pow2_Z by exact Ha0. now rewrite <- Zle_Qle. }
  assert (Qa2 : inject_Z n < pow2 (a + 1)).
  { rewrite <- pow2_Z by lia. rewrite <- Zlt_Qlt. exact Ha2. }
  assert (Qb1 : pow2 b <= inject_Z (Zpos d)).
  { rewrite <- pow2_Z by exact Hb0. now rewrite <- Zle_Qle. }
  assert (Qb2 : inject_Z (Zpos d) < pow2 (b + 1)).
  { rewrite <- pow2_Z by lia. rewrite <- Zlt_Qlt. exact Hb2. }
  assert (Hxd : (n # d) * inject_Z (Zpos d) == inject_Z n).
  { unfold Qeq, Qmult, inject_Z. cbn. lia. }
  assert (Hd : 0 < inject_Z (Zpos d)) by reflexivity.
  pose proof (pow2_pos (a - b)) as P0.
  pose proof (pow2_pos b) as Pb.
  assert (E1 : pow2 (a - b + 1) * pow2 b == pow2 (a + 1)).
  { rewrite <- pow2_add. replace (a - b + 1 + b)%Z with (a + 1)%Z by lia.
    reflexivity. }
  assert (E2 : pow2 (a - b - 1) * pow2 (b + 1) == pow2 a).
  { rewrite <- pow2_add. replace (a - b - 1 + (b + 1))%Z with a by lia.
    reflexivity. }
  assert (E3 : pow2 (a - b - 1 + 1) == pow2 (a - b)).
  { replace (a - b - 1 + 1)%Z with (a - b)%Z by lia. reflexivity. }
  pose proof (pow2_pos (a - b + 1)) as P1.
  pose proof (pow2_pos (a - b - 1)) as P2.
  destruct (Qle_bool (pow2 (a - b)) (n # d)) eqn:T.
  - apply Qle_bool_iff in T. split; [exact T|].
    apply Qnot_le_lt. intro C.
    assert (pow2 (a - b + 1) * pow2 b <= (n # d) * inject_Z (Zpos d)).
    { apply Qle_trans with ((n # d) * pow2 b).
      - apply Qmult_le_compat_r; [exact C|apply Qlt_le_weak, Pb].
      - rewrite (Qmult_comm (n # d)), (Qmult_comm (n # d)).
        apply Qmult_le_compat_r; [exact Qb1|apply Qlt_le_weak, Hx]. }
    rewrite E1, Hxd in H. apply Qle_not_lt in H. contradiction.
  - assert (T' : (n # d) < pow2 (a - b)).
    { apply Qnot_le_lt. intro C. apply Qle_bool_iff in C. congruence. }
    split; [|rewrite E3; exact T'].
    apply Qnot_lt_le. intro C.
    assert ((n # d) * inject_Z (Zpos d) < pow2 (a - b - 1) * pow2 (b + 1)).
    { apply Qle_lt_trans with (pow2 (a - b - 1) * inject_Z (Zpos d)).
      - apply Qmult_le_compat_r; [apply Qlt_le_weak, C|apply Qlt_le_weak, Hd].
      - rewrite (Qmult_comm (pow2 (a - b - 1))), (Qmult_comm (pow2 (a - b - 1))).
        apply Qmult_lt_compat_r; [exact P2|exact Qb2]. }
    rewrite E2, Hxd in H. apply Qlt_not_le in H. contradiction.
Qed.

Lemma exponent_le (x y : Q) :
  0 < x -> x <= y -> (exponent x <= exponent y)%Z.
Proof.
  intros Hx Hxy.
  destruct (exponent_spec x Hx) as [H1 _].
  destruct (exponent_spec y (Qlt_le_trans _ _ _ Hx Hxy)) as [_ H2].
  assert (H : pow2 (exponent x) < pow2 (exponent y + 1)).
  { eapply Qle_lt_trans; [exact H1|]. eapply Qle_lt_trans; [exact Hxy|exact H2]. }
  apply pow2_lt_inv in H. lia.
Qed.

(** Rounding to the nearest integer, ties to even. *)
Lemma nearestEven_floor (q : Q) :
  nearestEven q = Qfloor q
  \/ (nearestEven q = (Qfloor q + 1)%Z /\ inject_Z (Qfloor q) + (1 # 2) <= q).
Proof.
  unfold nearestEven.
  destruct (Qcompare (q - inject_Z (Qfloor q)) (1 # 2)) eqn:C.
  - destruct (Z.even (Qfloor q)); [now left|right]. split; [reflexivity|].
    apply Qeq_alt in C. lra.
  - now left.
  - right. split; [reflexivity|]. apply Qgt_alt in C. lra.
Qed.

Lemma nearestEven_ge (q : Q) (k : Z) : inject_Z k <= q -> (k <= nearestEven q)%Z.
Proof.
  intro H. apply Qfloor_resp_le in H. rewrite Qfloor_Z in H.
  destruct (nearestEven_floor q) as [->|[-> _]]; lia.
Qed.

Lemma nearestEven_le (q : Q) (k : Z) : q <= inject_Z k -> (nearestEven q <= k)%Z.
Proof.
  intro H. pose proof (Qfloor_le q) as Hf.
  destruct (nearestEven_floor q) as [->|[-> Hh]].
  - rewrite Zle_Qle. lra.
  - assert (inject_Z (Qfloor q) < inject_Z k) by lra.
    rewrite <- Zlt_Qlt in H0. lia.
Qed.

Lemma nearestEven_mono (p q : Q) : p <= q -> (nearestEven p <= nearestEven q)%Z.
Proof.
  intro H. pose proof (Qfloor_resp_le _ _ H) as Hf.
  destruct (Z.eq_dec (Qfloor p) (Qfloor q)) as [E|E].
  - unfold nearestEven. rewrite <- E.
    destruct (Qcompare (p - inject_Z (Qfloor p)) (1 # 2)) eqn:C1;
      destruct (Qcompare (q - inject_Z (Qfloor p)) (1 # 2)) eqn:C2;
      first [apply Qeq_alt in C1 | apply Qlt_alt in C1 | apply Qgt_alt in C1];
      first [apply Qeq_alt in C2 | apply Qlt_alt in C2 | apply Qgt_alt in C2];
      destruct (Z.even (Qfloor p)); try lia; exfalso; lra.
  - assert (nearestEven p <= Qfloor p + 1)%Z
      by (destruct (nearestEven_floor p) as [->|[-> _]]; lia).
    assert (Qfloor q <= nearestEven q)%Z
      by (destruct (nearestEven_floor q) as [->|[-> _]]; lia).
    lia.
Qed.

Lemma ulp_pos (x : Q) : 0 < ulp x.
Proof. apply pow2_pos. Qed.

Lemma roundPositive_eq (x : Q) :
  roundPositive x == inject_Z (nearestEven (x / ulp x)) * ulp x.
Proof. unfold roundPositive. apply Qred_correct. Qed.

Lemma round_positive (x : Q) : 0 < x -> round x = roundPositive x.
Proof.
  destruct x as [[|n|n] d]; unfold Qlt; cbn; intro H; try lia. reflexivity.
Qed.

Lemma round_zero (x : Q) : x == 0 -> round x = 0.
Proof.
  destruct x as [[|n|n] d]; unfold Qeq; cbn; intro H; try lia. reflexivity.
Qed.

Lemma roundPositive_nonneg (x : Q) : 0 <= x -> 0 <= roundPositive x.
Proof.
  intro H. rewrite roundPositive_eq.
  apply Qmult_le_0_compat; [|apply Qlt_le_weak, ulp_pos].
  change 0 with (inject_Z 0). rewrite <- Zle_Qle. apply nearestEven_ge.
  apply Qle_shift_div_l; [apply ulp_pos|].
  change (inject_Z 0) with 0. rewrite Qmult_0_l. exact H.
Qed.

(** A number of the binade of [2 ^ e] is rounded into the closed binade. *)
Lemma roundPositive_binade (x : Q) :
  0 < x ->
  roundPositive x <= pow2 (Z.max (exponent x) (-1022) + 1)
  /\ ((-1022 <= exponent x)%Z -> pow2 (exponent x) <= roundPositive x).
Proof.
  intro Hx. destruct (exponent_spec x Hx) as [Hlo Hhi].
  set (E := Z.max (exponent x) (-1022)).
  assert (Hu : ulp x = pow2 (E - 52)) by reflexivity.
  pose proof (ulp_pos x) as Hup.
  assert (H53 : inject_Z (2 ^ 53) * ulp x == pow2 (E + 1)).
  { rewrite Hu, pow2_Z by lia. rewrite <- pow2_add.
    replace (53 + (E - 52))%Z with (E + 1)%Z by lia. reflexivity. }
  assert (H52 : inject_Z (2 ^ 52) * ulp x == pow2 E).
  { rewrite Hu, pow2_Z by lia. rewrite <- pow2_add.
    replace (52 + (E - 52))%Z with E by lia. reflexivity. }
  rewrite roundPositive_eq. split.
  - rewrite <- H53. apply Qmult_le_compat_r; [|apply Qlt_le_weak, Hup].
    rewrite <- Zle_Qle. apply nearestEven_le.
    apply Qle_shift_div_r; [exact Hup|]. rewrite H53.
    apply Qlt_le_weak. eapply Qlt_le_trans; [exact Hhi|].
    apply pow2_le. unfold E. lia.
  - intro Hn. assert (HE : E = exponent x) by (unfold E; lia).
    rewrite <- HE, <- H52.
    apply Qmult_le_compat_r; [|apply Qlt_le_weak, Hup].
    rewrite <- Zle_Qle. apply nearestEven_ge.
    apply Qle_shift_div_l; [exact Hup|]. rewrite H52, HE. exact Hlo.
Qed.

(** Rounding is monotone. *)
Lemma round_mono (x y : Q) : 0 <= x -> x <= y -> round x <= round y.
Proof.
  intros H0 Hxy.
  destruct (Qlt_le_dec 0 x) as [Hx|Hx].
  - assert (Hy : 0 < y) by (eapply Qlt_le_trans; eassumption).
    rewrite (round_positive x Hx), (round_positive y Hy).
    pose proof (exponent_le x y Hx Hxy) as He.
    destruct (Z.eq_dec (Z.max (exponent x) (-1022)) (Z.max (exponent y) (-1022)))
      as [E|E].
    + assert (Hu : ulp x = ulp y) by (unfold ulp; now rewrite E).
      rewrite !roundPositive_eq, Hu.
      apply Qmult_le_compat_r; [|apply Qlt_le_weak, ulp_pos].
      rewrite <- Zle_Qle. apply nearestEven_mono.
      apply Qmult_le_compat_r; [exact Hxy|].
      apply Qlt_le_weak, Qinv_lt_0_compat, ulp_pos.
    + destruct (roundPositive_binade x Hx) as [Hux _].
      destruct (roundPositive_binade y Hy) as [_ Hly].
      assert (Hn : (-1022 <= exponent y)%Z) by lia.
      eapply Qle_trans; [exact Hux|]. eapply Qle_trans; [|exact (Hly Hn)].
      apply pow2_le. lia.
  - assert (Hz : x == 0) by lra. rewrite (round_zero x Hz).
    destruct (Qlt_le_dec 0 y) as [Hy|Hy].
    + rewrite (round_positive y Hy). apply roundPositive_nonneg. lra.
    + assert (Hz' : y == 0) by lra. rewrite (round_zero y Hz'). lra.
Qed.

(** A value between two doubles is rounded to a double between them. *)
Lemma round_between (a b x : Q) :
  0 <= a -> round a == a -> round b == b -> a <= x -> x <= b ->
  a <= round x /\ round x <= b.
Proof.
  intros H0 Ha Hb H1 H2. split.
  - rewrite <- Ha. now apply round_mono.
  - rewrite <- Hb. apply round_mono; lra.
Qed.

End DoubleFacts.

Section Backoff.
Local Open Scope Q_scope.

(** The delay in the words of the specification, in exact arithmetic: the
    schedule entry at [min(k, len - 1)], plus the jitter, capped at
    [maxBackoffMs]. *)
Definition specDelay (schedule : list Z) (k : nat) (jitter : Q) (maxBackoffMs : Z)
  : Q :=
  Qmin (inject_Z (nth (Nat.min k (length schedule - 1)) schedule 0%Z) + jitter)
       (inject_Z maxBackoffMs).

(** The delay that the code computes from the attempt counter [k] and the
    sample [r] of [Math.random()]:
    [Math.min(schedule[Math.min(k, len - 1)] + r * 500, maxBackoffMs)], the
    product and the sum rounded as doubles are. *)
Definition codeDelay (schedule : list Z) (k : nat) (r : Q) (maxBackoffMs : Z)
  : Q :=
  Double.min
    (Double.add (inject_Z (nth (Nat.min k (length schedule - 1)) schedule 0%Z))
       (Double.mul r 500))
    (inject_Z maxBackoffMs).

(** The largest double below 1. *)
Definition almostOne : Q := 9007199254740991 # 9007199254740992.

(** The double [m * 2 ^ e] of the kernel. *)
Definition float (m : positive) (e : Z) : PrimFloat.float :=
  FloatOps.SF2Prim (SpecFloat.S754_finite false m e).

(** [Math.min] on the kernel's doubles (neither is NaN here). *)
Definition Math_min (x y : PrimFloat.float) : PrimFloat.float :=
  if PrimFloat.ltb x y then x else y.

(** The rounding of this file is the rounding of the kernel's doubles: on
    a product and a sum that are exact, on ones that are rounded down and
    up, on a tie, and among the subnormal numbers. *)
Example round_agrees_with_primitive_floats :
  let plus x y := Double.ofFloat (PrimFloat.add x y) in
  let times x y := Double.ofFloat (PrimFloat.mul x y) in
  Double.ofFloat (float 9007199254740991 (-53)) = Some almostOne
  /\ times (float 9007199254740991 (-53)) (float 500 0)
     = Some (Double.mul almostOne 500)
  /\ plus (float 1000 0) (PrimFloat.mul (float 9007199254740991 (-53)) (float 500 0))
     = Some (Double.add 1000 (Double.mul almostOne 500))
  /\ times (float 1 (-1)) (float 500 0) = Some (Double.mul (1 # 2) 500)
  /\ Double.ofFloat (PrimFloat.div (float 1 0) (float 10 0))
     = Some (Double.round (1 # 10))
  /\ plus (float 16000 0)
       (PrimFloat.mul (PrimFloat.div (float 1 0) (float 10 0)) (float 500 0))
     = Some (Double.add 16000 (Double.mul (Double.round (1 # 10)) 500))
  /\ plus (float 1 0) (float 1 (-53)) = Some (Double.add 1 (Double.pow2 (-53)))
  /\ plus (float 1 0) (float 3 (-53)) = Some (Double.add 1 (3 * Double.pow2 (-53)))
  /\ times (float 1 (-1074)) (float 3 (-1))
     = Some (Double.mul (Double.pow2 (-1074)) (3 # 2))
  /\ times (float 1 (-1074)) (float 1 (-1))
     = Some (Double.mul (Double.pow2 (-1074)) (1 # 2)).
Proof. vm_compute. repeat split. Qed.

(** The entries of the schedule, and each plus 500, are doubles. *)
Lemma schedule_entries_are_doubles (k : nat) :
  let base := inject_Z (nth (Nat.min k 5) FetchSSE.BACKOFF_SCHEDULE 0%Z) in
  0 <= base /\ Double.round base == base
  /\ Double.round (base + 500) == base + 500.
Proof.
  do 6 (destruct k as [|k]; [vm_compute; repeat split; discriminate|]).
  vm_compute; repeat split; discriminate.
Qed.

(** The rounded delay is within the bounds of the exact one. *)
Lemma codeDelay_bounds (k : nat) (r : Q) (maxBackoffMs : Z) :
  0 <= r -> r < 1 ->
  let base := inject_Z (nth (Nat.min k 5) FetchSSE.BACKOFF_SCHEDULE 0%Z) in
  Qmin base (inject_Z maxBackoffMs)
  <= codeDelay FetchSSE.BACKOFF_SCHEDULE k r maxBackoffMs
  /\ codeDelay FetchSSE.BACKOFF_SCHEDULE k r maxBackoffMs
     <= Qmin (base + 500) (inject_Z maxBackoffMs).
Proof.
  intros H0 H1 base.
  destruct (schedule_entries_are_doubles k) as (Hb0 & Hb & Hb5).
  fold base in Hb0, Hb, Hb5.
  assert (Hj : 0 <= Double.mul r 500 /\ Double.mul r 500 <= 500).
  { unfold Double.mul.
    apply (round_between 0 500); [lra|reflexivity|reflexivity|lra|lra]. }
  assert (Hs : base <= Double.add base (Double.mul r 500)
               /\ Double.add base (Double.mul r 500) <= base + 500).
  { unfold Double.add.
    apply (round_between base (base + 500)); [exact Hb0|exact Hb|exact Hb5| |];
      lra. }
  unfold codeDelay, Double.min.
  change (length FetchSSE.BACKOFF_SCHEDULE - 1)%nat with 5%nat. fold base.
  split.
  - apply Q.min_le_compat_r. exact (proj1 Hs).
  - apply Q.min_le_compat_r. exact (proj2 Hs).
Qed.

(** A connection error of [ResilientSSE] below the limit of attempts:
    one timer is set, with the delay computed from the counter and the
    sample, and the attempt counter goes up. *)
Lemma Resilient_retry (w : ResilientSSE.World) (source : positive) :
  ResilientSSE.isDestroyed (ResilientSSE.this w) = false ->
  ResilientSSE.es (ResilientSSE.this w) = Some source ->
  (Z.of_nat (ResilientSSE.reconnectAttempts (ResilientSSE.this w))
   < ResilientSSE.Options.maxReconnectAttempts
       (ResilientSSE.options (ResilientSSE.this w)))%Z ->
  let r := ResilientSSE.handleConnectionError w in
  trace r = [onConnectionStatus reconnecting]
  /\ Browser.timeouts (ResilientSSE.browser (state r))
     = Browser.timeouts (ResilientSSE.browser w)
       ++ [(Browser.nextHandle (ResilientSSE.browser w),
            codeDelay ResilientSSE.BACKOFF_SCHEDULE
              (ResilientSSE.reconnectAttempts (ResilientSSE.this w))
              (Browser.random (ResilientSSE.browser w)
                 (Browser.randomCalls (ResilientSSE.browser w)))
              (ResilientSSE.Options.maxBackoffMs
                 (ResilientSSE.options (ResilientSSE.this w))))]
  /\ ResilientSSE.reconnectAttempts (ResilientSSE.this (state r))
     = S (ResilientSSE.reconnectAttempts (ResilientSSE.this w)).
Proof.
  intros Hd He Hlt r. subst r.
  destruct w as [[e u o l h n c d a i] b srcs]. cbn in Hd, He, Hlt. subst d e.
  assert (E : (ResilientSSE.Options.maxReconnectAttempts o <=? Z.of_nat n)%Z = false)
    by (apply Z.leb_gt; lia).
  unfold ResilientSSE.handleConnectionError, ResilientSSE.cleanup,
    ResilientSSE.stopHeartbeatMonitoring, ResilientSSE.assign, ResilientSSE.window,
    ResilientSSE.windowCall, bind, ret, gets, modify, invoke, state, trace.
  cbn. destruct h; cbn; rewrite E; destruct b; cbn; repeat split.
Qed.

(** C5, as the code has it. The timer that [scheduleReconnect] of the POST
    client, and [handleConnectionError] of [ResilientSSE], hand to
    [setTimeout] has the delay
    [Math.min(schedule[Math.min(k, len - 1)] + r * 500, maxBackoffMs)],
    where [k] is the attempt counter, [r] the sample of [Math.random()],
    and the product and the sum are rounded as doubles are. The delay is
    between [min(base, maxBackoffMs)] and [min(base + 500, maxBackoffMs)],
    both included, where [base] is the schedule entry: with
    [maxBackoffMs = 30000] the delay of attempt 0 is in [1000, 1500], and
    the delay of every attempt from 5 on is 30000. The counter is set to 0
    when a connection opens and goes up by one with every retry. *)
Theorem backoff_delay_is_rounded :
  forall (k : nat) (r : Q) (maxBackoffMs : Z),
    0 <= r -> r < 1 ->
    let base := inject_Z (nth (Nat.min k 5) FetchSSE.BACKOFF_SCHEDULE 0%Z) in
    let delay := codeDelay FetchSSE.BACKOFF_SCHEDULE k r maxBackoffMs in
    (forall w : FetchSSE.World,
        FetchSSE.reconnectAttempts (FetchSSE.this w) = k ->
        Browser.random (FetchSSE.browser w) (Browser.randomCalls (FetchSSE.browser w)) = r ->
        FetchSSE.Options.maxBackoffMs (FetchSSE.options (FetchSSE.this w)) = maxBackoffMs ->
        Browser.timeouts (FetchSSE.browser (state (FetchSSE.scheduleReconnect w)))
        = Browser.timeouts (FetchSSE.browser w)
          ++ [(Browser.nextHandle (FetchSSE.browser w), delay)])
    /\ (forall (w : ResilientSSE.World) (source : positive),
        ResilientSSE.isDestroyed (ResilientSSE.this w) = false ->
        ResilientSSE.es (ResilientSSE.this w) = Some source ->
        (Z.of_nat k < ResilientSSE.Options.maxReconnectAttempts
                        (ResilientSSE.options (ResilientSSE.this w)))%Z ->
        ResilientSSE.reconnectAttempts (ResilientSSE.this w) = k ->
        Browser.random (ResilientSSE.browser w)
          (Browser.randomCalls (ResilientSSE.browser w)) = r ->
        ResilientSSE.Options.maxBackoffMs (ResilientSSE.options (ResilientSSE.this w))
        = maxBackoffMs ->
        Browser.timeouts
          (ResilientSSE.browser (state (ResilientSSE.handleConnectionError w)))
        = Browser.timeouts (ResilientSSE.browser w)
          ++ [(Browser.nextHandle (ResilientSSE.browser w), delay)])
    /\ (Qmin base (inject_Z maxBackoffMs) <= delay
        /\ delay <= Qmin (base + 500) (inject_Z maxBackoffMs))
    /\ (maxBackoffMs = 30000%Z -> k = 0%nat -> 1000 <= delay /\ delay <= 1500)
    /\ (maxBackoffMs = 30000%Z -> (5 <= k)%nat -> delay == 30000)
    /\ (forall (w : FetchSSE.World) (signal : positive)
               (status statusText : jsstring),
        FetchSSE.reconnectAttempts
          (FetchSSE.this
             (state (FetchSSE.connect_onResponse signal
                       (FetchSSE.mkResponse true status statusText true) w)))
        = 0%nat
        /\ FetchSSE.reconnectAttempts
             (FetchSSE.this (state (FetchSSE.reconnectNow w)))
           = S (FetchSSE.reconnectAttempts (FetchSSE.this w)))
    /\ (forall w : ResilientSSE.World,
        ResilientSSE.reconnectAttempts
          (ResilientSSE.this (state (ResilientSSE.onopen w))) = 0%nat).
Proof.
  intros k r maxBackoffMs H0 H1 base delay.
  pose proof (codeDelay_bounds k r maxBackoffMs H0 H1) as Hb.
  cbn zeta in Hb. fold base delay in Hb.
  split; [|split; [|split; [|split; [|split; [|split]]]]].
  - intros w Hk Hr Hm. subst delay.
    destruct w as [c b calls]. cbn in Hk, Hr, Hm. subst k r maxBackoffMs.
    destruct b; reflexivity.
  - intros w source Hd He Hlt Hk Hr Hm. subst delay.
    rewrite <- Hk in Hlt.
    destruct (Resilient_retry w source Hd He Hlt) as (_ & Ht & _).
    rewrite Ht, Hk, Hr, Hm. reflexivity.
  - exact Hb.
  - intros -> ->. subst base. cbn [Nat.min FetchSSE.BACKOFF_SCHEDULE nth] in Hb.
    destruct Hb as [Hl Hu].
    assert (E1 : Qmin (inject_Z 1000) (inject_Z 30000) == 1000)
      by (apply Q.min_l; unfold inject_Z, Qle; cbn; lia).
    assert (E2 : Qmin (inject_Z 1000 + 500) (inject_Z 30000) == 1500)
      by (rewrite Q.min_l; [reflexivity|unfold inject_Z, Qle; cbn; lia]).
    rewrite E1 in Hl. rewrite E2 in Hu. split; assumption.
  - intros -> Hk. subst base. rewrite (Nat.min_r k 5 Hk) in Hb.
    change (nth 5 FetchSSE.BACKOFF_SCHEDULE 0%Z) with 30000%Z in Hb.
    destruct Hb as [Hl Hu].
    assert (E1 : Qmin (inject_Z 30000) (inject_Z 30000) == 30000)
      by (apply Q.min_l; apply Qle_refl).
    assert (E2 : Qmin (inject_Z 30000 + 500) (inject_Z 30000) == 30000)
      by (rewrite Q.min_r; [reflexivity|unfold inject_Z, Qle; cbn; lia]).
    rewrite E1 in Hl. rewrite E2 in Hu. apply Qle_antisym; assumption.
  - intros [[u o a n i l h t ev] b calls] signal status statusText.
    unfold FetchSSE.connect_onResponse, FetchSSE.reconnectNow, FetchSSE.connect,
      FetchSSE.cleanup, FetchSSE.startHeartbeatMonitor,
      FetchSSE.stopHeartbeatMonitor, FetchSSE.suspend, FetchSSE.Date_now,
      FetchSSE.assign, FetchSSE.window, FetchSSE.windowCall,
      bind, ret, gets, modify, invoke, state.
    cbn. destruct h, a, t, b; cbn; split; reflexivity.
  - intros [[e u o l h n c d a i] b srcs].
    unfold ResilientSSE.onopen, ResilientSSE.startHeartbeatMonitoring,
      ResilientSSE.stopHeartbeatMonitoring, ResilientSSE.Date_now,
      ResilientSSE.assign, ResilientSSE.window, ResilientSSE.windowCall,
      bind, ret, gets, modify, invoke, state.
    cbn. destruct h, b; reflexivity.
Qed.

Lemma backoff_delay_is_rounded_witness :
  Browser.timeouts
    (FetchSSE.browser (state (FetchSSE.scheduleReconnect Scenario.client)))
  = [(1%positive, codeDelay FetchSSE.BACKOFF_SCHEDULE 0 (1 # 2) 30000)]
  /\ codeDelay FetchSSE.BACKOFF_SCHEDULE 0 (1 # 2) 30000 = 1250
  /\ 1000 <= codeDelay FetchSSE.BACKOFF_SCHEDULE 0 (1 # 2) 30000
  /\ codeDelay FetchSSE.BACKOFF_SCHEDULE 0 (1 # 2) 30000 <= 1500.
Proof.
  assert (H0 : 0 <= 1 # 2) by (unfold Qle; cbn; lia).
  assert (H1 : 1 # 2 < 1) by (unfold Qlt; cbn; lia).
  destruct (backoff_delay_is_rounded 0 (1 # 2) 30000 H0 H1)
    as (Hf & _ & _ & Hb & _).
  split; [exact (Hf Scenario.client eq_refl eq_refl eq_refl)|].
  split; [vm_compute; reflexivity|exact (Hb eq_refl eq_refl)].
Defined.

(** C5 as the specification states it fails at the upper end: when
    [Math.random()] returns the largest double below 1, the jitter is the
    largest double below 500, and the sum with 1000 is rounded to 1500. The
    delay of attempt 0 is then 1500, which is not below 1500 and is not the
    exact [1000 + j]; the kernel's doubles give the same. The sample
    [1 - 2 ^ -52] gives 1500 too. *)
Lemma delay_of_first_attempt_reaches_1500 :
  (0 <= almostOne /\ almostOne < 1 /\ Double.round almostOne = almostOne)
  /\ Double.mul almostOne 500 < 500
  /\ codeDelay FetchSSE.BACKOFF_SCHEDULE 0 almostOne 30000 = 1500
  /\ codeDelay FetchSSE.BACKOFF_SCHEDULE 0
       (4503599627370495 # 4503599627370496) 30000 = 1500
  /\ specDelay FetchSSE.BACKOFF_SCHEDULE 0 (Double.mul almostOne 500) 30000
     < 1500
  /\ Browser.timeouts
       (FetchSSE.browser
          (state (FetchSSE.scheduleReconnect
                    (FetchSSE.start (lit "/api/chat") Scenario.defaults 0
                       (fun _ => almostOne)))))
     = [(1%positive, 1500)]
  /\ Double.ofFloat
       (Math_min
          (PrimFloat.add (float 1000 0)
             (PrimFloat.mul (float 9007199254740991 (-53)) (float 500 0)))
          (float 30000 0))
     = Some 1500.
Proof.
  vm_compute. repeat split; discriminate.
Qed.

End Backoff.

(* ===================================================================== *)
(** * Reconnection: the limit of attempts *)
(* ===================================================================== *)

(** The error with which [ResilientSSE] announces that it gives up. *)
Definition maxAttemptsError : Error.t :=
  newError (lit "Max reconnection attempts reached").

(** Six failed connections of a POST client with the default limit of five
    attempts: every [fetch] is rejected, and every timer but the last
    rejection's fires. *)
Definition sixFailures : list FetchSSE.Task :=
  [FetchSSE.callConnect;
   FetchSSE.fetchRejects 1 Scenario.networkError; FetchSSE.timeoutFires 2;
   FetchSSE.fetchRejects 3 Scenario.networkError; FetchSSE.timeoutFires 4;
   FetchSSE.fetchRejects 5 Scenario.networkError; FetchSSE.timeoutFires 6;
   FetchSSE.fetchRejects 7 Scenario.networkError; FetchSSE.timeoutFires 8;
   FetchSSE.fetchRejects 9 Scenario.networkError; FetchSSE.timeoutFires 10;
   FetchSSE.fetchRejects 11 Scenario.networkError].


(* ===================================================================== *)
(** * [close] *)
(* ===================================================================== *)

(** A POST client connects; the stream stays silent for twenty seconds and
    the heartbeat check reports a timeout (timer 3 is set); the stream,
    which the handler did not abort, then fails (timer 4 is set, and
    [reconnectTimer] now holds 4). *)
Definition silentThenBroken : list FetchSSE.Task :=
  [FetchSSE.callConnect;
   FetchSSE.fetchResolves 1 Scenario.http200;
   FetchSSE.timePasses 20000;
   FetchSSE.intervalFires 2;
   FetchSSE.readRejects 1 Scenario.networkError].

(** C6 on the POST client. [close] clears the one timer that
    [reconnectTimer] holds. When two connection errors came in a row (a
    heartbeat timeout, then the failure of the stream that is still open)
    the first timer is pending and forgotten: it fires after [close], and
    the client counts an attempt, reports [connecting] and opens a new
    request. (The rejection that an abort causes is not reported: the
    [catch] clause of [connect] returns on an [AbortError].) *)
Theorem close_leaves_an_overwritten_reconnect_timer :
  (forall w : FetchSSE.World, FetchSSE.connect_catch AbortError w = (tt, w, []))
  /\
  exists (reconnecting_ closed reopened : FetchSSE.World),
    FetchSSE.runAll silentThenBroken Scenario.client
    = Some (reconnecting_,
            [onConnectionStatus connecting; onConnectionStatus connected;
             onError (newError (lit "Heartbeat timeout"));
             onConnectionStatus reconnecting;
             onError Scenario.networkError;
             onConnectionStatus reconnecting])
    /\ map fst (Browser.timeouts (FetchSSE.browser reconnecting_))
       = [3%positive; 4%positive]
    /\ FetchSSE.reconnectTimer (FetchSSE.this reconnecting_) = Some 4%positive
    /\ FetchSSE.run FetchSSE.callClose reconnecting_
       = Some (closed, [onConnectionStatus disconnected])
    /\ map fst (Browser.timeouts (FetchSSE.browser closed)) = [3%positive]
    /\ FetchSSE.run (FetchSSE.timeoutFires 3) closed
       = Some (reopened, [onConnectionStatus connecting])
    /\ FetchSSE.calls reopened = [(5%positive, FetchSSE.awaitingFetch)]
    /\ FetchSSE.reconnectAttempts (FetchSSE.this reopened) = 1%nat.
Proof.
  split; [reflexivity|].
  destruct (FetchSSE.runAll silentThenBroken Scenario.client)
    as [[w1 t1]|] eqn:E1; [|vm_compute in E1; discriminate].
  destruct (FetchSSE.run FetchSSE.callClose w1) as [[w2 t2]|] eqn:E2;
    [|vm_compute in E1; injection E1 as <- <-; vm_compute in E2; discriminate].
  destruct (FetchSSE.run (FetchSSE.timeoutFires 3) w2) as [[w3 t3]|] eqn:E3;
    [|vm_compute in E1; injection E1 as <- <-;
      vm_compute in E2; injection E2 as <- <-; vm_compute in E3; discriminate].
  exists w1, w2, w3.
  vm_compute in E1. injection E1 as <- <-.
  vm_compute in E2. injection E2 as <- <-.
  vm_compute in E3. injection E3 as <- <-.
  repeat split.
Qed.

(** [ResilientSSE] keeps a flag: after [close()] the instance is destroyed,
    and [connect], the callback of a pending reconnection timer, a
    connection error and the heartbeat check all return at once, invoking
    nothing and changing nothing. *)
Theorem resilient_close_is_final :
  forall (w : ResilientSSE.World),
    let closed := state (ResilientSSE.close true w) in
    trace (ResilientSSE.close true w) = [onConnectionStatus disconnected]
    /\ ResilientSSE.isDestroyed (ResilientSSE.this closed) = true
    /\ ResilientSSE.es (ResilientSSE.this closed) = None
    /\ ResilientSSE.heartbeatTimer (ResilientSSE.this closed) = None
    /\ ResilientSSE.connect closed = (tt, closed, [])
    /\ ResilientSSE.reconnectNow closed = (tt, closed, [])
    /\ ResilientSSE.handleConnectionError closed = (tt, closed, [])
    /\ trace (ResilientSSE.heartbeatCheck closed) = []
    /\ state (ResilientSSE.heartbeatCheck closed) = closed.
Proof.
  intros [[e u o l h n c d a i] b srcs].
  unfold ResilientSSE.close, ResilientSSE.cleanup,
    ResilientSSE.stopHeartbeatMonitoring, ResilientSSE.heartbeatCheck,
    ResilientSSE.handleConnectionError, ResilientSSE.reconnectNow,
    ResilientSSE.connect, ResilientSSE.Date_now, ResilientSSE.assign,
    ResilientSSE.window, bind, ret, gets, modify, invoke, state, trace.
  cbn. destruct h, e; cbn; repeat split;
    match goal with
    | |- context [if ?c then _ else _] => destruct c; reflexivity
    | _ => reflexivity
    end.
Qed.

(** A character cut by a chunk boundary: the three bytes of the euro sign
    arrive in two chunks, and the message carries the one code unit. *)
Example euro_sign_across_chunks :
  trace (processStream TextDecoder.fresh []
           [(0, utf8 "data: " ++ [0xE2; 0x82]); (0, [0xAC] ++ utf8 "\n\n")]
           Scenario.client)
  = [onMessage {| SSEMessage.data := [0x20AC]; SSEMessage.event := None;
                  SSEMessage.id := None; SSEMessage.retry := None |}].
Proof. reflexivity. Qed.

(* ===================================================================== *)
(** * The inner loop of the hook always has turns enough *)
(* ===================================================================== *)

Lemma startsWith_length (s p : jsstring) :
  startsWith s p = true -> (length p <= length s)%nat.
Proof.
  intro H. destruct (startsWith_prefix s p H) as [r ->].
  rewrite length_app. lia.
Qed.

Lemma indexOf_bound (s p : jsstring) :
  0 <= indexOf s p ->
  indexOf s p + Z.of_nat (length p) <= Z.of_nat (length s).
Proof.
  induction s as [|c s IH]; cbn [indexOf].
  - destruct (startsWith [] p) eqn:E; [|lia].
    intros _. apply startsWith_length in E. lia.
  - destruct (startsWith (c :: s) p) eqn:E.
    + intros _. apply startsWith_length in E. lia.
    + destruct (indexOf s p <? 0) eqn:E'; [lia|].
      apply Z.ltb_ge in E'. intros _. specialize (IH E'). cbn [length]. lia.
Qed.

Lemma slice_rest_length (s : jsstring) (k : Z) :
  0 <= k <= Z.of_nat (length s) ->
  Z.of_nat (length (slice s k None)) = Z.of_nat (length s) - k.
Proof.
  intros [H0 H1]. unfold slice, clampIndex.
  destruct (k <? 0) eqn:E; [apply Z.ltb_lt in E; lia|].
  rewrite Z.min_l by lia.
  assert (Hk : (Z.to_nat k <= length s)%nat) by lia.
  rewrite firstn_all2.
  - rewrite length_skipn. lia.
  - rewrite length_skipn. lia.
Qed.

Section HookTurns.

Variable Chunk : Type.
Variable JSON_parse : jsstring -> option Chunk.
Variable chunk_type : Chunk -> jsstring.

(** More turns than the buffer has code units change nothing: the loop
    stops because no frame is left, never because the turns are used up. *)
Lemma frames_enough_turns (turns : nat) :
  forall (more : nat) (buf : jsstring),
    (length buf < turns)%nat -> (length buf < more)%nat ->
    Hook.frames Chunk JSON_parse chunk_type turns buf
    = Hook.frames Chunk JSON_parse chunk_type more buf.
Proof.
  induction turns as [|turns IH]; intros more buf Ht Hm; [lia|].
  destruct more as [|more]; [lia|].
  cbn [Hook.frames].
  destruct (0 <=? indexOf buf (lit "\n\n")) eqn:E; [|reflexivity].
  apply Z.leb_le in E.
  pose proof (indexOf_bound buf (lit "\n\n") E) as Hb.
  change (Z.of_nat (length (lit "\n\n"))) with 2 in Hb.
  assert (H0 : 0 <= indexOf buf (lit "\n\n") + 2) by lia.
  pose proof (slice_rest_length buf (indexOf buf (lit "\n\n") + 2) (conj H0 Hb))
    as Hl.
  assert (Hs : (length (slice buf (indexOf buf (lit "\n\n") + 2) None) < turns)%nat)
    by lia.
  assert (Hs' : (length (slice buf (indexOf buf (lit "\n\n") + 2) None) < more)%nat)
    by lia.
  rewrite (IH more _ Hs Hs'). reflexivity.
Qed.

End HookTurns.

(* ===================================================================== *)
(** * More on the string operations *)
(* ===================================================================== *)

Lemma trimStart_white_app (a b : jsstring) :
  forallb isWhiteSpace a = true -> trimStart (a ++ b) = trimStart b.
Proof.
  induction a as [|c a IH]; [reflexivity|].
  cbn [forallb app trimStart]. intro H. apply andb_prop in H as [Hc Ha].
  rewrite Hc. auto.
Qed.

Lemma trimStart_app_white (s ws : jsstring) :
  forallb isWhiteSpace ws = true ->
  trimStart (s ++ ws) = if forallb isWhiteSpace s then [] else trimStart s ++ ws.
Proof.
  intro H. induction s as [|c s IH].
  - cbn. now apply trimStart_blank.
  - cbn [app trimStart forallb]. destruct (isWhiteSpace c); [exact IH | reflexivity].
Qed.

Lemma trimEnd_app_white (s ws : jsstring) :
  forallb isWhiteSpace ws = true -> trimEnd (s ++ ws) = trimEnd s.
Proof.
  intro H. unfold trimEnd. rewrite rev_app_distr.
  rewrite trimStart_white_app; [reflexivity | now rewrite forallb_rev].
Qed.

(** White space at the end of a string does not survive [trim]. *)
Lemma trim_app_white (s ws : jsstring) :
  forallb isWhiteSpace ws = true -> trim (s ++ ws) = trim s.
Proof.
  intro H. unfold trim. rewrite (trimStart_app_white s ws H).
  destruct (forallb isWhiteSpace s) eqn:E.
  - now rewrite (trimStart_blank s E).
  - now apply trimEnd_app_white.
Qed.

Lemma startsWith_app_white (line ws p : jsstring) :
  forallb isWhiteSpace ws = true ->
  forallb (fun c => negb (isWhiteSpace c)) p = true ->
  startsWith (line ++ ws) p = startsWith line p.
Proof.
  intros Hws. revert line. induction p as [|x p IH]; intros line Hp; [reflexivity|].
  cbn [forallb] in Hp. apply andb_prop in Hp as [Hx Hp].
  destruct line as [|y line].
  - cbn [app startsWith]. destruct ws as [|y ws]; [reflexivity|].
    cbn [forallb] in Hws. apply andb_prop in Hws as [Hy _].
    destruct (x =? y) eqn:E; [|reflexivity].
    apply Z.eqb_eq in E. subst y. rewrite Hy in Hx. discriminate.
  - cbn [app startsWith]. now rewrite IH.
Qed.

Lemma white_has_no_colon (ws : jsstring) :
  forallb isWhiteSpace ws = true -> ~ In COLON ws.
Proof.
  induction ws as [|c ws IH]; [intros _ []|].
  cbn [forallb]. intro H. apply andb_prop in H as [Hc Hws].
  intros [E|E]; [subst c; discriminate | now apply IH].
Qed.

Lemma indexOf_colon_app_white (line ws : jsstring) :
  forallb isWhiteSpace ws = true ->
  indexOf (line ++ ws) (lit ":") = indexOf line (lit ":").
Proof.
  intro H. induction line as [|c line IH].
  - cbn [app]. rewrite indexOf_colon_absent by now apply white_has_no_colon.
    reflexivity.
  - cbn [app indexOf]. rewrite IH.
    change (startsWith (c :: line ++ ws) (lit ":")) with ((58 =? c) && true).
    change (startsWith (c :: line) (lit ":")) with ((58 =? c) && true).
    reflexivity.
Qed.

(** ** [slice] of a string that is continued *)

Lemma slice_prefix_app (s t : jsstring) (k : Z) :
  0 <= k <= Z.of_nat (length s) ->
  slice (s ++ t) 0 (Some k) = slice s 0 (Some k).
Proof.
  intros [H0 H1]. unfold slice, clampIndex. cbn [Z.ltb Z.compare].
  rewrite length_app, Nat2Z.inj_add.
  destruct (k <? 0) eqn:E; [apply Z.ltb_lt in E; lia|].
  rewrite !Z.min_l by lia. rewrite Z.sub_0_r. cbn [Z.to_nat skipn].
  rewrite firstn_app.
  replace (Z.to_nat k - length s)%nat with 0%nat by lia.
  cbn [firstn]. apply app_nil_r.
Qed.

Lemma slice_suffix_app (s t : jsstring) (k : Z) :
  0 <= k <= Z.of_nat (length s) ->
  slice (s ++ t) k None = slice s k None ++ t.
Proof.
  intros [H0 H1]. unfold slice, clampIndex.
  rewrite length_app, Nat2Z.inj_add.
  destruct (k <? 0) eqn:E; [apply Z.ltb_lt in E; lia|].
  rewrite !Z.min_l by lia.
  rewrite skipn_app.
  replace (Z.to_nat k - length s)%nat with 0%nat by lia. cbn [skipn].
  rewrite !firstn_all2; [reflexivity | |].
  - rewrite length_skipn. lia.
  - rewrite length_app, length_skipn. lia.
Qed.

(* ===================================================================== *)
(** * The parser of the POST client: line endings, frames without data,
      liveness *)
(* ===================================================================== *)

Lemma indexOf_absent_or_found (s p : jsstring) :
  indexOf s p = -1 \/ 0 <= indexOf s p.
Proof.
  induction s as [|c s IH]; cbn [indexOf].
  - destruct (startsWith [] p); lia.
  - destruct (startsWith (c :: s) p); [lia|].
    destruct (indexOf s p <? 0) eqn:E; [lia|]. apply Z.ltb_ge in E. lia.
Qed.

Lemma parseSSEEvent_app_white (line ws : jsstring) (w : World) :
  forallb isWhiteSpace ws = true ->
  parseSSEEvent (line ++ ws) w = parseSSEEvent line w.
Proof.
  intro H. unfold parseSSEEvent. rewrite (indexOf_colon_app_white line ws H).
  destruct (indexOf_absent_or_found line (lit ":")) as [E|E].
  - now rewrite E.
  - pose proof (indexOf_bound line (lit ":") E) as Hb.
    change (Z.of_nat (length (lit ":"))) with 1 in Hb.
    rewrite slice_prefix_app by lia.
    rewrite slice_suffix_app by lia.
    now rewrite (trim_app_white _ ws H).
Qed.

(** White space at the end of a line changes nothing: the line is handled
    as the line without it is. A stream whose lines end in CR LF is
    therefore read as the stream with bare LF. *)
Theorem trailing_white_space_is_ignored :
  forall (line ws : jsstring) (w : World),
    forallb isWhiteSpace ws = true ->
    processSSELine (line ++ ws) w = processSSELine line w.
Proof.
  intros line ws w H. unfold processSSELine.
  rewrite !(startsWith_app_white line ws _ H) by reflexivity.
  rewrite (trim_app_white line ws H).
  unfold bind. destruct (Date_now w) as [[now w1] t1].
  destruct (assign (set_lastHeartbeat now) w1) as [[u w2] t2].
  destruct (startsWith line (lit ":")); [reflexivity|].
  destruct (eqb (trim line) []); [reflexivity|].
  destruct (startsWith line (lit "data:") || startsWith line (lit "event:")
            || startsWith line (lit "id:") || startsWith line (lit "retry:"));
    [|reflexivity].
  now rewrite (parseSSEEvent_app_white line ws w2 H).
Qed.

Lemma trailing_white_space_is_ignored_witness :
  processSSELine (lit "data: x\r") Scenario.client
  = processSSELine (lit "data: x") Scenario.client.
Proof.
  exact (trailing_white_space_is_ignored (lit "data: x") (lit "\r")
           Scenario.client eq_refl).
Defined.

(** The world after a run of lines: the pending event is what the lines
    made of it, and [lastHeartbeat] is the present time if there was a
    line at all. Nothing else has changed. *)
Lemma forEach_lines_state (lines : list jsstring) :
  forall w : World,
    state (forEach lines processSSELine w)
    = withEvent (fst (linesEffect lines (currentEvent (this w))))
        (match lines with [] => w | _ :: _ => touched w end).
Proof.
  induction lines as [|line lines IH]; intro w.
  - cbn. now rewrite withEvent_current.
  - cbn [forEach linesEffect]. unfold bind. rewrite processSSELine_effect.
    destruct (lineEffect line (currentEvent (this w))) as [ev1 t1]. cbn [fst snd].
    specialize (IH (withEvent ev1 (touched w))).
    destruct (forEach lines processSSELine (withEvent ev1 (touched w)))
      as [[u w2] t2].
    unfold state in *. cbn [fst snd] in *. rewrite IH.
    change (currentEvent (this (withEvent ev1 (touched w)))) with ev1.
    destruct (linesEffect lines ev1) as [ev2 t2']. cbn [fst].
    destruct w as [[] ? ?]. destruct lines; reflexivity.
Qed.

(** A frame that has no [data:] line invokes nothing, and what its
    [event:], [id:] and [retry:] lines said is dropped with it: the pending
    event is empty afterwards. *)
Theorem frame_without_data_dispatches_nothing :
  forall (fields : list (jsstring * jsstring)) (w : World),
    Forall (fun fv => In (fst fv) [lit "event"; lit "id"; lit "retry"]) fields ->
    ParsedSSEEvent.data (currentEvent (this w)) = None ->
    let frame := map (fun fv => fst fv ++ COLON :: snd fv) fields ++ [[]] in
    let r := forEach frame processSSELine w in
    trace r = [] /\ currentEvent (this (state r)) = ParsedSSEEvent.empty.
Proof.
  induction fields as [|[f v] fields IH]; intros w Hf Hd frame r; subst r frame.
  - cbn [map app forEach]. unfold bind, ret.
    rewrite (Lines.processSSELine_blank [] w eq_refl).
    destruct w as [[u o a n i l h t ev] b k]. cbn in Hd.
    unfold dispatchEvent. step_method. cbn. rewrite Hd. split; reflexivity.
  - inversion Hf as [|x xs Hin Hrest]; subst. cbn [fst] in Hin.
    cbn [map app forEach fst snd]. unfold bind.
    rewrite Lines.processSSELine_field by (cbn in Hin |- *; tauto).
    set (w1 := withEvent (Lines.withField f (trim v) (currentEvent (this w)))
                 (touched w)).
    assert (Hd1 : ParsedSSEEvent.data (currentEvent (this w1)) = None).
    { subst w1. cbn [withEvent this currentEvent set_currentEvent].
      cbn in Hin. unfold Lines.withField.
      destruct Hin as [<-|[<-|[<-|[]]]]; cbn; exact Hd. }
    destruct (IH w1 Hrest Hd1) as [Ht Hs].
    fold w1. revert Ht Hs.
    generalize (forEach (map (fun fv : list Z * list Z =>
                                fst fv ++ COLON :: snd fv) fields ++ [[]])
                  processSSELine w1).
    intros [[u w2] t2]. unfold state, trace. cbn [fst snd].
    intros -> Hs. auto.
Qed.

Lemma frame_without_data_dispatches_nothing_witness :
  trace (forEach [lit "event:update"; lit "id: 7"; []] processSSELine
           Scenario.client) = [].
Proof.
  assert (H : Forall (fun fv : jsstring * jsstring =>
                        In (fst fv) [lit "event"; lit "id"; lit "retry"])
                [(lit "event", lit "update"); (lit "id", lit " 7")]).
  { constructor; [cbn; auto | constructor; [cbn; auto | constructor]]. }
  exact (proj1 (frame_without_data_dispatches_nothing
                  [(lit "event", lit "update"); (lit "id", lit " 7")]
                  Scenario.client H eq_refl)).
Defined.

(** Any line keeps the connection alive: for [heartbeatTimeoutMs] after a
    line was handled, whatever the line, the heartbeat check does
    nothing. *)
Theorem line_keeps_connection_alive :
  forall (line : jsstring) (w : World) (ms : Z),
    0 <= ms <= Options.heartbeatTimeoutMs (options (this w)) ->
    let later := state (window (Browser.elapse ms)
                          (state (processSSELine line w))) in
    heartbeatCheck later = (tt, later, []).
Proof.
  intros line w ms H later. subst later.
  rewrite processSSELine_effect. unfold state. cbn [fst snd].
  destruct (lineEffect line (currentEvent (this w))) as [ev t]. cbn [fst].
  destruct w as [[u o a n i l h rt e] b k]. destruct b as [now nh ts ivs ab rn rc].
  cbn in H. unfold heartbeatCheck. step_method. cbn.
  destruct (Z.ltb_spec (Options.heartbeatTimeoutMs o) (now + ms - now));
    [lia | reflexivity].
Qed.

Lemma line_keeps_connection_alive_witness :
  let later := state (window (Browser.elapse 15000)
                        (state (processSSELine (lit ": ping") Scenario.client))) in
  heartbeatCheck later = (tt, later, []).
Proof.
  assert (H : 0 <= 15000
              <= Options.heartbeatTimeoutMs (options (this Scenario.client)))
    by (cbn; lia).
  exact (line_keeps_connection_alive (lit ": ping") Scenario.client 15000 H).
Defined.

(** Nothing the server sends changes the delay of the next reconnection:
    after any lines, [retry:] lines among them, [scheduleReconnect] reports
    what it would have reported before them and leaves the timers it would
    have left, with the same handle and the same delay. The value of a
    [retry:] line goes to the consumer alone: the message of its frame
    carries it, read by [parseInt], as [retry]. *)
Theorem server_lines_never_change_the_delay :
  forall (lines : list jsstring) (w : World),
    (let w' := state (forEach lines processSSELine w) in
     Browser.timeouts (browser (state (scheduleReconnect w')))
     = Browser.timeouts (browser (state (scheduleReconnect w)))
     /\ trace (scheduleReconnect w') = trace (scheduleReconnect w)
     /\ reconnectTimer (this (state (scheduleReconnect w')))
        = reconnectTimer (this (state (scheduleReconnect w))))
    /\ forall (v d : jsstring) (e i : option jsstring) (r : option number),
         trace (forEach [lit "retry:" ++ v; lit "data:" ++ d; []] processSSELine
                  (withEvent (ParsedSSEEvent.mk e None i r) w))
         = [onMessage {| SSEMessage.data := trim d;
                         SSEMessage.event := e;
                         SSEMessage.id := i;
                         SSEMessage.retry := Some (parseInt10 (trim v)) |}].
Proof.
  intros lines w. split.
  - cbn zeta. rewrite forEach_lines_state.
    destruct (linesEffect lines (currentEvent (this w))) as [ev t]. cbn [fst].
    destruct w as [[u o a n i l h rt e] b k]. destruct b.
    destruct lines; repeat split.
  - intros v d e i r. cbn [forEach]. unfold bind, ret.
    rewrite (Lines.processSSELine_field (lit "retry") v)
      by (cbn; tauto).
    rewrite (Lines.processSSELine_field (lit "data") d)
      by (cbn; tauto).
    rewrite (Lines.processSSELine_blank [] _ eq_refl).
    destruct w as [[] ? ?]. unfold dispatchEvent. step_method.
    cbn [withEvent touched this currentEvent set_currentEvent set_lastHeartbeat
         Lines.withField eqb ParsedSSEEvent.data ParsedSSEEvent.event
         ParsedSSEEvent.id ParsedSSEEvent.retry app].
    cbn. rewrite stripFinalLF_app. reflexivity.
Qed.

(** A number given as 0 counts as not given: the constructor stores the
    default in its place, so no stored number is 0, and a client made with
    [maxReconnectAttempts: 0] still answers its first connection error with
    a reconnection. *)
Theorem zero_option_is_replaced_by_default :
  forall (url : jsstring) (o : FetchSSEOptions.t),
    let stored := options (constructor url o) in
    (Options.maxReconnectAttempts stored <> 0
     /\ Options.heartbeatTimeoutMs stored <> 0
     /\ Options.initialBackoffMs stored <> 0
     /\ Options.maxBackoffMs stored <> 0)
    /\ (forall (clock : Z) (rnd : nat -> Q) (error : Error.t),
           trace (handleConnectionError error (start url o clock rnd))
           = [onError error;
              onConnectionStatus
                (match FetchSSEOptions.maxReconnectAttempts o with
                 | Some n => if n <? 0 then disconnected else reconnecting
                 | None => reconnecting
                 end)]).
Proof.
  intros url o stored. subst stored. destruct o as [hs bd ma ht ib mb].
  assert (Hn : forall g d, d <> 0 -> orNumber g d <> 0).
  { intros [n|] d Hd; cbn; [|exact Hd].
    destruct (n =? 0) eqn:E; [exact Hd | now apply Z.eqb_neq]. }
  split.
  - cbn. repeat split; apply Hn; discriminate.
  - intros clock rnd error.
    unfold handleConnectionError, stopHeartbeatMonitor, scheduleReconnect.
    step_method. cbn.
    destruct ma as [n|]; cbn; [|reflexivity].
    destruct (n =? 0) eqn:E0.
    + apply Z.eqb_eq in E0. subst n. reflexivity.
    + apply Z.eqb_neq in E0.
      destruct (Z.ltb_spec 0 n), (Z.ltb_spec n 0); try lia; reflexivity.
Qed.

(* ===================================================================== *)
(** * The POST client over its event loop *)
(* ===================================================================== *)

(** What stays true of a [FetchSSEClient] whatever the consumer, the
    network and the timers do: a suspended call of [connect] whose signal
    is not aborted is the call of the present [abortController]; the only
    interval that runs is the heartbeat monitor recorded in
    [heartbeatTimer]; and the monitor runs exactly while [isConnected]. *)
Definition oneLiveCall (w : World) : Prop :=
  forall (signal : positive) (at_ : Suspended),
    In (signal, at_) (calls w) -> live signal w = true ->
    abortController (this w) = Some signal.

Definition oneMonitor (w : World) : Prop :=
  Browser.intervals (browser w)
  = match heartbeatTimer (this w) with Some h => [(h, 5000)] | None => [] end
  /\ isConnected (this w)
     = match heartbeatTimer (this w) with Some _ => true | None => false end.

Definition Invariant (w : World) : Prop := oneLiveCall w /\ oneMonitor w.

Lemma removeHandle_In {A : Type} (h : positive) (l : list (positive * A))
    (e : positive * A) :
  In e (Browser.removeHandle h l) -> In e l.
Proof. unfold Browser.removeHandle. rewrite filter_In. tauto. Qed.

Lemma removeHandle_single {A : Type} (h : positive) (a : A) :
  Browser.removeHandle h [(h, a)] = [].
Proof. unfold Browser.removeHandle. cbn. now rewrite Pos.eqb_refl. Qed.

Lemma suspendedAt_In (signal : positive) (w : World) (at_ : Suspended) :
  suspendedAt signal w = Some at_ -> In (signal, at_) (calls w).
Proof.
  unfold suspendedAt.
  destruct (filter (fun e => Pos.eqb (fst e) signal) (calls w))
    as [|[s a] rest] eqn:E; [discriminate|].
  intro H. injection H as ->.
  assert (Hin : In (s, at_) (filter (fun e => Pos.eqb (fst e) signal) (calls w)))
    by (rewrite E; now left).
  apply filter_In in Hin. destruct Hin as [Hin Hs]. cbn in Hs.
  apply Pos.eqb_eq in Hs. now subst s.
Qed.

(** The lines of a chunk change the pending event and the time of the last
    heartbeat, and nothing else. *)
Lemma processChunk_frame (decoder : TextDecoder.t) (buffer : jsstring)
    (value : list Z) (w : World) :
  exists (ev : ParsedSSEEvent.t) (last : Z),
    state (processChunk decoder buffer value w)
    = mkWorld (set_currentEvent ev (set_lastHeartbeat last (this w)))
        (browser w) (calls w).
Proof.
  unfold processChunk.
  destruct (TextDecoder.decode decoder value) as [d1 text].
  set (lines := removelast (split LF (buffer ++ text))).
  pose proof (forEach_lines_state lines w) as H.
  unfold bind, ret.
  destruct (forEach lines processSSELine w) as [[u w1] t1].
  unfold state in *. cbn [fst snd] in *. subst w1.
  exists (fst (linesEffect lines (currentEvent (this w)))).
  destruct w as [[u' o a n i l h r e] b k].
  destruct lines; [exists l | exists (Browser.now b)]; reflexivity.
Qed.

Ltac open_world w :=
  let u := fresh "u" in let o := fresh "o" in let c := fresh "c" in
  let n := fresh "n" in let i := fresh "i" in let l := fresh "l" in
  let h := fresh "h" in let r := fresh "r" in let e := fresh "e" in
  let now := fresh "now" in let nh := fresh "nh" in let ts := fresh "ts" in
  let ivs := fresh "ivs" in let ab := fresh "ab" in let rn := fresh "rn" in
  let rc := fresh "rc" in let cs := fresh "cs" in
  destruct w as [[u o c n i l h r e] [now nh ts ivs ab rn rc] cs].

Ltac run_method :=
  unfold close, connect, reconnectNow, connect_catch, connect_onResponse,
    heartbeatCheck, handleConnectionError, scheduleReconnect, cleanup,
    startHeartbeatMonitor, stopHeartbeatMonitor, suspend, finish;
  step_method; cbn.

Lemma Invariant_cleanup (w : World) :
  Invariant w ->
  let w' := state (cleanup w) in
  Invariant w'
  /\ calls w' = calls w
  /\ abortController (this w') = None
  /\ (forall signal at_, In (signal, at_) (calls w') -> live signal w' = false).
Proof.
  open_world w. intros [Hl [Hi Hc]]. unfold oneLiveCall, live in Hl.
  cbn in Hl, Hi, Hc. subst ivs i.
  assert (Hdead : forall signal at_, In (signal, at_) cs ->
            negb (existsb (Pos.eqb signal)
                    (match c with Some s => s :: ab | None => ab end)) = false).
  { intros s a Hin. specialize (Hl s a Hin).
    destruct c as [s0|]; cbn.
    - destruct (Pos.eqb_spec s s0); [reflexivity|].
      cbn. destruct (existsb (Pos.eqb s) ab); [reflexivity|].
      specialize (Hl eq_refl). congruence.
    - destruct (existsb (Pos.eqb s) ab); [reflexivity|].
      specialize (Hl eq_refl). discriminate. }
  destruct c as [s0|], h as [h0|], r as [r0|]; run_method;
    (split; [split; [intros s a Hin Hlive; pose proof (Hdead s a Hin) as D;
                     unfold live in Hlive; cbn in Hlive, D; congruence
                    | split; cbn; [now rewrite ?Pos.eqb_refl | reflexivity]]
            | split; [reflexivity | split; [reflexivity
                                           | intros s a Hin; exact (Hdead s a Hin)]]]).
Qed.

Lemma Invariant_ext (w w' : World) :
  calls w' = calls w ->
  Browser.aborted (browser w') = Browser.aborted (browser w) ->
  abortController (this w') = abortController (this w) ->
  Browser.intervals (browser w') = Browser.intervals (browser w) ->
  heartbeatTimer (this w') = heartbeatTimer (this w) ->
  isConnected (this w') = isConnected (this w) ->
  Invariant w -> Invariant w'.
Proof.
  intros Hc Ha Hs Hi Hh Hn [Hl Hm]. split.
  - intros s a Hin Hlive. rewrite Hc in Hin. rewrite Hs. apply (Hl s a Hin).
    unfold live, Browser.isAborted in *. now rewrite <- Ha.
  - unfold oneMonitor in *. now rewrite Hi, Hh, Hn.
Qed.

Lemma state_modify_bind {A : Type} (f : World -> World) (m : Method A) (w : World) :
  state ((modify f ;; m)%method w) = state (m (f w))
  /\ trace ((modify f ;; m)%method w) = trace (m (f w)).
Proof.
  unfold bind, modify, state, trace. destruct (m (f w)) as [[a s] t]. auto.
Qed.

Lemma cleanup_silent (w : World) : cleanup w = (tt, state (cleanup w), []).
Proof. open_world w. destruct c, h, r; reflexivity. Qed.

Lemma Invariant_close (w : World) :
  Invariant w -> Invariant (state (close w)).
Proof.
  intro H. destruct (Invariant_cleanup w H) as [H' _]. cbn zeta in H'.
  unfold close, bind, invoke. rewrite cleanup_silent. exact H'.
Qed.

Lemma connect_state (w : World) :
  let w1 := state (cleanup w) in
  let signal := Browser.nextHandle (browser w1) in
  connect w
  = (tt,
     mkWorld (set_abortController (Some signal) (this w1))
       (snd (Browser.fresh (browser w1)))
       (Browser.removeHandle signal (calls w1) ++ [(signal, awaitingFetch)]),
     [onConnectionStatus connecting]).
Proof.
  cbn zeta. unfold connect, bind at 1. rewrite cleanup_silent.
  destruct (state (cleanup w)) as [c b k]. reflexivity.
Qed.

Lemma Invariant_connect (w : World) :
  Invariant w -> Invariant (state (connect w)).
Proof.
  intro H. destruct (Invariant_cleanup w H) as ([_ Hm] & _ & _ & Hdead).
  cbn zeta in Hm, Hdead. pose proof (connect_state w) as E. cbn zeta in E.
  set (w1 := state (cleanup w)) in *. rewrite E. clear E. clearbody w1.
  unfold state. cbn [fst snd]. destruct w1 as [c b k]. split.
  - intros s a Hin Hlive. cbn [calls] in Hin. apply in_app_or in Hin.
    destruct Hin as [Hin|[Hin|[]]].
    + apply removeHandle_In in Hin. specialize (Hdead s a Hin).
      destruct b. unfold live in *. cbn in Hdead, Hlive. congruence.
    + injection Hin as <- <-. destruct c. reflexivity.
  - destruct c, b. exact Hm.
Qed.

Lemma Invariant_finish (signal : positive) (w : World) :
  Invariant w ->
  Invariant (mkWorld (this w) (browser w) (Browser.removeHandle signal (calls w))).
Proof.
  intros [Hl Hm]. split; [|exact Hm].
  intros s a Hin Hlive. apply removeHandle_In in Hin. exact (Hl s a Hin Hlive).
Qed.

Lemma Invariant_suspend (signal : positive) (at_ : Suspended) (w : World) :
  abortController (this w) = Some signal ->
  Invariant w ->
  Invariant (mkWorld (this w) (browser w)
               (Browser.removeHandle signal (calls w) ++ [(signal, at_)])).
Proof.
  intros Hs [Hl Hm]. split; [|exact Hm].
  intros s a Hin Hlive. cbn [calls] in Hin. apply in_app_or in Hin.
  destruct Hin as [Hin|[Hin|[]]].
  - apply removeHandle_In in Hin. exact (Hl s a Hin Hlive).
  - injection Hin as <- <-. exact Hs.
Qed.

Lemma Invariant_handleConnectionError (error : Error.t) (w : World) :
  Invariant w -> Invariant (state (handleConnectionError error w)).
Proof.
  open_world w. intros [Hl [Hi Hc]]. cbn in Hi, Hc. subst ivs i.
  destruct h; run_method; destruct (Z.of_nat n <? _); cbn;
    (split; [exact Hl | split; cbn; now rewrite ?Pos.eqb_refl]).
Qed.

Lemma Invariant_connect_catch (error : Error.t) (w : World) :
  Invariant w -> Invariant (state (connect_catch error w)).
Proof.
  intro H. unfold connect_catch.
  destruct (eqb (Error.name error) (lit "AbortError")); [exact H|].
  now apply Invariant_handleConnectionError.
Qed.

Lemma Invariant_connect_onResponse (signal : positive) (response : Response)
    (w : World) :
  abortController (this w) = Some signal ->
  Invariant w -> Invariant (state (connect_onResponse signal response w)).
Proof.
  intros Hs H. unfold connect_onResponse.
  destruct (negb (ok response)).
  { unfold finish. rewrite (proj1 (state_modify_bind _ _ w)).
    apply Invariant_connect_catch, Invariant_finish, H. }
  destruct (negb (hasBody response)).
  { unfold finish. rewrite (proj1 (state_modify_bind _ _ w)).
    apply Invariant_connect_catch, Invariant_finish, H. }
  pose proof (Invariant_suspend signal (awaitingRead TextDecoder.fresh []) w Hs H)
    as [Hl _].
  destruct H as [_ [Hi Hc]].
  open_world w. cbn in Hi, Hc, Hs. subst ivs i c.
  destruct h; run_method;
    (split; [exact Hl | split; cbn; now rewrite ?Pos.eqb_refl]).
Qed.

Lemma heartbeatCheck_cases (w : World) :
  heartbeatCheck w
  = if Options.heartbeatTimeoutMs (options (this w))
       <? Browser.now (browser w) - lastHeartbeat (this w)
    then handleConnectionError (newError (lit "Heartbeat timeout")) w
    else (tt, w, []).
Proof.
  unfold heartbeatCheck. step_method.
  destruct (_ <? _); [|reflexivity].
  destruct (handleConnectionError _ w) as [[[] w1] t1]. reflexivity.
Qed.

Lemma Invariant_heartbeatCheck (w : World) :
  Invariant w -> Invariant (state (heartbeatCheck w)).
Proof.
  intro H. rewrite heartbeatCheck_cases.
  destruct (_ <? _); [|exact H].
  now apply Invariant_handleConnectionError.
Qed.

Lemma reconnectNow_connect (w : World) :
  reconnectNow w
  = connect (mkWorld (set_reconnectAttempts (S (reconnectAttempts (this w)))
                        (this w))
               (browser w) (calls w)).
Proof.
  unfold reconnectNow. step_method.
  destruct (connect _) as [[[] w1] t1]. reflexivity.
Qed.

(** Every task keeps the invariant. *)
Lemma Invariant_run (task : Task) (w w' : World) (t : list Callback) :
  Invariant w -> run task w = Some (w', t) -> Invariant w'.
Proof.
  intros H R. destruct task as [| |ms|s resp|s err|s v|s|s err|s|h|h];
    cbn [run] in R.
  - injection R as <- _. now apply Invariant_connect.
  - injection R as <- _. now apply Invariant_close.
  - destruct (0 <=? ms); [|discriminate]. injection R as <- _.
    revert H. apply Invariant_ext; reflexivity.
  - destruct (suspendedAt s w) as [[|]|] eqn:E; try discriminate.
    destruct (live s w) eqn:L; [|discriminate]. injection R as <- _.
    apply Invariant_connect_onResponse; [|exact H].
    exact (proj1 H s _ (suspendedAt_In _ _ _ E) L).
  - destruct (suspendedAt s w) as [[|]|] eqn:E; try discriminate.
    destruct (live s w && _); [|discriminate]. injection R as <- _.
    unfold finish. rewrite (proj1 (state_modify_bind _ _ w)).
    apply Invariant_connect_catch, Invariant_finish, H.
  - destruct (suspendedAt s w) as [[|d b]|] eqn:E; try discriminate.
    destruct (live s w) eqn:L; [|discriminate]. injection R as <- _.
    pose proof (proj1 H s _ (suspendedAt_In _ _ _ E) L) as Hs.
    destruct (processChunk_frame d b v w) as (ev & l & Hw).
    unfold bind, suspend, modify.
    destruct (processChunk d b v w) as [[r w1] t1].
    unfold state in *. cbn [fst snd] in *. subst w1.
    apply (Invariant_suspend s); [destruct w as [[] ? ?]; exact Hs|].
    revert H. apply Invariant_ext; destruct w as [[] ? ?]; reflexivity.
  - destruct (suspendedAt s w) as [[|d b]|] eqn:E; try discriminate.
    destruct (live s w); [|discriminate]. injection R as <- _.
    apply Invariant_finish, H.
  - destruct (suspendedAt s w) as [[|d b]|] eqn:E; try discriminate.
    destruct (live s w && _); [|discriminate]. injection R as <- _.
    unfold finish. rewrite (proj1 (state_modify_bind _ _ w)).
    apply Invariant_connect_catch, Invariant_finish, H.
  - destruct (suspendedAt s w) as [a|] eqn:E; [|discriminate].
    destruct (live s w); [discriminate|]. injection R as <- _.
    unfold finish. rewrite (proj1 (state_modify_bind _ _ w)).
    apply Invariant_connect_catch, Invariant_finish, H.
  - destruct (Browser.hasHandle h _); [|discriminate]. injection R as <- _.
    now apply Invariant_heartbeatCheck.
  - destruct (Browser.hasHandle h _); [|discriminate]. injection R as <- _.
    unfold window. rewrite (proj1 (state_modify_bind _ _ w)).
    rewrite reconnectNow_connect. apply Invariant_connect.
    revert H. apply Invariant_ext; destruct w as [[] [] ?]; reflexivity.
Qed.

Lemma Invariant_runAll (tasks : list Task) :
  forall (w w' : World) (t : list Callback),
    Invariant w -> runAll tasks w = Some (w', t) -> Invariant w'.
Proof.
  induction tasks as [|task tasks IH]; intros w w' t H R; cbn [runAll] in R.
  - injection R as <- _. exact H.
  - destruct (run task w) as [[w1 t1]|] eqn:E; [|discriminate].
    destruct (runAll tasks w1) as [[w2 t2]|] eqn:E2; [|discriminate].
    injection R as <- _.
    exact (IH w1 w2 t2 (Invariant_run task w w1 t1 H E) E2).
Qed.

Lemma Invariant_start (url : jsstring) (o : FetchSSEOptions.t) (clock : Z)
    (rnd : nat -> Q) :
  Invariant (start url o clock rnd).
Proof. split; [intros s a []|split; reflexivity]. Qed.

(** Whatever the consumer, the network and the timers do to a client, in
    any order: a suspended call of [connect] whose signal is not aborted is
    the call of the present [abortController], so no two connections
    deliver at a time; the heartbeat monitor recorded in [heartbeatTimer]
    is the only interval that runs; and it runs exactly while
    [isConnected]. *)
Theorem one_live_stream_and_one_monitor :
  forall (tasks : list Task) (url : jsstring) (o : FetchSSEOptions.t)
         (clock : Z) (rnd : nat -> Q) (w : World) (t : list Callback),
    runAll tasks (start url o clock rnd) = Some (w, t) ->
    (forall (signal : positive) (at_ : Suspended),
        In (signal, at_) (calls w) -> live signal w = true ->
        abortController (this w) = Some signal)
    /\ Browser.intervals (browser w)
       = match heartbeatTimer (this w) with Some h => [(h, 5000)] | None => [] end
    /\ isConnected (this w)
       = match heartbeatTimer (this w) with Some _ => true | None => false end.
Proof.
  intros tasks url o clock rnd w t R.
  exact (Invariant_runAll tasks _ w t (Invariant_start url o clock rnd) R).
Qed.

Definition restartWhileStreaming : list Task :=
  [callConnect; fetchResolves 1 Scenario.http200; callConnect].

Lemma one_live_stream_and_one_monitor_witness :
  exists (w : World) (t : list Callback),
    runAll restartWhileStreaming Scenario.client = Some (w, t)
    /\ Browser.intervals (browser w)
       = match heartbeatTimer (this w) with Some h => [(h, 5000)] | None => [] end.
Proof.
  destruct (runAll restartWhileStreaming Scenario.client) as [[w t]|] eqn:E;
    [|vm_compute in E; discriminate].
  exists w, t. split; [reflexivity|].
  exact (proj1 (proj2 (one_live_stream_and_one_monitor restartWhileStreaming
                         (lit "/api/chat") Scenario.defaults 0 (fun _ => 1 # 2)
                         w t E))).
Defined.

(** ** [close()] when no reconnection timer was overwritten *)

(** A client at rest: no controller, no live call, no timer. *)
Definition atRest (w : World) : Prop :=
  abortController (this w) = None
  /\ (forall (signal : positive) (at_ : Suspended),
         In (signal, at_) (calls w) -> live signal w = false)
  /\ Browser.timeouts (browser w) = []
  /\ Browser.intervals (browser w) = [].

Definition isCallClose (task : Task) : bool :=
  match task with callClose => true | _ => false end.

Lemma removeHandle_all {A : Type} (h : positive) (l : list (positive * A)) :
  (forall e, In e l -> fst e = h) -> Browser.removeHandle h l = [].
Proof.
  induction l as [|e l IH]; intro H; [reflexivity|].
  cbn. rewrite (H e (or_introl eq_refl)), Pos.eqb_refl. cbn.
  apply IH. intros e' Hin. apply H. now right.
Qed.

Lemma atRest_close (w : World) :
  Invariant w ->
  (forall h d, In (h, d) (Browser.timeouts (browser w)) ->
               reconnectTimer (this w) = Some h) ->
  atRest (state (close w))
  /\ trace (close w) = [onConnectionStatus disconnected].
Proof.
  intros H Ht. destruct (Invariant_cleanup w H) as ([_ [Hi _]] & _ & Hc & Hdead).
  cbn zeta in Hi, Hc, Hdead.
  assert (Hts : Browser.timeouts (browser (state (cleanup w))) = []
                /\ heartbeatTimer (this (state (cleanup w))) = None).
  { open_world w. cbn in Ht.
    destruct r as [r0|].
    - assert (Browser.removeHandle r0 ts = []) as E.
      { apply removeHandle_all. intros [h' d] Hin.
        specialize (Ht h' d Hin). now injection Ht as ->. }
      unfold Browser.removeHandle in E.
      destruct c, h; run_method; rewrite E; auto.
    - assert (ts = []) as ->.
      { destruct ts as [|[h' d] ts]; [reflexivity|].
        specialize (Ht h' d (or_introl eq_refl)). discriminate. }
      destruct c, h; run_method; auto. }
  destruct Hts as [Hts Hh]. rewrite Hh in Hi.
  unfold close, bind, invoke. rewrite cleanup_silent. unfold state, trace in *.
  cbn [fst snd]. repeat split; assumption.
Qed.

Lemma atRest_run (task : Task) (w w' : World) (t : list Callback) :
  atRest w -> task <> callConnect -> run task w = Some (w', t) ->
  atRest w'
  /\ t = if isCallClose task then [onConnectionStatus disconnected] else [].
Proof.
  intros (Hc & Hdead & Hts & His) Hn R.
  assert (Hno : forall s a, suspendedAt s w = Some a -> live s w = false).
  { intros s a E. exact (Hdead s a (suspendedAt_In _ _ _ E)). }
  destruct task as [| |ms|s resp|s err|s v|s|s err|s|h|h]; cbn [run] in R;
    cbn [isCallClose].
  - now contradiction Hn.
  - injection R as <- <-.
    open_world w. cbn in Hc, Hts, His. subst c ts ivs.
    unfold atRest, live in *. cbn in Hdead |- *.
    destruct h, r; run_method; auto.
  - destruct (0 <=? ms); [|discriminate]. injection R as <- <-.
    open_world w. split; [|reflexivity]. exact (conj Hc (conj Hdead (conj Hts His))).
  - destruct (suspendedAt s w) as [[|]|] eqn:E; try discriminate.
    rewrite (Hno s _ E) in R. discriminate.
  - destruct (suspendedAt s w) as [[|]|] eqn:E; try discriminate.
    rewrite (Hno s _ E) in R. discriminate.
  - destruct (suspendedAt s w) as [[|]|] eqn:E; try discriminate.
    rewrite (Hno s _ E) in R. discriminate.
  - destruct (suspendedAt s w) as [[|]|] eqn:E; try discriminate.
    rewrite (Hno s _ E) in R. discriminate.
  - destruct (suspendedAt s w) as [[|]|] eqn:E; try discriminate.
    rewrite (Hno s _ E) in R. discriminate.
  - destruct (suspendedAt s w) as [a|] eqn:E; [|discriminate].
    rewrite (Hno s _ E) in R. injection R as <- <-.
    split; [|reflexivity]. open_world w.
    unfold atRest, live in *. cbn in Hc, Hdead, Hts, His |- *.
    repeat split; try assumption.
    intros s' a' Hin. apply removeHandle_In in Hin. exact (Hdead s' a' Hin).
  - rewrite His in R. discriminate.
  - rewrite Hts in R. discriminate.
Qed.

Lemma atRest_runAll (tasks : list Task) :
  forall (w w' : World) (t : list Callback),
    atRest w -> ~ In callConnect tasks -> runAll tasks w = Some (w', t) ->
    atRest w'
    /\ t = map (fun _ => onConnectionStatus disconnected)
             (filter isCallClose tasks).
Proof.
  induction tasks as [|task tasks IH]; intros w w' t H Hn R; cbn [runAll] in R.
  - injection R as <- <-. auto.
  - destruct (run task w) as [[w1 t1]|] eqn:E; [|discriminate].
    destruct (runAll tasks w1) as [[w2 t2]|] eqn:E2; [|discriminate].
    injection R as <- <-.
    assert (Hn1 : task <> callConnect) by (intros ->; apply Hn; now left).
    assert (Hn2 : ~ In callConnect tasks) by (intro; apply Hn; now right).
    destruct (atRest_run task w w1 t1 H Hn1 E) as [H1 ->].
    destruct (IH w1 w2 t2 H1 Hn2 E2) as [H2 ->].
    split; [exact H2|]. cbn [filter]. destruct (isCallClose task); reflexivity.
Qed.

(** [close()] is final when every pending timeout is the one recorded in
    [reconnectTimer]: the client is then at rest (no controller, no live
    call, no timer), and as long as the consumer does not call [connect()]
    again it stays at rest; the platform can do nothing to it but let time
    pass and settle the aborted calls, and the only callbacks are the
    [disconnected] of further calls of [close()]. *)
Theorem close_is_final_without_overwritten_timer :
  forall (before : list Task) (url : jsstring) (o : FetchSSEOptions.t)
         (clock : Z) (rnd : nat -> Q) (w : World) (t0 : list Callback),
    runAll before (start url o clock rnd) = Some (w, t0) ->
    (forall h d, In (h, d) (Browser.timeouts (browser w)) ->
                 reconnectTimer (this w) = Some h) ->
    trace (close w) = [onConnectionStatus disconnected]
    /\ forall (after : list Task) (w' : World) (t : list Callback),
         ~ In callConnect after ->
         runAll after (state (close w)) = Some (w', t) ->
         t = map (fun _ => onConnectionStatus disconnected)
               (filter isCallClose after)
         /\ abortController (this w') = None
         /\ (forall signal at_, In (signal, at_) (calls w') ->
                                live signal w' = false)
         /\ Browser.timeouts (browser w') = []
         /\ Browser.intervals (browser w') = [].
Proof.
  intros before url o clock rnd w t0 R Ht.
  pose proof (Invariant_runAll before _ w t0 (Invariant_start url o clock rnd) R)
    as H.
  destruct (atRest_close w H Ht) as [Hrest Htrace].
  split; [exact Htrace|].
  intros after w' t Hn R'.
  destruct (atRest_runAll after _ w' t Hrest Hn R') as [H' ->].
  split; [reflexivity|exact H'].
Qed.

Definition failedOnce : list Task :=
  [callConnect; fetchRejects 1 Scenario.networkError].

Lemma close_is_final_without_overwritten_timer_witness :
  exists (w : World) (t0 : list Callback) (w' : World),
    runAll failedOnce Scenario.client = Some (w, t0)
    /\ runAll [timePasses 60000; callClose] (state (close w))
       = Some (w', [onConnectionStatus disconnected])
    /\ Browser.timeouts (browser w') = [].
Proof.
  destruct (runAll failedOnce Scenario.client) as [[w t0]|] eqn:E;
    [|vm_compute in E; discriminate].
  pose proof E as E'. vm_compute in E'. injection E' as <- <-.
  match type of E with _ = Some (?W, ?T) => exists W, T end.
  assert (Ht : forall h d,
             In (h, d) [(2%positive, 1250%Q)] -> Some 2%positive = Some h).
  { intros h d [Hin|[]]. now injection Hin as <- _. }
  destruct (close_is_final_without_overwritten_timer failedOnce
              (lit "/api/chat") Scenario.defaults 0 (fun _ => 1 # 2) _ _ E Ht)
    as [_ Hafter].
  match goal with
  | |- exists w', _ /\ runAll ?after ?W = _ /\ _ =>
      destruct (runAll after W) as [[w' t]|] eqn:E2;
        [|vm_compute in E2; discriminate];
      assert (Hn : ~ In callConnect after)
        by (intros [H|[H|[]]]; discriminate);
      destruct (Hafter after w' t Hn E2) as (-> & _ & _ & Hts & _)
  end.
  exists w'. split; [reflexivity|]. split; [reflexivity|exact Hts].
Defined.

(** ** What reaches the parser *)

Ltac no_message :=
  let m := fresh "m" in let Hin := fresh "Hin" in
  intros m Hin; cbn in Hin;
  repeat (destruct Hin as [Hin|Hin]; [discriminate|]); exact Hin.

Lemma connect_keeps_event (w : World) :
  currentEvent (this (state (connect w))) = currentEvent (this w)
  /\ forall m, ~ In (onMessage m) (trace (connect w)).
Proof.
  open_world w. destruct c, h, r; run_method; (split; [reflexivity|no_message]).
Qed.

Lemma handleConnectionError_keeps_event (error : Error.t) (w : World) :
  currentEvent (this (state (handleConnectionError error w)))
  = currentEvent (this w)
  /\ forall m, ~ In (onMessage m) (trace (handleConnectionError error w)).
Proof.
  open_world w. destruct h; run_method; destruct (Z.of_nat n <? _); cbn;
    (split; [reflexivity|no_message]).
Qed.

Lemma connect_catch_keeps_event (error : Error.t) (w : World) :
  currentEvent (this (state (connect_catch error w))) = currentEvent (this w)
  /\ forall m, ~ In (onMessage m) (trace (connect_catch error w)).
Proof.
  unfold connect_catch.
  destruct (eqb (Error.name error) (lit "AbortError"));
    [split; [reflexivity|no_message]|].
  apply handleConnectionError_keeps_event.
Qed.

Lemma finish_then_catch_keeps_event (signal : positive) (error : Error.t)
    (w : World) :
  let r := (finish signal ;; connect_catch error)%method w in
  currentEvent (this (state r)) = currentEvent (this w)
  /\ forall m, ~ In (onMessage m) (trace r).
Proof.
  cbn zeta. unfold finish.
  destruct (state_modify_bind
              (fun w => mkWorld (this w) (browser w)
                          (Browser.removeHandle signal (calls w)))
              (connect_catch error) w) as [-> ->].
  apply (connect_catch_keeps_event error
           (mkWorld (this w) (browser w) (Browser.removeHandle signal (calls w)))).
Qed.

(** The pending event is a field of the client, and only the lines of a
    chunk touch it: no other task changes it or invokes [onMessage], not
    [close()], not [connect()], not an error, not a reconnection. The data
    lines of a frame that a lost connection cut short are still pending
    when the next connection delivers its first frame. *)
Theorem pending_event_outlives_the_connection :
  forall (task : Task) (w w' : World) (t : list Callback),
    run task w = Some (w', t) ->
    (forall signal value, task <> readResolves signal value) ->
    currentEvent (this w') = currentEvent (this w)
    /\ forall m, ~ In (onMessage m) t.
Proof.
  intros task w w' t R Hn.
  destruct task as [| |ms|s resp|s err|s v|s|s err|s|h|h]; cbn [run] in R.
  - injection R as <- <-. apply connect_keeps_event.
  - injection R as <- <-.
    open_world w. destruct c, h, r; run_method; (split; [reflexivity|no_message]).
  - destruct (0 <=? ms); [|discriminate]. injection R as <- <-.
    split; [reflexivity|no_message].
  - destruct (suspendedAt s w) as [[|]|]; try discriminate.
    destruct (live s w); [|discriminate]. injection R as <- <-.
    unfold connect_onResponse.
    destruct (negb (ok resp)); [apply finish_then_catch_keeps_event|].
    destruct (negb (hasBody resp)); [apply finish_then_catch_keeps_event|].
    open_world w. destruct h; run_method; (split; [reflexivity|no_message]).
  - destruct (suspendedAt s w) as [[|]|]; try discriminate.
    destruct (live s w && _); [|discriminate]. injection R as <- <-.
    apply finish_then_catch_keeps_event.
  - now contradiction (Hn s v).
  - destruct (suspendedAt s w) as [[|]|]; try discriminate.
    destruct (live s w); [|discriminate]. injection R as <- <-.
    split; [reflexivity|no_message].
  - destruct (suspendedAt s w) as [[|]|]; try discriminate.
    destruct (live s w && _); [|discriminate]. injection R as <- <-.
    apply finish_then_catch_keeps_event.
  - destruct (suspendedAt s w) as [a|]; [|discriminate].
    destruct (live s w); [discriminate|]. injection R as <- <-.
    apply finish_then_catch_keeps_event.
  - destruct (Browser.hasHandle h _); [|discriminate]. injection R as <- <-.
    rewrite heartbeatCheck_cases.
    destruct (_ <? _); [apply handleConnectionError_keeps_event|].
    split; [reflexivity|no_message].
  - destruct (Browser.hasHandle h _); [|discriminate]. injection R as <- <-.
    unfold window.
    destruct (state_modify_bind
                (fun w => mkWorld (this w)
                            (Browser.clearTimeout h (browser w)) (calls w))
                reconnectNow w) as [-> ->].
    rewrite reconnectNow_connect.
    match goal with
    | |- context [connect ?W] =>
        destruct (connect_keeps_event W) as [E1 E2]; rewrite E1; split;
          [destruct w as [[] ? ?]; reflexivity | exact E2]
    end.
Qed.

(** A frame half received: its first data line is pending. *)
Definition halfFrame : World :=
  state (forEach [lit "data: a"] processSSELine Scenario.client).

Lemma pending_event_outlives_the_connection_witness :
  currentEvent (this (state (close halfFrame)))
  = ParsedSSEEvent.mk None (Some (lit "a\n")) None None.
Proof.
  assert (R : run callClose halfFrame
              = Some (state (close halfFrame), trace (close halfFrame)))
    by reflexivity.
  assert (Hn : forall signal value, callClose <> readResolves signal value)
    by (intros; discriminate).
  exact (proj1 (pending_event_outlives_the_connection callClose halfFrame
                  _ _ R Hn)).
Defined.

(** ** The end of the stream *)

(** When the server ends the stream, the client invokes nothing and
    changes nothing: it stays connected and the monitor keeps running. The
    end is noticed by the heartbeat check alone, once the last line is more
    than [heartbeatTimeoutMs] old, and is reported as the error
    [Heartbeat timeout], followed by [reconnecting] (the attempt counter is
    0 in a connected client, so the status is [disconnected] only when
    [maxReconnectAttempts] is negative). *)
Theorem end_of_stream_is_noticed_by_the_monitor :
  forall (before : list Task) (url : jsstring) (o : FetchSSEOptions.t)
         (clock : Z) (rnd : nat -> Q) (w : World) (t0 : list Callback)
         (signal : positive) (decoder : TextDecoder.t) (buffer : jsstring)
         (ms : Z),
    runAll before (start url o clock rnd) = Some (w, t0) ->
    suspendedAt signal w = Some (awaitingRead decoder buffer) ->
    live signal w = true ->
    isConnected (this w) = true ->
    0 <= ms ->
    Options.heartbeatTimeoutMs (options (this w))
      < Browser.now (browser w) + ms - lastHeartbeat (this w) ->
    exists (h : positive) (w1 w2 : World),
      heartbeatTimer (this w) = Some h
      /\ run (readDone signal) w = Some (w1, [])
      /\ this w1 = this w /\ browser w1 = browser w
      /\ runAll [timePasses ms; intervalFires h] w1
         = Some (w2,
                 [onError (newError (lit "Heartbeat timeout"));
                  onConnectionStatus
                    (if Z.of_nat (reconnectAttempts (this w))
                        <? Options.maxReconnectAttempts (options (this w))
                     then reconnecting else disconnected)]).
Proof.
  intros before url o clock rnd w t0 signal d b ms R E L C Hms Hsilent.
  pose proof (Invariant_runAll before _ w t0 (Invariant_start url o clock rnd) R)
    as [_ [Hi Hc]].
  rewrite C in Hc. destruct (heartbeatTimer (this w)) as [h|] eqn:Eh;
    [|discriminate].
  set (w1 := mkWorld (this w) (browser w) (Browser.removeHandle signal (calls w))).
  set (later := mkWorld (this w1) (Browser.elapse ms (browser w1)) (calls w1)).
  exists h, w1, (state (heartbeatCheck later)).
  split; [reflexivity|].
  split; [cbn [run]; rewrite E, L; reflexivity|].
  split; [reflexivity|]. split; [reflexivity|].
  assert (Hrun1 : run (timePasses ms) w1 = Some (later, [])).
  { cbn [run]. apply Z.leb_le in Hms. now rewrite Hms. }
  assert (Hrun2 : run (intervalFires h) later
                  = Some (state (heartbeatCheck later),
                          trace (heartbeatCheck later))).
  { cbn [run]. subst later w1. cbn [browser Browser.elapse Browser.intervals].
    rewrite Hi. cbn. now rewrite Pos.eqb_refl. }
  cbn [runAll]. rewrite Hrun1, Hrun2. cbn [app]. rewrite app_nil_r.
  f_equal. f_equal.
  rewrite heartbeatCheck_cases. subst later w1.
  cbn [this browser Browser.elapse Browser.now].
  apply Z.ltb_lt in Hsilent. rewrite Hsilent.
  open_world w. cbn in Eh. subst.
  run_method. destruct (Z.of_nat n <? _); reflexivity.
Qed.

Definition streaming : list Task :=
  [callConnect; fetchResolves 1 Scenario.http200].

Lemma end_of_stream_is_noticed_by_the_monitor_witness :
  exists w w1 w2 : World,
    runAll streaming Scenario.client
    = Some (w, [onConnectionStatus connecting; onConnectionStatus connected])
    /\ run (readDone 1) w = Some (w1, [])
    /\ runAll [timePasses 20000; intervalFires 2] w1
       = Some (w2, [onError (newError (lit "Heartbeat timeout"));
                    onConnectionStatus reconnecting]).
Proof.
  destruct (runAll streaming Scenario.client) as [[w t0]|] eqn:E;
    [|vm_compute in E; discriminate].
  pose proof E as E'. vm_compute in E'. injection E' as <- <-.
  match type of E with
  | _ = Some (?W, _) =>
      assert (Hms : 0 <= 20000) by lia;
      assert (Hsilent : Options.heartbeatTimeoutMs (options (this W))
                        < Browser.now (browser W) + 20000
                          - lastHeartbeat (this W)) by (cbn; lia);
      destruct (end_of_stream_is_noticed_by_the_monitor streaming
                  (lit "/api/chat") Scenario.defaults 0 (fun _ => 1 # 2)
                  W _ 1%positive TextDecoder.fresh [] 20000
                  E eq_refl eq_refl eq_refl Hms Hsilent)
        as (h & w1 & w2 & Hh & H1 & _ & _ & H2);
      exists W, w1, w2
  end.
  cbn in Hh. injection Hh as <-.
  split; [reflexivity|]. split; [exact H1 | exact H2].
Defined.

(* ===================================================================== *)
(** * The POST client when every request fails *)
(* ===================================================================== *)

(** The request of the present [abortController] is rejected; the timer
    in [reconnectTimer] fires. *)
Definition rejectCurrent (error : Error.t) (w : World)
  : option (World * list Callback) :=
  match abortController (this w) with
  | Some signal => run (fetchRejects signal error) w
  | None => None
  end.

Definition fireReconnect (w : World) : option (World * list Callback) :=
  match reconnectTimer (this w) with
  | Some h => run (timeoutFires h) w
  | None => None
  end.

(** [rounds] times: the request fails, and the reconnection timer fires. *)
Fixpoint failing (rounds : nat) (error : Error.t) (w : World)
  : option (World * list Callback) :=
  match rounds with
  | O => Some (w, [])
  | S rounds =>
      match rejectCurrent error w with
      | Some (w1, t1) =>
          match fireReconnect w1 with
          | Some (w2, t2) =>
              match failing rounds error w2 with
              | Some (w3, t3) => Some (w3, t1 ++ t2 ++ t3)
              | None => None
              end
          | None => None
          end
      | None => None
      end
  end.

(** A client with one request under way, after [attempts] reconnections
    in a row. *)
Definition requesting (o : Options.t) (attempts : nat) (w : World) : Prop :=
  options (this w) = o
  /\ reconnectAttempts (this w) = attempts
  /\ heartbeatTimer (this w) = None
  /\ Browser.timeouts (browser w) = []
  /\ Browser.intervals (browser w) = []
  /\ exists signal,
       abortController (this w) = Some signal
       /\ calls w = [(signal, awaitingFetch)]
       /\ (signal < Browser.nextHandle (browser w))%positive
       /\ forall a, In a (Browser.aborted (browser w)) -> (a < signal)%positive.

Lemma not_aborted (x : positive) (l : list positive) :
  (forall a, In a l -> (a < x)%positive) -> existsb (Pos.eqb x) l = false.
Proof.
  induction l as [|a l IH]; intro H; [reflexivity|].
  cbn. rewrite IH by (intros b Hb; apply H; now right).
  specialize (H a (or_introl eq_refl)).
  destruct (Pos.eqb_spec x a); [lia|reflexivity].
Qed.

Lemma requesting_connected (url : jsstring) (o : FetchSSEOptions.t) (clock : Z)
    (rnd : nat -> Q) :
  requesting (options (constructor url o)) 0
    (state (connect (start url o clock rnd))).
Proof.
  unfold requesting.
  split; [reflexivity|]. split; [reflexivity|]. split; [reflexivity|].
  split; [reflexivity|]. split; [reflexivity|]. exists 1%positive. cbn.
  split; [reflexivity|]. split; [reflexivity|]. split; [lia|intros a []].
Qed.

Lemma failing_round (o : Options.t) (error : Error.t) (attempts : nat)
    (w : World) :
  eqb (Error.name error) (lit "AbortError") = false ->
  requesting o attempts w ->
  Z.of_nat attempts < Options.maxReconnectAttempts o ->
  exists w1 w2,
    rejectCurrent error w
    = Some (w1, [onError error; onConnectionStatus reconnecting])
    /\ fireReconnect w1 = Some (w2, [onConnectionStatus connecting])
    /\ requesting o (S attempts) w2.
Proof.
  intros Hname (Ho & Hn & Hh & Hts & Hiv & s & Hc & Hcs & Hs & Hab) Hlt.
  open_world w. cbn in Ho, Hn, Hh, Hts, Hiv, Hc, Hcs, Hs, Hab. subst.
  assert (Hlive : existsb (Pos.eqb s) ab = false) by now apply not_aborted.
  apply Z.ltb_lt in Hlt.
  pose proof Hname as Hname'. cbn in Hname'.
  eexists. eexists. split.
  { unfold rejectCurrent. cbn [this abortController run].
    unfold suspendedAt, live, Browser.isAborted. cbn. rewrite Pos.eqb_refl.
    cbn. rewrite Hlive, Hname'. cbn.
    unfold finish, connect_catch. rewrite Hname. run_method. rewrite Hlt.
    cbn. reflexivity. }
  split.
  { unfold fireReconnect. cbn. rewrite Pos.eqb_refl. cbn.
    run_method. reflexivity. }
  unfold requesting. cbn.
  split; [reflexivity|]. split; [reflexivity|]. split; [reflexivity|].
  split; [reflexivity|]. split; [reflexivity|]. exists (Pos.succ nh).
  split; [reflexivity|]. split; [reflexivity|]. split; [lia|].
  intros a [<-|Ha]; [lia|]. specialize (Hab a Ha). lia.
Qed.

Lemma failing_last (o : Options.t) (error : Error.t) (attempts : nat)
    (w : World) :
  eqb (Error.name error) (lit "AbortError") = false ->
  requesting o attempts w ->
  Options.maxReconnectAttempts o <= Z.of_nat attempts ->
  exists w1,
    rejectCurrent error w
    = Some (w1, [onError error; onConnectionStatus disconnected])
    /\ Browser.timeouts (browser w1) = []
    /\ Browser.intervals (browser w1) = [] /\ calls w1 = [].
Proof.
  intros Hname (Ho & Hn & Hh & Hts & Hiv & s & Hc & Hcs & Hs & Hab) Hge.
  open_world w. cbn in Ho, Hn, Hh, Hts, Hiv, Hc, Hcs, Hs, Hab. subst.
  assert (Hlive : existsb (Pos.eqb s) ab = false) by now apply not_aborted.
  apply Z.ltb_ge in Hge.
  pose proof Hname as Hname'. cbn in Hname'.
  eexists. split.
  { unfold rejectCurrent. cbn [this abortController run].
    unfold suspendedAt, live, Browser.isAborted. cbn. rewrite Pos.eqb_refl.
    cbn. rewrite Hlive, Hname'. cbn.
    unfold finish, connect_catch. rewrite Hname. run_method. rewrite Hge.
    cbn. reflexivity. }
  cbn. repeat split.
Qed.

Lemma failing_rounds (o : Options.t) (error : Error.t) (rounds : nat) :
  eqb (Error.name error) (lit "AbortError") = false ->
  forall (attempts : nat) (w : World),
    requesting o attempts w ->
    Z.of_nat (attempts + rounds) <= Z.max 0 (Options.maxReconnectAttempts o) ->
    exists w',
      failing rounds error w
      = Some (w', concat (repeat [onError error; onConnectionStatus reconnecting;
                                  onConnectionStatus connecting] rounds))
      /\ requesting o (attempts + rounds) w'.
Proof.
  intro Hname. induction rounds as [|rounds IH]; intros attempts w H Hle.
  - exists w. rewrite Nat.add_0_r. split; [reflexivity|exact H].
  - assert (Hlt : Z.of_nat attempts < Options.maxReconnectAttempts o) by lia.
    destruct (failing_round o error attempts w Hname H Hlt)
      as (w1 & w2 & E1 & E2 & H2).
    assert (Hle' : Z.of_nat (S attempts + rounds)
                   <= Z.max 0 (Options.maxReconnectAttempts o)) by lia.
    destruct (IH (S attempts) w2 H2 Hle') as (w' & E & H').
    exists w'. cbn [failing]. rewrite E1, E2, E.
    split; [reflexivity|]. now rewrite Nat.add_succ_r.
Qed.

(** When every request fails, a client whose [maxReconnectAttempts] is [m]
    reconnects [m] times (not at all if [m] is negative): each failure is
    reported through [onError] and followed by [reconnecting] and, when the
    timer fires, by [connecting]; the failure of the last request is
    reported and followed by [disconnected], and then nothing is left: no
    timer, no request, no monitor. So a client makes [m + 1] requests in
    all. *)
Theorem failing_requests_end_after_max_reconnections :
  forall (url : jsstring) (o : FetchSSEOptions.t) (clock : Z) (rnd : nat -> Q)
         (error : Error.t),
    eqb (Error.name error) (lit "AbortError") = false ->
    let m := Z.to_nat (Options.maxReconnectAttempts (options (constructor url o))) in
    exists w w' : World,
      failing m error (state (connect (start url o clock rnd)))
      = Some (w, concat (repeat [onError error; onConnectionStatus reconnecting;
                                 onConnectionStatus connecting] m))
      /\ reconnectAttempts (this w) = m
      /\ rejectCurrent error w
         = Some (w', [onError error; onConnectionStatus disconnected])
      /\ Browser.timeouts (browser w') = []
      /\ Browser.intervals (browser w') = []
      /\ calls w' = [].
Proof.
  intros url o clock rnd error Hname m.
  set (opts := options (constructor url o)) in *.
  assert (Hle : Z.of_nat (0 + m) <= Z.max 0 (Options.maxReconnectAttempts opts))
    by (subst m; lia).
  destruct (failing_rounds opts error m Hname 0%nat _
              (requesting_connected url o clock rnd) Hle) as (w & E & H).
  assert (Hge : Options.maxReconnectAttempts opts <= Z.of_nat (0 + m))
    by (subst m; lia).
  destruct (failing_last opts error (0 + m) w Hname H Hge)
    as (w' & E' & Hts & Hiv & Hcs).
  exists w, w'. split; [exact E|]. split; [exact (proj1 (proj2 H))|].
  split; [exact E'|]. split; [exact Hts|]. split; [exact Hiv|exact Hcs].
Qed.

Lemma failing_requests_end_after_max_reconnections_witness :
  exists w w' : World,
    failing 5 Scenario.networkError (state (connect Scenario.client))
    = Some (w, concat (repeat [onError Scenario.networkError;
                               onConnectionStatus reconnecting;
                               onConnectionStatus connecting] 5))
    /\ rejectCurrent Scenario.networkError w
       = Some (w', [onError Scenario.networkError;
                    onConnectionStatus disconnected])
    /\ Browser.timeouts (browser w') = [].
Proof.
  assert (Hname : eqb (Error.name Scenario.networkError) (lit "AbortError")
                  = false) by reflexivity.
  destruct (failing_requests_end_after_max_reconnections (lit "/api/chat")
              Scenario.defaults 0 (fun _ => 1 # 2) Scenario.networkError Hname)
    as (w & w' & E & _ & E' & Hts & _).
  exists w, w'. split; [exact E|]. split; [exact E'|exact Hts].
Defined.

(* ===================================================================== *)
(** * The parser of the hook over chunks *)
(* ===================================================================== *)

Lemma startsWith_app_fits (p : jsstring) :
  forall s t : jsstring,
    (length p <= length s)%nat -> startsWith (s ++ t) p = startsWith s p.
Proof.
  induction p as [|x p IH]; intros s t H; [reflexivity|].
  destruct s as [|y s]; [cbn in H; lia|].
  cbn [app startsWith]. rewrite IH; [reflexivity|]. cbn in H. lia.
Qed.

(** An occurrence found in [s] is still the first one in [s ++ t]. *)
Lemma indexOf_app_found (s t p : jsstring) :
  0 <= indexOf s p -> indexOf (s ++ t) p = indexOf s p.
Proof.
  induction s as [|c s IH]; cbn [indexOf app].
  - destruct (startsWith [] p) eqn:E; [|lia]. intros _.
    destruct p; [|discriminate].
    destruct t; reflexivity.
  - destruct (startsWith (c :: s) p) eqn:E.
    + intros _. destruct (startsWith_prefix _ _ E) as [r Hr].
      change (c :: s ++ t) with ((c :: s) ++ t).
      rewrite Hr, <- app_assoc, startsWith_app. reflexivity.
    + destruct (indexOf s p <? 0) eqn:E'; [lia|]. intros _.
      apply Z.ltb_ge in E'. pose proof (indexOf_bound s p E') as Hb.
      change (c :: s ++ t) with ((c :: s) ++ t).
      rewrite startsWith_app_fits by (cbn [length]; lia).
      rewrite E, (IH E'). apply Z.ltb_ge in E'. now rewrite E'.
Qed.

Section HookChunks.

Variable Chunk : Type.
Variable JSON_parse : jsstring -> option Chunk.
Variable chunk_type : Chunk -> jsstring.

Let frames := Hook.frames Chunk JSON_parse chunk_type.
Let readLoop := Hook.readLoop Chunk JSON_parse chunk_type.
Let processSSEStream := Hook.processSSEStream Chunk JSON_parse chunk_type.

(** The first frame of a buffer, when it has one, is the first frame of
    the buffer with more text behind it. *)
Lemma first_frame_app (buf text : jsstring) :
  0 <= indexOf buf (lit "\n\n") ->
  indexOf (buf ++ text) (lit "\n\n") = indexOf buf (lit "\n\n")
  /\ slice (buf ++ text) 0 (Some (indexOf buf (lit "\n\n")))
     = slice buf 0 (Some (indexOf buf (lit "\n\n")))
  /\ slice (buf ++ text) (indexOf buf (lit "\n\n") + 2) None
     = slice buf (indexOf buf (lit "\n\n") + 2) None ++ text
  /\ (length (slice buf (indexOf buf (lit "\n\n") + 2) None) < length buf)%nat.
Proof.
  intro H. pose proof (indexOf_bound buf (lit "\n\n") H) as Hb.
  change (Z.of_nat (length (lit "\n\n"))) with 2 in Hb.
  split; [now apply indexOf_app_found|].
  split; [apply slice_prefix_app; lia|].
  split; [apply slice_suffix_app; lia|].
  assert (H0 : 0 <= indexOf buf (lit "\n\n") + 2 <= Z.of_nat (length buf)) by lia.
  pose proof (slice_rest_length buf _ H0). lia.
Qed.

(** Once the inner loop has left by [return], on the [DONE] marker, text
    behind the marker changes nothing but the buffer that is thrown
    away. *)
Lemma frames_returned_app (turns : nat) :
  forall (buf text buf1 : jsstring) (calls1 : list (Hook.HandlerCall Chunk))
         (more : nat),
    (length buf < turns)%nat -> (length (buf ++ text) < more)%nat ->
    frames turns buf = (buf1, calls1, Hook.returned) ->
    frames more (buf ++ text) = (buf1 ++ text, calls1, Hook.returned).
Proof.
  unfold frames.
  induction turns as [|turns IH]; intros buf text buf1 calls1 more Ht Hm; [lia|].
  destruct more as [|more]; [lia|].
  cbn [Hook.frames].
  destruct (0 <=? indexOf buf (lit "\n\n")) eqn:E; [|discriminate].
  apply Z.leb_le in E.
  destruct (first_frame_app buf text E) as (-> & -> & -> & Hl).
  apply Z.leb_le in E. rewrite E.
  set (rest := slice buf (indexOf buf (lit "\n\n") + 2) None) in *.
  assert (Ht' : (length rest < turns)%nat) by lia.
  assert (Hm' : (length (rest ++ text) < more)%nat).
  { rewrite length_app in *. lia. }
  destruct (Hook.parseFrame _) as [event data].
  destruct (eqb event (lit "ping")).
  { destruct (Hook.frames Chunk JSON_parse chunk_type turns rest)
      as [[b c] f] eqn:F.
    intro H. injection H as <- <- ->.
    now rewrite (IH rest text b c more Ht' Hm' F). }
  destruct (eqb data (lit "[DONE]")).
  { intro H. now injection H as <- <-. }
  destruct (eqb data [] || eqb data (lit "{}")).
  { intro F. exact (IH rest text buf1 calls1 more Ht' Hm' F). }
  destruct (JSON_parse data) as [chunk|].
  - destruct (eqb (chunk_type chunk) (lit "done")); [discriminate|].
    destruct (Hook.frames Chunk JSON_parse chunk_type turns rest)
      as [[b c] f] eqn:F.
    intro H. injection H as <- <- ->.
    now rewrite (IH rest text b c more Ht' Hm' F).
  - intro F. exact (IH rest text buf1 calls1 more Ht' Hm' F).
Qed.

(** The [DONE] marker ends the stream however the bytes behind it arrive:
    when the frames of a chunk take the loop to its [return], the same
    handlers are invoked whatever bytes follow in the same chunk and
    whatever is read afterwards. *)
Theorem done_marker_ends_the_stream :
  forall (decoder : TextDecoder.t) (buf : jsstring) (bytes : list Z),
    let text := snd (TextDecoder.decode decoder bytes) in
    snd (frames (S (length (buf ++ text))) (buf ++ text)) = Hook.returned ->
    forall (behind : list Z) (rest rest' : list Hook.ReadResult),
      readLoop decoder buf (Hook.value false (bytes ++ behind) :: rest)
      = readLoop decoder buf (Hook.value false bytes :: rest').
Proof.
  intros decoder buf bytes text Hret behind rest rest'. subst text.
  unfold readLoop. cbn [Hook.readLoop]. rewrite decode_app.
  destruct (TextDecoder.decode decoder bytes) as [d1 s1].
  destruct (TextDecoder.decode d1 behind) as [d2 s2].
  cbn [snd] in Hret. fold frames.
  destruct (frames (S (length (buf ++ s1))) (buf ++ s1)) as [[b1 c1] f1] eqn:F.
  cbn [snd] in Hret. subst f1.
  rewrite app_assoc.
  rewrite (frames_returned_app _ (buf ++ s1) s2 b1 c1
             (S (length ((buf ++ s1) ++ s2))) (Nat.lt_succ_diag_r _)
             (Nat.lt_succ_diag_r _) F).
  reflexivity.
Qed.

(** The buffer the inner loop leaves is never longer than the one it
    got. *)
Lemma frames_shrinks (turns : nat) :
  forall buf : jsstring,
    (length (fst (fst (frames turns buf))) <= length buf)%nat.
Proof.
  unfold frames.
  induction turns as [|turns IH]; intro buf; [cbn; lia|].
  cbn [Hook.frames].
  destruct (0 <=? indexOf buf (lit "\n\n")) eqn:E; [|cbn; lia].
  apply Z.leb_le in E.
  destruct (first_frame_app buf [] E) as (_ & _ & _ & Hl).
  set (rest := slice buf (indexOf buf (lit "\n\n") + 2) None) in *.
  specialize (IH rest).
  destruct (Hook.parseFrame _) as [event data].
  destruct (Hook.frames Chunk JSON_parse chunk_type turns rest) as [[b c] f].
  cbn [fst] in IH.
  destruct (eqb event (lit "ping")); [cbn; lia|].
  destruct (eqb data (lit "[DONE]")); [cbn; lia|].
  destruct (eqb data [] || eqb data (lit "{}")); [cbn; lia|].
  destruct (JSON_parse data) as [chunk|]; [|cbn; lia].
  destruct (eqb (chunk_type chunk) (lit "done")); cbn; lia.
Qed.

(** ** Streams without a done chunk *)

(** The frames of a text: what the inner loop cuts off, one after the
    other, when nothing makes it leave. *)
Fixpoint framesOf (turns : nat) (buf : jsstring) : list jsstring :=
  match turns with
  | O => []
  | S turns =>
      let idx := indexOf buf (lit "\n\n") in
      if 0 <=? idx
      then slice buf 0 (Some idx) :: framesOf turns (slice buf (idx + 2) None)
      else []
  end.

(** The frame's data is read by [JSON.parse] as an object of type
    ["done"]. *)
Definition isDoneFrame (frame : jsstring) : bool :=
  match JSON_parse (snd (Hook.parseFrame frame)) with
  | Some chunk => eqb (chunk_type chunk) (lit "done")
  | None => false
  end.

(** No frame of the text is a done frame. *)
Definition withoutDone (text : jsstring) : Prop :=
  forallb (fun frame => negb (isDoneFrame frame))
    (framesOf (S (length text)) text) = true.

Lemma framesOf_enough_turns (turns : nat) :
  forall (more : nat) (buf : jsstring),
    (length buf < turns)%nat -> (length buf < more)%nat ->
    framesOf turns buf = framesOf more buf.
Proof.
  induction turns as [|turns IH]; intros more buf Ht Hm; [lia|].
  destruct more as [|more]; [lia|].
  cbn [framesOf].
  destruct (0 <=? indexOf buf (lit "\n\n")) eqn:E; [|reflexivity].
  apply Z.leb_le in E.
  destruct (first_frame_app buf [] E) as (_ & _ & _ & Hl).
  f_equal. apply IH; lia.
Qed.

(** The frames of the beginning of a text are frames of the text. *)
Lemma framesOf_prefix (turns : nat) :
  forall (buf text : jsstring) (more : nat) (P : jsstring -> bool),
    (length buf < turns)%nat -> (length (buf ++ text) < more)%nat ->
    forallb P (framesOf more (buf ++ text)) = true ->
    forallb P (framesOf turns buf) = true.
Proof.
  induction turns as [|turns IH]; intros buf text more P Ht Hm H; [lia|].
  cbn [framesOf].
  destruct (0 <=? indexOf buf (lit "\n\n")) eqn:E; [|reflexivity].
  destruct more as [|more]; [lia|].
  cbn [framesOf] in H. apply Z.leb_le in E.
  destruct (first_frame_app buf text E) as (E1 & E2 & E3 & Hl).
  rewrite E1, E2, E3 in H. apply Z.leb_le in E. rewrite E in H.
  cbn [forallb] in H |- *. apply andb_prop in H as [H1 H2].
  rewrite H1. cbn [andb].
  apply (IH _ text more P); [lia| |exact H2].
  rewrite length_app in *. lia.
Qed.

Lemma withoutDone_prefix (buf text : jsstring) :
  withoutDone (buf ++ text) -> withoutDone buf.
Proof.
  unfold withoutDone. intro H.
  exact (framesOf_prefix (S (length buf)) buf text (S (length (buf ++ text))) _
           (Nat.lt_succ_diag_r _) (Nat.lt_succ_diag_r _) H).
Qed.

(** The inner loop on a text without done frames, with more text behind
    it: what it invokes on the text, and then what it invokes on the rest
    with the new text. *)
Lemma frames_app (turns : nat) :
  forall (buf text : jsstring) (more again : nat),
    (length buf < turns)%nat -> (length (buf ++ text) < more)%nat ->
    (length (buf ++ text) < again)%nat ->
    forallb (fun frame => negb (isDoneFrame frame))
      (framesOf more (buf ++ text)) = true ->
    frames more (buf ++ text)
    = let '(buf1, calls1, flow1) := frames turns buf in
      match flow1 with
      | Hook.returned => (buf1 ++ text, calls1, Hook.returned)
      | Hook.readOn =>
          let '(buf2, calls2, flow2) := frames again (buf1 ++ text) in
          (buf2, calls1 ++ calls2, flow2)
      end.
Proof.
  unfold frames.
  induction turns as [|turns IH]; intros buf text more again Ht Hm Ha Hnd;
    [lia|].
  cbn [Hook.frames].
  destruct (0 <=? indexOf buf (lit "\n\n")) eqn:E.
  2:{ rewrite (frames_enough_turns Chunk JSON_parse chunk_type more again
                 (buf ++ text) Hm Ha).
      now destruct (Hook.frames Chunk JSON_parse chunk_type again (buf ++ text))
        as [[b c] f]. }
  destruct more as [|more]; [lia|].
  cbn [Hook.frames]. cbn [framesOf] in Hnd.
  apply Z.leb_le in E.
  destruct (first_frame_app buf text E) as (E1 & E2 & E3 & Hl).
  rewrite E1, E2, E3 in Hnd |- *.
  apply Z.leb_le in E. rewrite E in Hnd |- *.
  cbn [forallb] in Hnd. apply andb_prop in Hnd as [Hfirst Hnd].
  set (rest := slice buf (indexOf buf (lit "\n\n") + 2) None) in *.
  assert (Ht' : (length rest < turns)%nat) by lia.
  assert (Hm' : (length (rest ++ text) < more)%nat).
  { rewrite length_app in *. lia. }
  assert (Ha' : (length (rest ++ text) < again)%nat).
  { rewrite length_app in *. lia. }
  pose proof (IH rest text more again Ht' Hm' Ha' Hnd) as IH'.
  unfold isDoneFrame in Hfirst.
  destruct (Hook.parseFrame _) as [event data]. cbn [snd] in Hfirst.
  destruct (Hook.frames Chunk JSON_parse chunk_type turns rest)
    as [[b1 c1] f1] eqn:F.
  destruct (eqb event (lit "ping")).
  { rewrite IH'. destruct f1; [|reflexivity].
    destruct (Hook.frames Chunk JSON_parse chunk_type again (b1 ++ text))
      as [[b2 c2] f2]. reflexivity. }
  destruct (eqb data (lit "[DONE]")); [reflexivity|].
  destruct (eqb data [] || eqb data (lit "{}")); [exact IH'|].
  destruct (JSON_parse data) as [chunk|] eqn:J; [|exact IH'].
  apply negb_true_iff in Hfirst. rewrite Hfirst.
  rewrite IH'. destruct f1; [|reflexivity].
  destruct (Hook.frames Chunk JSON_parse chunk_type again (b1 ++ text))
    as [[b2 c2] f2]. reflexivity.
Qed.

(** Two chunks in a row invoke what their concatenation invokes. *)
Lemma readLoop_merge (decoder : TextDecoder.t) (buf : jsstring)
    (b1 b2 : list Z) (rest : list Hook.ReadResult) :
  withoutDone (buf ++ snd (TextDecoder.decode decoder (b1 ++ b2))) ->
  readLoop decoder buf (Hook.value false b1 :: Hook.value false b2 :: rest)
  = readLoop decoder buf (Hook.value false (b1 ++ b2) :: rest).
Proof.
  unfold readLoop, withoutDone. cbn [Hook.readLoop]. rewrite decode_app.
  destruct (TextDecoder.decode decoder b1) as [d1 s1].
  destruct (TextDecoder.decode d1 b2) as [d2 s2].
  cbn [snd]. fold frames. rewrite (app_assoc buf s1 s2). intro Hnd.
  rewrite (frames_app (S (length (buf ++ s1))) (buf ++ s1) s2
             (S (length ((buf ++ s1) ++ s2))) (S (length ((buf ++ s1) ++ s2)))
             (Nat.lt_succ_diag_r _) (Nat.lt_succ_diag_r _)
             (Nat.lt_succ_diag_r _) Hnd).
  pose proof (frames_shrinks (S (length (buf ++ s1))) (buf ++ s1)) as Hs.
  destruct (frames (S (length (buf ++ s1))) (buf ++ s1)) as [[buf1 c1] f1].
  cbn [fst] in Hs.
  destruct f1; [|reflexivity].
  assert (Hlen : (length (buf1 ++ s2) < S (length ((buf ++ s1) ++ s2)))%nat).
  { rewrite !length_app in *. lia. }
  unfold frames.
  rewrite <- (frames_enough_turns Chunk JSON_parse chunk_type
                (S (length (buf1 ++ s2))) (S (length ((buf ++ s1) ++ s2)))
                (buf1 ++ s2) (Nat.lt_succ_diag_r _) Hlen).
  destruct (Hook.frames Chunk JSON_parse chunk_type (S (length (buf1 ++ s2)))
              (buf1 ++ s2)) as [[buf2 c2] f2].
  destruct f2; [|reflexivity]. now rewrite app_assoc.
Qed.

Lemma readLoop_concat (chunks : list (list Z)) :
  forall (decoder : TextDecoder.t) (buf : jsstring) (first : list Z)
         (rest : list Hook.ReadResult),
    withoutDone
      (buf ++ snd (TextDecoder.decode decoder (first ++ concat chunks))) ->
    readLoop decoder buf
      (Hook.value false first :: map (Hook.value false) chunks ++ rest)
    = readLoop decoder buf (Hook.value false (first ++ concat chunks) :: rest).
Proof.
  induction chunks as [|c chunks IH]; intros decoder buf first rest Hnd.
  - cbn [map concat app]. now rewrite app_nil_r.
  - cbn [map concat app] in *. rewrite app_assoc in Hnd.
    rewrite readLoop_merge.
    + rewrite (IH _ _ _ _ Hnd). now rewrite app_assoc.
    + rewrite decode_app in Hnd.
      destruct (TextDecoder.decode decoder (first ++ c)) as [d1 s1].
      destruct (TextDecoder.decode d1 (concat chunks)) as [d2 s2].
      cbn [snd] in *. rewrite app_assoc in Hnd.
      exact (withoutDone_prefix _ _ Hnd).
Qed.

(** Chunk-size invariance of the hook's parser, short of the [break]: when
    no frame of a stream carries a chunk object of type ["done"], the
    chunks of the stream invoke the handlers that their concatenation
    invokes as one chunk, wherever the cuts fall (inside a frame, a line, a
    line end or a character), and whatever is read after them. *)
Theorem processSSEStream_chunk_size_invariant_without_done :
  forall (chunks : list (list Z)) (rest : list Hook.ReadResult),
    withoutDone (snd (TextDecoder.decode TextDecoder.fresh (concat chunks))) ->
    processSSEStream (map (Hook.value false) chunks ++ rest)
    = processSSEStream (Hook.value false (concat chunks) :: rest).
Proof.
  intros chunks rest Hnd. unfold processSSEStream, Hook.processSSEStream.
  fold readLoop.
  destruct chunks as [|first chunks].
  - cbn [map concat app]. unfold readLoop. cbn. reflexivity.
  - cbn [map concat app] in *. now apply readLoop_concat.
Qed.

End HookChunks.

(** A [JSON.parse] that reads every text as an object of type
    ["token"]. *)
Definition everyTextIsAToken : jsstring -> option jsstring :=
  fun data => Some data.

Definition typeToken : jsstring -> jsstring := fun _ => lit "token".

Lemma done_marker_ends_the_stream_witness :
  Hook.readLoop jsstring everyTextIsAToken typeToken TextDecoder.fresh []
    [Hook.value false (utf8 "data: [DONE]\n\n" ++ utf8 "data: x\n\n")]
  = Hook.readLoop jsstring everyTextIsAToken typeToken TextDecoder.fresh []
      [Hook.value false (utf8 "data: [DONE]\n\n");
       Hook.value false (utf8 "data: y\n\n")].
Proof.
  apply (done_marker_ends_the_stream jsstring everyTextIsAToken typeToken
           TextDecoder.fresh [] (utf8 "data: [DONE]\n\n")).
  vm_compute. reflexivity.
Defined.

Lemma processSSEStream_chunk_size_invariant_without_done_witness :
  Hook.processSSEStream bool parseTwoChunks typeOfTwoChunks
    [Hook.value false (utf8 "data: {\qchunk_type\q:\qtoken\q}\n");
     Hook.value false (utf8 "\ndata: {\qchunk_type\q:\qto");
     Hook.value false (utf8 "ken\q}\n\n")]
  = Hook.processSSEStream bool parseTwoChunks typeOfTwoChunks
      [Hook.value false
         (concat [utf8 "data: {\qchunk_type\q:\qtoken\q}\n";
                  utf8 "\ndata: {\qchunk_type\q:\qto";
                  utf8 "ken\q}\n\n"])].
Proof.
  assert (H : withoutDone bool parseTwoChunks typeOfTwoChunks
                (snd (TextDecoder.decode TextDecoder.fresh
                        (concat [utf8 "data: {\qchunk_type\q:\qtoken\q}\n";
                                 utf8 "\ndata: {\qchunk_type\q:\qto";
                                 utf8 "ken\q}\n\n"]))))
    by (vm_compute; reflexivity).
  exact (processSSEStream_chunk_size_invariant_without_done bool
           parseTwoChunks typeOfTwoChunks
           [utf8 "data: {\qchunk_type\q:\qtoken\q}\n";
            utf8 "\ndata: {\qchunk_type\q:\qto";
            utf8 "ken\q}\n\n"] [] H).
Defined.

(** ** Streams without a blank line *)

Section HookWithoutBlankLine.

Variable Chunk : Type.
Variable JSON_parse : jsstring -> option Chunk.
Variable chunk_type : Chunk -> jsstring.

Lemma readLoop_without_blank_line (chunks : list (list Z)) :
  forall (decoder : TextDecoder.t) (buf : jsstring),
    indexOf (buf ++ snd (TextDecoder.decode decoder (concat chunks)))
      (lit "\n\n") < 0 ->
    Hook.readLoop Chunk JSON_parse chunk_type decoder buf
      (map (Hook.value false) chunks) = [].
Proof.
  induction chunks as [|c chunks IH]; intros decoder buf H; [reflexivity|].
  cbn [map concat Hook.readLoop] in *. rewrite decode_app in H.
  destruct (TextDecoder.decode decoder c) as [d1 s1].
  destruct (TextDecoder.decode d1 (concat chunks)) as [d2 s2] eqn:E2.
  cbn [snd] in H. rewrite app_assoc in H.
  assert (Hno : (0 <=? indexOf (buf ++ s1) (lit "\n\n")) = false).
  { apply Z.leb_gt.
    destruct (Z.lt_ge_cases (indexOf (buf ++ s1) (lit "\n\n")) 0) as [Hlt|Hge];
      [exact Hlt|].
    rewrite (indexOf_app_found _ s2 _ Hge) in H. lia. }
  rewrite (frames_no_frame Chunk JSON_parse chunk_type _ _ Hno).
  cbn [app]. apply IH. now rewrite E2.
Qed.

(** The hook's parser waits for two line feeds in a row: a stream whose
    text has no such pair invokes no handler at all, however long it is and
    however it is cut into chunks. A stream whose lines end in CR LF is
    such a stream, and so is a last frame that the end of the stream cuts
    short of its blank line. *)
Theorem stream_without_blank_line_invokes_nothing :
  forall chunks : list (list Z),
    indexOf (snd (TextDecoder.decode TextDecoder.fresh (concat chunks)))
      (lit "\n\n") < 0 ->
    Hook.processSSEStream Chunk JSON_parse chunk_type
      (map (Hook.value false) chunks) = [].
Proof.
  intros chunks H. unfold Hook.processSSEStream.
  now apply readLoop_without_blank_line.
Qed.

End HookWithoutBlankLine.

Lemma stream_without_blank_line_invokes_nothing_witness :
  Hook.processSSEStream jsstring everyTextIsAToken typeToken
    [Hook.value false (utf8 "data: a\r\n\r\nda");
     Hook.value false (utf8 "ta: b\r\n\r\n")] = [].
Proof.
  assert (H : indexOf
                (snd (TextDecoder.decode TextDecoder.fresh
                        (concat [utf8 "data: a\r\n\r\nda"; utf8 "ta: b\r\n\r\n"])))
                (lit "\n\n") < 0) by (vm_compute; reflexivity).
  exact (stream_without_blank_line_invokes_nothing jsstring everyTextIsAToken
           typeToken [utf8 "data: a\r\n\r\nda"; utf8 "ta: b\r\n\r\n"] H).
Defined.

(* ===================================================================== *)
(** * [ResilientSSE] over its event loop *)
(* ===================================================================== *)

Module ResilientLoop.
Import ResilientSSE.

(** The listeners of an event named [error], in the order in which
    [connect] registers them: the one of [addEventListener('error', ...)],
    which calls [handleError], then [es.onerror], which calls
    [handleConnectionError]. A connection failure and a server event named
    [error] both are such events; [data] is [event.data], [undefined] for a
    connection failure. *)
Definition onErrorEvent (data : option jsstring) : Method unit :=
  handleError
    (newError (lit "SSE error event: "
               ++ match data with
                  | Some ((_ :: _) as d) => d
                  | _ => lit "Unknown error"
                  end)) ;;
  handleConnectionError.

(** [createResilientSSE(options)]: a new client, connected. *)
Definition createResilientSSE (o : ResilientSSEOptions.t) (b : Browser.t)
  : World * list Callback :=
  let r := connect (constructor o b) in (state r, trace r).

(** What the consumer, the open [EventSource]s and the timers can do to a
    client, one task at a time. An [EventSource] delivers events until it
    is closed; a task that the platform cannot run in the present state is
    refused with [None]. *)
Inductive Task : Type :=
| callConnect                                       (* client.connect() *)
| callClose (final : bool)                          (* client.close(final) *)
| timePasses (ms : Z)
| sourceOpens (source : positive)
| sourceMessage (source : positive) (event : MessageEvent)
| sourcePing (source : positive)
| sourceError (source : positive) (data : option jsstring)
| sourceDone (source : positive)
| sourceCancelled (source : positive)
| intervalFires (handle : positive)
| timeoutFires (handle : positive).

Definition run (task : Task) (w : World) : option (World * list Callback) :=
  let done (m : Method unit) := Some (state (m w), trace (m w)) in
  let from (source : positive) (m : Method unit) :=
    if Browser.hasHandle source (sources w) then done m else None in
  match task with
  | callConnect => done connect
  | callClose final => done (close final)
  | timePasses ms =>
      if 0 <=? ms then done (window (Browser.elapse ms)) else None
  | sourceOpens source => from source onopen
  | sourceMessage source event => from source (handleMessage event)
  | sourcePing source => from source onPingEvent
  | sourceError source data => from source (onErrorEvent data)
  | sourceDone source => from source onDoneEvent
  | sourceCancelled source => from source onCancelledEvent
  | intervalFires h =>
      if Browser.hasHandle h (Browser.intervals (browser w))
      then done heartbeatCheck else None
  | timeoutFires h =>
      if Browser.hasHandle h (Browser.timeouts (browser w))
      then done (window (Browser.clearTimeout h) ;; reconnectNow) else None
  end.

Fixpoint runAll (tasks : list Task) (w : World) : option (World * list Callback) :=
  match tasks with
  | [] => Some (w, [])
  | task :: rest =>
      match run task w with
      | Some (w1, t1) =>
          match runAll rest w1 with
          | Some (w2, t2) => Some (w2, t1 ++ t2)
          | None => None
          end
      | None => None
      end
  end.

Definition isFinalClose (task : Task) : bool :=
  match task with callClose true => true | _ => false end.

(** A client that opens one connection at a time: the only open source is
    the one in [es]; at most one reconnection timer is pending, and none
    while [es] is set; the only interval is the heartbeat monitor, which
    runs only while [es] is set; a destroyed client has no source; and the
    attempt counter is within [maxReconnectAttempts]. *)
Definition oneConnection (w : World) : Prop :=
  match es (this w) with
  | Some h => (exists u, sources w = [(h, u)]) /\ Browser.timeouts (browser w) = []
  | None =>
      sources w = [] /\ heartbeatTimer (this w) = None
      /\ (length (Browser.timeouts (browser w)) <= 1)%nat
  end
  /\ Browser.intervals (browser w)
     = match heartbeatTimer (this w) with Some h => [(h, 5000)] | None => [] end
  /\ (isDestroyed (this w) = true -> es (this w) = None)
  /\ Z.of_nat (reconnectAttempts (this w))
     <= Z.max 0 (Options.maxReconnectAttempts (options (this w))).

Ltac open_client w :=
  let e := fresh "e" in let u := fresh "u" in let o := fresh "o" in
  let l := fresh "l" in let h := fresh "h" in let n := fresh "n" in
  let c := fresh "c" in let d := fresh "d" in let a := fresh "a" in
  let i := fresh "i" in
  let now := fresh "now" in let nh := fresh "nh" in let ts := fresh "ts" in
  let ivs := fresh "ivs" in let ab := fresh "ab" in let rn := fresh "rn" in
  let rc := fresh "rc" in let srcs := fresh "srcs" in
  destruct w as [[e u o l h n c d a i] [now nh ts ivs ab rn rc] srcs].

Ltac run_client :=
  unfold onErrorEvent, handleError, onDoneEvent, onCancelledEvent, onPingEvent,
    onopen, handleMessage, reconnectNow, heartbeatCheck, handleConnectionError,
    connect, close, cleanup, startHeartbeatMonitoring, stopHeartbeatMonitoring;
  unfold Date_now, assign, window, windowCall;
  unfold bind, ret, gets, modify, invoke, state, trace; cbn.

Ltac settle :=
  unfold oneConnection; cbn; rewrite ?Pos.eqb_refl; cbn;
  repeat split; eauto; try discriminate; try lia.

Lemma oneConnection_created (o : ResilientSSEOptions.t) (clock : Z)
    (rnd : nat -> Q) :
  oneConnection (fst (createResilientSSE o (Browser.initial clock rnd))).
Proof.
  destruct o as [u ma ib mb ht].
  unfold createResilientSSE, constructor. run_client. settle.
Qed.

Lemma oneConnection_close (final : bool) (w : World) :
  oneConnection w -> oneConnection (state (close final w)).
Proof.
  open_client w. intros (Hes & Hi & Hd & Hb). cbn in Hes, Hi, Hd, Hb.
  destruct e as [e0|].
  - destruct Hes as [[u' ->] ->]. subst ivs.
    destruct h, final; run_client; settle.
  - destruct Hes as (-> & -> & Hts). subst ivs.
    destruct final; run_client; settle.
Qed.

Lemma oneConnection_handleConnectionError (w : World) :
  oneConnection w -> oneConnection (state (handleConnectionError w)).
Proof.
  open_client w. intro H. pose proof H as (Hes & Hi & Hd & Hb).
  cbn in Hes, Hi, Hd, Hb.
  destruct d; [destruct e; exact H|].
  destruct e as [e0|]; [|exact H].
  destruct Hes as [[u' ->] ->]. subst ivs.
  destruct h; run_client;
    (destruct (Z.leb_spec (Options.maxReconnectAttempts o) (Z.of_nat n));
     cbn; settle).
Qed.

(** An event comes from the source in [es]; no timer is pending then, and
    the client is not destroyed. *)
Lemma oneConnection_source (source : positive) (w : World) :
  oneConnection w -> Browser.hasHandle source (sources w) = true ->
  es (this w) = Some source
  /\ (exists u, sources w = [(source, u)])
  /\ Browser.timeouts (browser w) = []
  /\ isDestroyed (this w) = false.
Proof.
  open_client w. intros (Hes & Hi & Hd & Hb) E. cbn in Hes, Hi, Hd, Hb, E |- *.
  destruct e as [e0|].
  - destruct Hes as [[u' ->] ->]. cbn in E.
    destruct (Pos.eqb_spec e0 source); [|discriminate]. subst e0.
    repeat split; eauto. destruct d; [|reflexivity].
    specialize (Hd eq_refl). discriminate.
  - destruct Hes as (-> & _). discriminate.
Qed.

Ltac from_source H E :=
  let Hes := fresh "Hes" in let Hsrc := fresh "Hsrc" in
  let Hts := fresh "Hts" in let Hnd := fresh "Hnd" in
  let Hi := fresh "Hi" in let Hb := fresh "Hb" in let u' := fresh "u" in
  destruct (oneConnection_source _ _ H E) as (Hes & [u' Hsrc] & Hts & Hnd);
  destruct H as (_ & Hi & _ & Hb);
  match goal with w : World |- _ => open_client w end;
  cbn in Hes, Hsrc, Hts, Hnd, Hi, Hb; subst.

Lemma resilient_heartbeatCheck_cases (w : World) :
  heartbeatCheck w
  = if Options.heartbeatTimeoutMs (options (this w))
       <? Browser.now (browser w) - lastHeartbeat (this w)
    then handleConnectionError w
    else (tt, w, []).
Proof.
  unfold heartbeatCheck. unfold Date_now. unfold bind, gets, ret. cbn [fst snd].
  destruct (_ <? _); [|reflexivity].
  destruct (handleConnectionError w) as [[[] w1] t1]. reflexivity.
Qed.

(** [close(false)] invokes nothing. *)
Lemma close_false_silent (w : World) :
  close false w = (tt, state (close false w), []).
Proof. open_client w. destruct h, e; reflexivity. Qed.

(** The client after [handleMessage] has noted the time and the id of an
    event. *)
Definition noted (event : MessageEvent) (w : World) : World :=
  let c := set_lastHeartbeat (Browser.now (browser w)) (this w) in
  mkWorld
    match eventLastEventId event with
    | _ :: _ => set_lastEventId (Some (eventLastEventId event)) c
    | [] => c
    end
    (browser w) (sources w).

Lemma handleMessage_cases (event : MessageEvent) (w : World) :
  handleMessage event w
  = if eqb (data event) (lit "[DONE]") || eqb (data event) (lit "stream_complete")
    then (tt, state (close false (noted event w)), [])
    else if eqb (data event) (lit "heartbeat")
            || eqb (data event) (lit "connected")
    then (tt, noted event w, [])
    else (tt, noted event w,
          [onMessage
             {| SSEMessage.data := data event;
                SSEMessage.event :=
                  Some (match type event with
                        | _ :: _ => type event
                        | [] => lit "message"
                        end);
                SSEMessage.id := Some (eventLastEventId event);
                SSEMessage.retry := None |}]).
Proof.
  unfold handleMessage, noted.
  unfold Date_now, assign. unfold bind, ret, gets, modify, invoke. cbn [fst snd].
  destruct event as [dat ty id]. cbn [data type eventLastEventId].
  destruct id as [|i0 id]; cbn [app];
    (destruct (eqb dat (lit "[DONE]") || eqb dat (lit "stream_complete"));
     [rewrite close_false_silent; reflexivity|];
     destruct (eqb dat (lit "heartbeat") || eqb dat (lit "connected"));
     reflexivity).
Qed.

Lemma oneConnection_noted (event : MessageEvent) (w : World) :
  oneConnection w -> oneConnection (noted event w).
Proof.
  open_client w. destruct event as [dat ty [|i0 id]]; intro H; exact H.
Qed.

Lemma oneConnection_run (task : Task) (w w' : World) (t : list Callback) :
  oneConnection w -> task <> callConnect -> run task w = Some (w', t) ->
  oneConnection w'.
Proof.
  intros H Hn R.
  destruct task as [|final|ms|s|s ev|s|s data|s|s|k|k]; cbn [run] in R.
  - now contradiction Hn.
  - injection R as <- _. now apply oneConnection_close.
  - destruct (0 <=? ms); [|discriminate]. injection R as <- _.
    open_client w. exact H.
  - destruct (Browser.hasHandle s (sources w)) eqn:E; [|discriminate].
    injection R as <- _. from_source H E.
    destruct h; run_client; settle.
  - destruct (Browser.hasHandle s (sources w)) eqn:E; [|discriminate].
    injection R as <- _. rewrite handleMessage_cases.
    pose proof (oneConnection_noted ev w H) as H'.
    destruct (_ || _); [now apply oneConnection_close|].
    destruct (_ || _); exact H'.
  - destruct (Browser.hasHandle s (sources w)) eqn:E; [|discriminate].
    injection R as <- _. from_source H E. run_client; settle.
  - destruct (Browser.hasHandle s (sources w)) eqn:E; [|discriminate].
    injection R as <- _. from_source H E. destruct h; run_client; settle.
  - destruct (Browser.hasHandle s (sources w)) eqn:E; [|discriminate].
    injection R as <- _. now apply oneConnection_close.
  - destruct (Browser.hasHandle s (sources w)) eqn:E; [|discriminate].
    injection R as <- _. now apply oneConnection_close.
  - destruct (Browser.hasHandle k _); [|discriminate]. injection R as <- _.
    rewrite resilient_heartbeatCheck_cases. destruct (_ <? _); [|exact H].
    now apply oneConnection_handleConnectionError.
  - destruct (Browser.hasHandle k _) eqn:E; [|discriminate]. injection R as <- _.
    open_client w. destruct H as (Hes & Hi & Hd & Hb).
    cbn in Hes, Hi, Hd, Hb, E.
    destruct e as [e0|]; [destruct Hes as [_ ->]; discriminate|].
    destruct Hes as (-> & -> & Hts). subst ivs.
    destruct ts as [|[k' dl] [|? ?]]; [discriminate| |cbn in Hts; lia].
    cbn in E. destruct (Pos.eqb_spec k' k); [|discriminate]. subst k'.
    destruct d; run_client; settle.
Qed.

Lemma oneConnection_runAll (tasks : list Task) :
  forall (w w' : World) (t : list Callback),
    oneConnection w -> ~ In callConnect tasks ->
    runAll tasks w = Some (w', t) -> oneConnection w'.
Proof.
  induction tasks as [|task tasks IH]; intros w w' t H Hn R; cbn [runAll] in R.
  - injection R as <- _. exact H.
  - destruct (run task w) as [[w1 t1]|] eqn:E; [|discriminate].
    destruct (runAll tasks w1) as [[w2 t2]|] eqn:E2; [|discriminate].
    injection R as <- _.
    assert (Hn1 : task <> callConnect) by (intros ->; apply Hn; now left).
    assert (Hn2 : ~ In callConnect tasks) by (intro; apply Hn; now right).
    exact (IH w1 w2 t2 (oneConnection_run task w w1 t1 H Hn1 E) Hn2 E2).
Qed.

(** A client made by [createResilientSSE] and not connected a second time
    by the consumer has one connection at a time, whatever its source and
    the timers do: the only open [EventSource] is the one in [es]; at most
    one reconnection timer is pending, and none while [es] is set; the
    heartbeat monitor is the only interval, and runs only while [es] is
    set; a destroyed client has no source; and the attempt counter never
    exceeds [maxReconnectAttempts]. *)
Theorem created_client_has_one_connection :
  forall (tasks : list Task) (o : ResilientSSEOptions.t) (clock : Z)
         (rnd : nat -> Q) (w : World) (t : list Callback),
    ~ In callConnect tasks ->
    runAll tasks (fst (createResilientSSE o (Browser.initial clock rnd)))
    = Some (w, t) ->
    match es (this w) with
    | Some h =>
        (exists u, sources w = [(h, u)]) /\ Browser.timeouts (browser w) = []
    | None =>
        sources w = [] /\ heartbeatTimer (this w) = None
        /\ (length (Browser.timeouts (browser w)) <= 1)%nat
    end
    /\ Browser.intervals (browser w)
       = match heartbeatTimer (this w) with Some h => [(h, 5000)] | None => [] end
    /\ (isDestroyed (this w) = true -> es (this w) = None)
    /\ Z.of_nat (reconnectAttempts (this w))
       <= Z.max 0 (Options.maxReconnectAttempts (options (this w))).
Proof.
  intros tasks o clock rnd w t Hn R.
  exact (oneConnection_runAll tasks _ w t (oneConnection_created o clock rnd) Hn R).
Qed.

(** ** After [close()] *)

Definition destroyed (w : World) : Prop :=
  isDestroyed (this w) = true /\ es (this w) = None /\ sources w = []
  /\ Browser.intervals (browser w) = [] /\ heartbeatTimer (this w) = None.

Lemma destroyed_close (w : World) :
  oneConnection w ->
  destroyed (state (close true w))
  /\ trace (close true w) = [onConnectionStatus disconnected].
Proof.
  open_client w. intros (Hes & Hi & Hd & Hb). cbn in Hes, Hi, Hd, Hb.
  destruct e as [e0|].
  - destruct Hes as [[u' ->] ->]. subst ivs.
    destruct h; run_client; unfold destroyed; cbn; rewrite ?Pos.eqb_refl;
      repeat split.
  - destruct Hes as (-> & -> & Hts). subst ivs.
    run_client. unfold destroyed. cbn. repeat split.
Qed.

Lemma destroyed_run (task : Task) (w w' : World) (t : list Callback) :
  destroyed w -> run task w = Some (w', t) ->
  destroyed w'
  /\ t = if isFinalClose task then [onConnectionStatus disconnected] else [].
Proof.
  intros (Hd & He & Hs & Hi & Hh) R. open_client w.
  cbn in Hd, He, Hs, Hi, Hh. subst.
  destruct task as [|final|ms|s|s ev|s|s dat|s|s|k|k]; cbn [run] in R;
    cbn [isFinalClose]; try discriminate.
  - injection R as <- <-. unfold destroyed. repeat split.
  - injection R as <- <-. destruct final; unfold destroyed; repeat split.
  - destruct (0 <=? ms); [|discriminate]. injection R as <- <-.
    unfold destroyed. repeat split.
  - cbn [browser Browser.timeouts] in R.
    destruct (Browser.hasHandle k ts); [|discriminate]. injection R as <- <-.
    unfold destroyed. repeat split.
Qed.

Lemma destroyed_runAll (tasks : list Task) :
  forall (w w' : World) (t : list Callback),
    destroyed w -> runAll tasks w = Some (w', t) ->
    destroyed w'
    /\ t = map (fun _ => onConnectionStatus disconnected)
             (filter isFinalClose tasks).
Proof.
  induction tasks as [|task tasks IH]; intros w w' t H R; cbn [runAll] in R.
  - injection R as <- <-. auto.
  - destruct (run task w) as [[w1 t1]|] eqn:E; [|discriminate].
    destruct (runAll tasks w1) as [[w2 t2]|] eqn:E2; [|discriminate].
    injection R as <- <-.
    destruct (destroyed_run task w w1 t1 H E) as [H1 ->].
    destruct (IH w1 w2 t2 H1 E2) as [H2 ->].
    split; [exact H2|]. cbn [filter]. destruct (isFinalClose task); reflexivity.
Qed.

(** [close()] is final in a client made by [createResilientSSE] that the
    consumer has not connected a second time before the call: it invokes
    [onConnectionStatus('disconnected')], and whatever the consumer, the
    sources and the timers do afterwards ([connect()] and a reconnection
    timer that was pending included), no source is open, no interval
    runs, and the only callbacks are the [disconnected] of further calls
    of [close()]. *)
Theorem created_client_close_is_final :
  forall (before after : list Task) (o : ResilientSSEOptions.t) (clock : Z)
         (rnd : nat -> Q) (w w' : World) (t0 t : list Callback),
    ~ In callConnect before ->
    runAll before (fst (createResilientSSE o (Browser.initial clock rnd)))
    = Some (w, t0) ->
    runAll after (state (close true w)) = Some (w', t) ->
    trace (close true w) = [onConnectionStatus disconnected]
    /\ t = map (fun _ => onConnectionStatus disconnected)
             (filter isFinalClose after)
    /\ sources w' = [] /\ Browser.intervals (browser w') = [].
Proof.
  intros before after o clock rnd w w' t0 t Hn R R'.
  pose proof (oneConnection_runAll before _ w t0
                (oneConnection_created o clock rnd) Hn R) as H.
  destruct (destroyed_close w H) as [Hd Ht].
  destruct (destroyed_runAll after _ w' t Hd R') as [(_ & _ & Hs & Hi & _) ->].
  repeat split; assumption.
Qed.

(** ** Error events and completion *)

(** An event named [error] on the open source, a connection failure
    included, ends in [onError] and a closed source: [handleError] closes
    the source before [es.onerror] runs, so [handleConnectionError] finds
    no source and returns. No status is reported and no reconnection is
    scheduled. *)
Theorem error_event_closes_without_reconnection :
  forall (data : option jsstring) (w : World),
    onErrorEvent data w
    = (tt, state (close false w),
       [onError (newError (lit "SSE error event: "
                           ++ match data with
                              | Some ((_ :: _) as d) => d
                              | _ => lit "Unknown error"
                              end))])
    /\ es (this (state (close false w))) = None
    /\ Browser.timeouts (browser (state (close false w)))
       = Browser.timeouts (browser w)
    /\ reconnectAttempts (this (state (close false w)))
       = reconnectAttempts (this w).
Proof.
  intros data w. open_client w.
  destruct h, e, d; run_client; repeat split.
Qed.

Ltac quiet :=
  let Hin := fresh "Hin" in let Hlt := fresh "Hlt" in
  intros [Hin|Hlt];
  [ repeat (destruct Hin as [Hin|Hin]; [discriminate|]); exact Hin
  | unfold Browser.removeHandle in *; lia ].

(** A reconnection is scheduled by the heartbeat check alone: no other
    task reports [reconnecting] or adds a timer. *)
Theorem only_the_heartbeat_check_reconnects :
  forall (task : Task) (w w' : World) (t : list Callback),
    run task w = Some (w', t) ->
    In (onConnectionStatus reconnecting) t
    \/ (length (Browser.timeouts (browser w))
        < length (Browser.timeouts (browser w')))%nat ->
    exists h, task = intervalFires h.
Proof.
  intros task w w' t R Hre.
  destruct task as [|final|ms|s|s ev|s|s dat|s|s|k|k]; cbn [run] in R;
    try (exists k; reflexivity); exfalso;
    try (destruct (Browser.hasHandle s (sources w)); [|discriminate]).
  - injection R as <- <-. open_client w.
    destruct d, i as [[|? ?]|]; revert Hre; run_client; quiet.
  - injection R as <- <-. open_client w.
    destruct final, h, e; revert Hre; run_client; quiet.
  - destruct (0 <=? ms); [|discriminate]. injection R as <- <-.
    revert Hre. run_client. quiet.
  - injection R as <- <-. open_client w.
    destruct h; revert Hre; run_client; quiet.
  - injection R as <- <-. rewrite handleMessage_cases in Hre.
    open_client w. destruct ev as [dat ty [|i0 id]];
      cbn [data type eventLastEventId] in Hre;
      destruct (eqb dat (lit "[DONE]") || eqb dat (lit "stream_complete"));
      destruct (eqb dat (lit "heartbeat") || eqb dat (lit "connected"));
      destruct h, e; revert Hre; run_client; quiet.
  - injection R as <- <-. revert Hre. run_client. quiet.
  - injection R as <- <-. open_client w.
    destruct h, e, d; revert Hre; run_client; quiet.
  - injection R as <- <-. open_client w.
    destruct h, e; revert Hre; run_client; quiet.
  - injection R as <- <-. open_client w.
    destruct h, e; revert Hre; run_client; quiet.
  - destruct (Browser.hasHandle k _); [|discriminate]. injection R as <- <-.
    open_client w.
    pose proof (filter_length_le (fun e => negb (Pos.eqb (fst e) k)) ts) as Hle.
    destruct d, i as [[|? ?]|]; revert Hre; run_client; quiet.
Qed.

(** The tasks that end a stream in the regular way: the events named
    [done] and [cancelled], and a message whose data is the marker
    [[DONE]] or [stream_complete]. *)
Definition completes (task : Task) : bool :=
  match task with
  | sourceDone _ | sourceCancelled _ => true
  | sourceMessage _ event =>
      eqb (data event) (lit "[DONE]") || eqb (data event) (lit "stream_complete")
  | _ => false
  end.

(** The regular end of a stream is silent and not final, in a client made
    by [createResilientSSE] that the consumer has not connected a second
    time: the client invokes no callback (no [disconnected] either), and
    is left without source, timer or interval, and not destroyed, so that
    nothing happens until the consumer calls [connect()] or [close()]. *)
Theorem completion_is_silent_and_not_final :
  forall (before : list Task) (o : ResilientSSEOptions.t) (clock : Z)
         (rnd : nat -> Q) (w : World) (t0 : list Callback)
         (task : Task) (w1 : World) (t1 : list Callback),
    ~ In callConnect before ->
    runAll before (fst (createResilientSSE o (Browser.initial clock rnd)))
    = Some (w, t0) ->
    completes task = true ->
    run task w = Some (w1, t1) ->
    t1 = []
    /\ es (this w1) = None /\ sources w1 = []
    /\ Browser.timeouts (browser w1) = [] /\ Browser.intervals (browser w1) = []
    /\ isDestroyed (this w1) = false
    /\ trace (connect w1) = [onConnectionStatus connecting].
Proof.
  intros before o clock rnd w t0 task w1 t1 Hn R C R1.
  pose proof (oneConnection_runAll before _ w t0
                (oneConnection_created o clock rnd) Hn R) as H.
  assert (Hclose : forall s w0,
             oneConnection w0 -> Browser.hasHandle s (sources w0) = true ->
             trace (close false w0) = []
             /\ es (this (state (close false w0))) = None
             /\ sources (state (close false w0)) = []
             /\ Browser.timeouts (browser (state (close false w0))) = []
             /\ Browser.intervals (browser (state (close false w0))) = []
             /\ isDestroyed (this (state (close false w0))) = false
             /\ trace (connect (state (close false w0)))
                = [onConnectionStatus connecting]).
  { intros s w0 H0 E. from_source H0 E.
    destruct h; run_client; rewrite ?Pos.eqb_refl; repeat split. }
  destruct task as [|final|ms|s|s ev|s|s dat|s|s|k|k]; try discriminate;
    cbn [run] in R1;
    (destruct (Browser.hasHandle s (sources w)) eqn:E; [|discriminate]).
  - rewrite handleMessage_cases in R1. cbn [completes] in C. rewrite C in R1.
    injection R1 as <- <-.
    assert (E' : Browser.hasHandle s (sources (noted ev w)) = true) by exact E.
    destruct (Hclose s (noted ev w) (oneConnection_noted ev w H) E')
      as (_ & H2). split; [reflexivity|exact H2].
  - injection R1 as <- <-. exact (Hclose s w H E).
  - injection R1 as <- <-. exact (Hclose s w H E).
Qed.

(** A reconnection resumes behind the last event: once a message with a
    non-empty [lastEventId] was handled, whatever its data, the next
    [connect()] opens the URL of the client with that id appended as it
    is, as the query parameter [lastEventId], after ["&"] when the URL has
    a ["?"] and after ["?"] otherwise. *)
Theorem reconnection_resumes_behind_the_last_event :
  forall (event : MessageEvent) (w : World),
    isDestroyed (this w) = false ->
    eventLastEventId event <> [] ->
    let w1 := state (handleMessage event w) in
    let base := url (this w) in
    sources (state (connect w1))
    = sources w1
      ++ [(Browser.nextHandle (browser w),
           base ++ (if 0 <=? indexOf base (lit "?") then lit "&" else lit "?")
                ++ lit "lastEventId=" ++ eventLastEventId event)].
Proof.
  intros event w Hd Hid w1 base. subst w1 base.
  rewrite handleMessage_cases.
  open_client w. cbn in Hd. subst d.
  destruct event as [dat ty [|i0 id]]; [now contradiction Hid|].
  cbn [data type eventLastEventId].
  destruct (eqb dat (lit "[DONE]") || eqb dat (lit "stream_complete"));
    [destruct h, e; run_client; reflexivity|].
  destruct (eqb dat (lit "heartbeat") || eqb dat (lit "connected"));
    run_client; reflexivity.
Qed.

(** ** A client of the chat stream *)

Definition chatOptions : ResilientSSEOptions.t :=
  ResilientSSEOptions.mk (lit "/api/chat/stream?conversation=7")
    None None None None.

Definition chatClient : World :=
  fst (createResilientSSE chatOptions (Browser.initial 0 (fun _ => 1 # 2))).

Definition token : MessageEvent :=
  mkMessageEvent (lit "hello") (lit "message") (lit "41").

(** The source opens and delivers a message; then it is silent for 20 s,
    and the heartbeat check finds the timeout. *)
Definition silentSource : list Task :=
  [sourceOpens 2; sourceMessage 2 token; timePasses 20000; intervalFires 3].

Lemma created_client_has_one_connection_witness :
  exists (w : World) (t : list Callback),
    runAll silentSource chatClient = Some (w, t)
    /\ Browser.intervals (browser w)
       = match heartbeatTimer (this w) with Some h => [(h, 5000)] | None => [] end.
Proof.
  destruct (runAll silentSource chatClient) as [[w t]|] eqn:E;
    [|vm_compute in E; discriminate].
  exists w, t. split; [reflexivity|].
  assert (Hn : ~ In callConnect silentSource)
    by (intros [H|[H|[H|[H|[]]]]]; discriminate).
  exact (proj1 (proj2 (created_client_has_one_connection silentSource
                         chatOptions 0 (fun _ => 1 # 2) w t Hn E))).
Defined.

Lemma created_client_close_is_final_witness :
  exists (w w' : World) (t0 : list Callback),
    runAll silentSource chatClient = Some (w, t0)
    /\ runAll [timeoutFires 4; callConnect; callClose true]
         (state (close true w))
       = Some (w', [onConnectionStatus disconnected]).
Proof.
  destruct (runAll silentSource chatClient) as [[w t0]|] eqn:E;
    [|vm_compute in E; discriminate].
  pose proof E as E0. vm_compute in E0. injection E0 as <- <-.
  assert (Hn : ~ In callConnect silentSource)
    by (intros [H|[H|[H|[H|[]]]]]; discriminate).
  match type of E with
  | _ = Some (?W, ?T) =>
      assert (E' : exists w',
                 runAll [timeoutFires 4; callConnect; callClose true]
                   (state (close true W))
                 = Some (w', [onConnectionStatus disconnected]))
        by (vm_compute; eexists; reflexivity);
      destruct E' as [w' E'];
      pose proof (created_client_close_is_final silentSource
                    [timeoutFires 4; callConnect; callClose true]
                    chatOptions 0 (fun _ => 1 # 2) W w' T _ Hn E E') as Hfinal;
      exists W, w', T
  end.
  split; [exact E|exact E'].
Defined.

Lemma only_the_heartbeat_check_reconnects_witness :
  exists h : positive, intervalFires 3 = intervalFires h.
Proof.
  destruct (runAll [sourceOpens 2; timePasses 20000] chatClient)
    as [[w t0]|] eqn:E; [|vm_compute in E; discriminate].
  pose proof E as E0. vm_compute in E0. injection E0 as <- <-.
  match type of E with
  | _ = Some (?W, _) =>
      destruct (run (intervalFires 3) W) as [[w' t]|] eqn:E1;
        [|vm_compute in E1; discriminate];
      pose proof E1 as E2; vm_compute in E2; injection E2 as <- <-;
      assert (Hin : In (onConnectionStatus reconnecting)
                      [onConnectionStatus reconnecting]) by (now left);
      exact (only_the_heartbeat_check_reconnects (intervalFires 3) W _ _ E1
               (or_introl Hin))
  end.
Defined.

Lemma completion_is_silent_and_not_final_witness :
  exists (w w1 : World) (t0 : list Callback),
    runAll [sourceOpens 2] chatClient = Some (w, t0)
    /\ run (sourceMessage 2 (mkMessageEvent (lit "[DONE]") (lit "message") []))
         w = Some (w1, [])
    /\ isDestroyed (this w1) = false.
Proof.
  destruct (runAll [sourceOpens 2] chatClient) as [[w t0]|] eqn:E;
    [|vm_compute in E; discriminate].
  destruct (run (sourceMessage 2
                   (mkMessageEvent (lit "[DONE]") (lit "message") [])) w)
    as [[w1 t1]|] eqn:E1;
    [|pose proof E as E0; vm_compute in E0; injection E0 as <- <-;
      vm_compute in E1; discriminate].
  assert (Hn : ~ In callConnect [sourceOpens 2])
    by (intros [H|[]]; discriminate).
  destruct (completion_is_silent_and_not_final [sourceOpens 2]
              chatOptions 0 (fun _ => 1 # 2) w t0
              (sourceMessage 2 (mkMessageEvent (lit "[DONE]") (lit "message") []))
              w1 t1 Hn E eq_refl E1)
    as (-> & _ & _ & _ & _ & Hd & _).
  exists w, w1, t0. repeat split; assumption.
Defined.

Lemma reconnection_resumes_behind_the_last_event_witness :
  sources (state (connect (state (handleMessage token
                                    (state (close false chatClient))))))
  = [(3%positive, lit "/api/chat/stream?conversation=7&lastEventId=41")].
Proof.
  assert (Hd : isDestroyed (this (state (close false chatClient))) = false)
    by reflexivity.
  assert (Hid : eventLastEventId token <> []) by discriminate.
  exact (reconnection_resumes_behind_the_last_event token
           (state (close false chatClient)) Hd Hid).
Defined.

(** ** A second [connect()] *)

(** [connect()] does not close the source it replaces: a source that is
    open when [connect()] is called is open afterwards, and after [close()]
    too, which closes the new source alone. Its events still reach the
    client: a message of the old source is handed to [onMessage] although
    the client is destroyed. *)
Theorem connect_leaves_the_open_source_open :
  forall (w : World) (h : positive) (u : jsstring) (event : MessageEvent),
    isDestroyed (this w) = false ->
    In (h, u) (sources w) ->
    h <> Browser.nextHandle (browser w) ->
    eqb (data event) (lit "[DONE]") || eqb (data event) (lit "stream_complete")
    = false ->
    eqb (data event) (lit "heartbeat") || eqb (data event) (lit "connected")
    = false ->
    let connected_ := state (connect w) in
    let closed := state (close true connected_) in
    es (this connected_) = Some (Browser.nextHandle (browser w))
    /\ In (h, u) (sources connected_)
    /\ isDestroyed (this closed) = true
    /\ In (h, u) (sources closed)
    /\ exists w', 
         run (sourceMessage h event) closed
         = Some (w', [onMessage
                        {| SSEMessage.data := data event;
                           SSEMessage.event :=
                             Some (match type event with
                                   | _ :: _ => type event
                                   | [] => lit "message"
                                   end);
                           SSEMessage.id := Some (eventLastEventId event);
                           SSEMessage.retry := None |}]).
Proof.
  intros w h u event Hd Hin Hfresh Hdone Hbeat connected_ closed.
  subst connected_ closed. open_client w. cbn in Hd, Hin, Hfresh. subst d.
  assert (Hkeep : In (h, u)
                    (Browser.removeHandle nh (srcs ++ [(nh, match i with
                       | Some ((_ :: _) as i0) =>
                           u0 ++ (if 0 <=? indexOf u0 (lit "?")
                                  then lit "&" else lit "?")
                              ++ lit "lastEventId=" ++ i0
                       | _ => u0 end)]))).
  { unfold Browser.removeHandle. apply filter_In. split.
    - apply in_or_app. now left.
    - cbn. destruct (Pos.eqb_spec h nh); [contradiction|reflexivity]. }
  split; [destruct h0; reflexivity|].
  split; [destruct h0; run_client; apply in_or_app; now left|].
  split; [destruct h0; reflexivity|].
  split; [destruct h0; run_client; exact Hkeep|].
  cbn [run]. rewrite handleMessage_cases, Hdone, Hbeat.
  destruct h0; run_client;
    match goal with
    | |- context [if existsb ?f ?L then _ else _] =>
        assert (Hex : existsb f L = true)
          by (apply existsb_exists; exists (h, u);
              split; [apply filter_In; split;
                      [apply in_or_app; now left
                      |cbn; destruct (Pos.eqb_spec h nh);
                       [contradiction|reflexivity]]
                     |apply Pos.eqb_refl]);
        rewrite Hex
    end; eexists; reflexivity.
Qed.

Lemma connect_leaves_the_open_source_open_witness :
  exists w' : World,
    run (sourceMessage 2 token)
      (state (close true (state (connect chatClient))))
    = Some (w', [onMessage {| SSEMessage.data := lit "hello";
                              SSEMessage.event := Some (lit "message");
                              SSEMessage.id := Some (lit "41");
                              SSEMessage.retry := None |}]).
Proof.
  assert (Hin : In (2%positive, lit "/api/chat/stream?conversation=7")
                  (sources chatClient)) by (now left).
  assert (Hfresh : 2%positive <> Browser.nextHandle (browser chatClient))
    by discriminate.
  exact (proj2 (proj2 (proj2 (proj2
           (connect_leaves_the_open_source_open chatClient 2
              (lit "/api/chat/stream?conversation=7") token
              eq_refl Hin Hfresh eq_refl eq_refl))))).
Defined.

(** ** The attempt counter *)

(** A [ResilientSSE] client whose limit of attempts is negative. *)
Definition withoutAttempts : ResilientSSEOptions.t :=
  ResilientSSEOptions.mk (lit "/api/chat/stream") (Some (-1)) None None None.

(** While the heartbeat monitor runs the attempt counter is 0: [onopen]
    sets it to 0 when it starts the monitor, and the one handler that
    counts an attempt stops the monitor first. *)
Definition monitored (w : World) : Prop :=
  Browser.intervals (browser w)
  = match heartbeatTimer (this w) with Some h => [(h, 5000)] | None => [] end
  /\ (heartbeatTimer (this w) <> None -> reconnectAttempts (this w) = 0%nat)
  /\ (reconnectAttempts (this w) <= 1)%nat
  /\ Options.maxReconnectAttempts (options (this w)) <> 0.

Lemma monitored_created (o : ResilientSSEOptions.t) (clock : Z)
    (rnd : nat -> Q) :
  monitored (fst (createResilientSSE o (Browser.initial clock rnd))).
Proof.
  destruct o as [u ma ib mb ht].
  unfold createResilientSSE, constructor. run_client.
  unfold monitored. cbn. repeat split; try lia; try congruence.
  destruct ma as [n|]; cbn; [|discriminate].
  destruct (n =? 0) eqn:E; [discriminate|now apply Z.eqb_neq].
Qed.

Ltac monitored_done :=
  unfold monitored; cbn; rewrite ?Pos.eqb_refl; cbn;
  repeat split; eauto; try discriminate; try congruence; try lia.

Ltac no_terminal :=
  let Hin := fresh "Hin" in
  intro Hin; cbn in Hin;
  repeat (destruct Hin as [Hin|Hin]; [discriminate|]); destruct Hin.

Ltac settled := split; [monitored_done|split; [no_terminal|reflexivity]].

Lemma monitored_run (task : Task) (w w' : World) (t : list Callback) :
  monitored w -> run task w = Some (w', t) ->
  monitored w'
  /\ (In (onError (newError (lit "Max reconnection attempts reached"))) t ->
      Options.maxReconnectAttempts (options (this w)) < 0)
  /\ options (this w') = options (this w).
Proof.
  intros (Hi & Hz & Hone & Hmax) R. open_client w.
  cbn in Hi, Hz, Hone, Hmax. subst ivs.
  destruct task as [|final|ms|s|s ev|s|s dat|s|s|k|k];
    cbn [run sources] in R;
    try (destruct (Browser.hasHandle s srcs); [|discriminate]).
  - injection R as <- <-.
    destruct d, i as [[|? ?]|]; run_client; settled.
  - injection R as <- <-.
    destruct final, h, e; run_client; settled.
  - destruct (0 <=? ms); [|discriminate]. injection R as <- <-.
    run_client. settled.
  - injection R as <- <-. destruct h; run_client; settled.
  - injection R as <- <-. rewrite handleMessage_cases.
    destruct ev as [dat ty [|i0 id]]; cbn [data type eventLastEventId];
      destruct (eqb dat (lit "[DONE]") || eqb dat (lit "stream_complete"));
      destruct (eqb dat (lit "heartbeat") || eqb dat (lit "connected"));
      destruct h, e; run_client; settled.
  - injection R as <- <-. run_client. settled.
  - injection R as <- <-.
    destruct h, e, d, dat as [[|? ?]|]; run_client; settled.
  - injection R as <- <-. destruct h, e; run_client; settled.
  - injection R as <- <-. destruct h, e; run_client; settled.
  - destruct h as [h0|]; [|discriminate].
    cbn in R. destruct (Pos.eqb h0 k); [|discriminate].
    injection R as <- <-. specialize (Hz ltac:(discriminate)). subst n.
    destruct (_ <? _); [|run_client; settled].
    destruct d, e; run_client; rewrite ?Pos.eqb_refl; try settled.
    destruct (Z.leb_spec (Options.maxReconnectAttempts o) 0); cbn;
      (split; [monitored_done|split; [|reflexivity]]);
      [intros _; lia|no_terminal].
  - destruct (Browser.hasHandle k _); [|discriminate]. injection R as <- <-.
    destruct d, i as [[|? ?]|]; run_client; settled.
Qed.

Lemma monitored_runAll (tasks : list Task) :
  forall (w w' : World) (t : list Callback),
    monitored w -> runAll tasks w = Some (w', t) ->
    monitored w'
    /\ (In (onError (newError (lit "Max reconnection attempts reached"))) t ->
        Options.maxReconnectAttempts (options (this w)) < 0)
    /\ options (this w') = options (this w).
Proof.
  induction tasks as [|task tasks IH]; intros w w' t H R; cbn [runAll] in R.
  - injection R as <- <-. split; [exact H|]. split; [intros []|reflexivity].
  - destruct (run task w) as [[w1 t1]|] eqn:E; [|discriminate].
    destruct (runAll tasks w1) as [[w2 t2]|] eqn:E2; [|discriminate].
    injection R as <- <-.
    destruct (monitored_run task w w1 t1 H E) as (H1 & Ht1 & Ho1).
    destruct (IH w1 w2 t2 H1 E2) as (H2 & Ht2 & Ho2).
    split; [exact H2|]. split.
    + intro Hin. apply in_app_or in Hin. destruct Hin as [Hin|Hin];
        [exact (Ht1 Hin)|]. rewrite <- Ho1. exact (Ht2 Hin).
    + now rewrite Ho2.
Qed.

(** The attempts of a [ResilientSSE] client never run out, unless the
    limit is negative: whatever the consumer, the sources and the timers
    do to a created client, the attempt counter is 0 while the heartbeat
    monitor runs and never exceeds 1, and the error that says that the
    attempts are used up is passed to [onError] in a run only if
    [maxReconnectAttempts] is negative. (Only the heartbeat check counts an
    attempt, and the monitor is started by [onopen], which sets the counter
    to 0.) *)
Theorem attempts_never_run_out :
  forall (tasks : list Task) (o : ResilientSSEOptions.t) (clock : Z)
         (rnd : nat -> Q) (w : World) (t : list Callback),
    runAll tasks (fst (createResilientSSE o (Browser.initial clock rnd)))
    = Some (w, t) ->
    (heartbeatTimer (this w) <> None -> reconnectAttempts (this w) = 0%nat)
    /\ (reconnectAttempts (this w) <= 1)%nat
    /\ (In (onError (newError (lit "Max reconnection attempts reached"))) t ->
        Options.maxReconnectAttempts (options (this w)) < 0).
Proof.
  intros tasks o clock rnd w t R.
  destruct (monitored_runAll tasks _ w t (monitored_created o clock rnd) R)
    as ((_ & Hz & Hone & _) & Ht & Ho).
  split; [exact Hz|]. split; [exact Hone|]. rewrite Ho. exact Ht.
Qed.

Lemma attempts_never_run_out_witness :
  exists (w : World) (t : list Callback),
    runAll [sourceOpens 2; timePasses 20000; intervalFires 3]
      (fst (createResilientSSE withoutAttempts
              (Browser.initial 0 (fun _ => 1 # 2))))
    = Some (w, t)
    /\ In (onError (newError (lit "Max reconnection attempts reached"))) t
    /\ Options.maxReconnectAttempts (options (this w)) < 0.
Proof.
  destruct (runAll [sourceOpens 2; timePasses 20000; intervalFires 3]
              (fst (createResilientSSE withoutAttempts
                      (Browser.initial 0 (fun _ => 1 # 2)))))
    as [[w t]|] eqn:E; [|vm_compute in E; discriminate].
  exists w, t. split; [reflexivity|].
  assert (Hin : In (onError (newError (lit "Max reconnection attempts reached")))
                  t).
  { pose proof E as E0. vm_compute in E0. injection E0 as _ <-.
    right. right. now left. }
  split; [exact Hin|].
  exact (proj2 (proj2 (attempts_never_run_out _ withoutAttempts 0
                         (fun _ => 1 # 2) w t E)) Hin).
Defined.

End ResilientLoop.

(* ===================================================================== *)
(** * Reconnection: the end of the attempts *)
(* ===================================================================== *)

(** C4 on the POST client. A connection error that finds the attempt
    counter at the limit or above is answered with [onError], called once
    with the error that occurred, and [disconnected]; no timer is set and
    no request is started. No error that says that the attempts are used
    up is passed: with the default limit of five attempts, the fifth
    failure in a row is answered with [reconnecting] and a timer, and the
    sixth with the network error, as every failure before, and
    [disconnected]. After that no timer is pending and no request is under
    way. [ResilientSSE] does pass such an error, after [disconnected],
    where its handler finds the counter at the limit. *)
Theorem fetch_client_exhaustion_has_no_terminal_error :
  let round last :=
    [onConnectionStatus connecting; onError Scenario.networkError;
     onConnectionStatus last] in
  (forall (error : Error.t) (w : FetchSSE.World),
      (FetchSSE.Options.maxReconnectAttempts (FetchSSE.options (FetchSSE.this w))
       <= Z.of_nat (FetchSSE.reconnectAttempts (FetchSSE.this w)))%Z ->
      trace (FetchSSE.handleConnectionError error w)
      = [onError error; onConnectionStatus disconnected]
      /\ Browser.timeouts
           (FetchSSE.browser (state (FetchSSE.handleConnectionError error w)))
         = Browser.timeouts (FetchSSE.browser w)
      /\ FetchSSE.calls (state (FetchSSE.handleConnectionError error w))
         = FetchSSE.calls w)
  /\ (exists w : FetchSSE.World,
      FetchSSE.runAll sixFailures Scenario.client
      = Some (w, round reconnecting ++ round reconnecting ++ round reconnecting
                 ++ round reconnecting ++ round reconnecting
                 ++ round disconnected)
      /\ Browser.timeouts (FetchSSE.browser w) = []
      /\ FetchSSE.calls w = [])
  /\ Scenario.networkError <> maxAttemptsError
  /\ (exists w : FetchSSE.World,
         FetchSSE.runAll (firstn 10 sixFailures) Scenario.client
         = Some (w, round reconnecting ++ round reconnecting
                    ++ round reconnecting ++ round reconnecting
                    ++ round reconnecting)
         /\ map fst (Browser.timeouts (FetchSSE.browser w)) = [10%positive]
         /\ FetchSSE.reconnectAttempts (FetchSSE.this w) = 4%nat)
  /\ (exists w : ResilientSSE.World,
         ResilientLoop.runAll
           [ResilientLoop.sourceOpens 2; ResilientLoop.timePasses 20000;
            ResilientLoop.intervalFires 3]
           (fst (ResilientLoop.createResilientSSE ResilientLoop.withoutAttempts
                   (Browser.initial 0 (fun _ => 1 # 2))))
         = Some (w, [onConnectionStatus connected;
                     onConnectionStatus disconnected;
                     onError maxAttemptsError])).
Proof.
  cbv zeta. split; [|split; [|split; [discriminate|split]]].
  - intros error [[u o a n i l h t ev] b calls] H. cbn in H.
    apply Z.ltb_ge in H.
    unfold FetchSSE.handleConnectionError, FetchSSE.stopHeartbeatMonitor,
      FetchSSE.assign, FetchSSE.window, FetchSSE.windowCall,
      bind, ret, gets, modify, invoke, state, trace.
    cbn. destruct h; cbn; rewrite H; destruct b; cbn; repeat split.
  - destruct (FetchSSE.runAll sixFailures Scenario.client) as [[w t]|] eqn:E;
      [|vm_compute in E; discriminate].
    vm_compute in E. injection E as <- <-. eexists. repeat split.
  - destruct (FetchSSE.runAll (firstn 10 sixFailures) Scenario.client)
      as [[w t]|] eqn:E; [|vm_compute in E; discriminate].
    vm_compute in E. injection E as <- <-. eexists. repeat split.
  - vm_compute. eexists. reflexivity.
Qed.
